(** * cpp-simple-vector: a shallow embedding of [ArrayPtr] and [SimpleVector]

    The development follows [src/simple-vector/array_ptr.h] and
    [src/simple-vector/simple_vector.h].

    - [size_t] values are natural numbers (type [N]) below [2^64]; every
      arithmetic operation of the source on them is written with its
      wrap-around.
    - A heap block is a [list] of elements; the owning pointer [memory_] is
      [None] for [nullptr] and [Some block] otherwise.  An access outside
      the block is undefined behaviour and is reported as a [Fault], with
      the index of the slot.
    - C++ exceptions that leave a member function are reported as [Throw].
    - [operator new[]] may fail: every member function that can allocate
      takes a boolean [heap_ok] telling whether the heap honours the (single)
      request made during that call; a request for more than [PTRDIFF_MAX]
      slots fails whatever the heap.
    - An iterator is a pointer relative to [memory_], or [nullptr].
    - The parameter [value] of [Insert] is a reference, read after the
      shift: it is bound to an object outside the block or to a slot of the
      block.
    - Copy, move and swap work on a store of objects, so that the tests
      [&rhs != this] of the assignment operators are part of the model.

    Definitions come first, then the facts about them, then the statements
    C1 to C10, then further properties of the code, X1 to X24. *)

From stdpp Require Import base numbers option list gmap strings.

Set Default Proof Using "Type".

(** ** [size_t] and [ptrdiff_t] *)

Module SizeT.

Definition modulus : N := 2 ^ 64.

(** [SIZE_MAX] *)
Definition max : N := modulus - 1.

(** conversion of a signed value to [size_t] *)
Definition of_Z (z : Z) : N := Z.to_N (z mod Z.of_N modulus).

Definition add (a b : N) : N := ((a + b) mod modulus)%N.
Definition sub (a b : N) : N := of_Z (Z.of_N a - Z.of_N b).
Definition mul (a b : N) : N := ((a * b) mod modulus)%N.

End SizeT.

(** ** Outcomes of a member function *)

Inductive exn : Set :=
| out_of_range   (* std::out_of_range *)
| bad_alloc.     (* std::bad_alloc and std::bad_array_new_length *)

(** Undefined behaviour, with the slot index of an access outside the block. *)
Inductive ub : Set :=
| oob_read (i : N)
| oob_write (i : N)
| null_deref
| null_arith           (* nullptr + n with n <> 0 *)
| unrelated_pointers   (* a range or distance over a null and a non-null pointer *)
| reversed_range       (* std::copy over [first, last) with last < first *)
| dangling_reference   (* a read through a reference into a deleted block *)
| bad_object.          (* a call on an address that holds no live object, or
                          a construction over a live one *)

Inductive result (A : Type) : Type :=
| Ok (a : A)
| Throw (e : exn)
| Fault (u : ub).
Arguments Ok {A} a.
Arguments Throw {A} e.
Arguments Fault {A} u.

#[export] Instance result_ret : MRet result := @Ok.
#[export] Instance result_bind : MBind result := λ A B f m,
  match m with
  | Ok a => f a
  | Throw e => Throw e
  | Fault u => Fault u
  end.

#[export] Instance result_fmap : FMap result := λ A B f m,
  match m with
  | Ok a => Ok (f a)
  | Throw e => Throw e
  | Fault u => Fault u
  end.

Definition is_Ok {A} (r : result A) : bool :=
  match r with Ok _ => true | _ => false end.

(** ** The element type

    What the two templates use of their parameter [Type]. *)

Class ElemType (T : Type) := {
  (** [Type()]: the value of the slots made by [new Type[n]()] *)
  value_init : T;
  (** the content of a slot made by [new Type[n]] (no initialiser):
      [Type()] for a class type, some indeterminate value for an arithmetic
      type *)
  default_init : T;
  (** the value stored by [memory_[i] = 0]; [Resize] has this assignment
      under a plain [if], so it must compile for every [Type] the member
      functions that grow a vector are used with *)
  from_zero : T;
  (** [std::is_arithmetic<Type>::value] *)
  is_arithmetic : bool;
  (** [std::is_trivially_copyable]: the standard libraries lower [std::copy]
      over pointers to such a type to [memmove] *)
  trivially_copyable : bool;
  (** what is left in [x] after [y = std::move(x)] *)
  moved_from : T → T;
}.

(** [int] *)
#[export] Instance int_elem : ElemType Z := {|
  value_init := 0%Z;
  default_init := 0%Z;
  from_zero := 0%Z;
  is_arithmetic := true;
  trivially_copyable := true;
  moved_from := λ x, x;
|}.

(** [int*], a pointer type, [None] being [nullptr]: not arithmetic, so
    [Resize] writes nothing into the slots it adds; [memory_[i] = 0] would
    store the null pointer *)
Definition int_ptr : Type := option N.

#[export] Instance int_ptr_elem : ElemType int_ptr := {|
  value_init := None;
  default_init := None;
  from_zero := None;
  is_arithmetic := false;
  trivially_copyable := true;
  moved_from := λ x, x;
|}.

(** A class type that holds a text: a [std::string] member, the copy and
    move operations of that member, and a converting constructor from [int]
    that leaves the text empty, for [memory_[i] = 0] to compile.  It is not
    arithmetic, [std::copy] copies it slot by slot, and a moved-from object
    is empty.  ([std::string] itself is no instance: [s = 0] is ambiguous for
    it, so no member function that reaches [ArrayPtr::Resize] can be
    instantiated.) *)
#[export] Instance text_elem : ElemType string := {|
  value_init := EmptyString;
  default_init := EmptyString;
  from_zero := EmptyString;
  is_arithmetic := false;
  trivially_copyable := false;
  moved_from := λ _, EmptyString;
|}.

(** ** Heap blocks *)

Module Block.
Section block.
Context {T : Type} `{!ElemType T}.

(** No array is longer than [PTRDIFF_MAX] bytes, and an element takes at
    least one byte. *)
Definition max_len : N := 2 ^ 63 - 1.

(** [new Type[n]] with every slot holding [init]; [None] when the
    allocation throws. *)
Definition new_array (heap_ok : bool) (init : T) (n : N) : option (list T) :=
  if heap_ok && (n <=? max_len)%N
  then Some (replicate (N.to_nat n) init)
  else None.

Definition read (b : list T) (i : nat) : result T :=
  match b !! i with
  | Some x => Ok x
  | None => Fault (oob_read (N.of_nat i))
  end.

Definition write (b : list T) (i : nat) (x : T) : result (list T) :=
  if decide (i < length b) then Ok (<[i := x]> b)
  else Fault (oob_write (N.of_nat i)).

(** [n] consecutive reads from slot [first] on *)
Fixpoint read_range (b : list T) (first n : nat) : result (list T) :=
  match n with
  | O => Ok []
  | S n' =>
      x ← read b first;
      xs ← read_range b (S first) n';
      Ok (x :: xs)
  end.

(** consecutive writes of [xs] from slot [result_] on *)
Fixpoint write_range (b : list T) (result_ : nat) (xs : list T)
  : result (list T) :=
  match xs with
  | [] => Ok b
  | x :: xs' =>
      b' ← write b result_ x;
      write_range b' (S result_) xs'
  end.

(** [memmove]: the source is read as a whole before anything is written *)
Definition memmove (b : list T) (first n result_ : nat) : result (list T) :=
  xs ← read_range b first n;
  write_range b result_ xs.

(** The loop of [std::copy]: for each [k < n], in increasing order,
    [*(result + k) = *(first + k)], the source slot being left moved-from
    when the iterators are move iterators. *)
Fixpoint copy_loop (move : bool) (b : list T) (first n result_ : nat)
  : result (list T) :=
  match n with
  | O => Ok b
  | S n' =>
      x ← read b first;
      b1 ← write b result_ x;
      b2 ← (if move then write b1 first (moved_from x) else Ok b1);
      copy_loop move b2 (S first) n' (S result_)
  end.

(** [std::copy] of [n] slots within one block.  When the destination starts
    inside the source range the call is outside the precondition of
    [std::copy]; what the standard libraries then do is modelled: [memmove]
    for a trivially copyable [Type], the forward loop otherwise. *)
Definition copy_within (move : bool) (b : list T) (first n result_ : nat)
  : result (list T) :=
  if trivially_copyable then memmove b first n result_
  else copy_loop move b first n result_.

(** [std::copy] of the first [n] slots of [src] to the start of another
    block [dst] *)
Definition copy_into (src : list T) (n : nat) (dst : list T)
  : result (list T) :=
  xs ← read_range src 0 n;
  write_range dst 0 xs.

End block.
End Block.

(** ** [ArrayPtr<Type>] ([array_ptr.h]) *)

Module ArrayPtr.
Section array_ptr.
Context {T : Type} `{!ElemType T}.

Record t : Type := mk {
  memory_ : option (list T);
  size_ : N;
  capacity_ : N;
}.

(** [ArrayPtr()] *)
Definition empty : t := mk None 0 0.

Definition GetSize (this : t) : N := size_ this.
Definition SetSize (value : N) (this : t) : t :=
  mk (memory_ this) value (capacity_ this).
Definition GetCapacity (this : t) : N := capacity_ this.
Definition SetCapacity (value : N) (this : t) : t :=
  mk (memory_ this) (size_ this) value.

(** [swap(ArrayPtr& other)]: the new [*this] and the new [other] *)
Definition swap (this other : t) : t * t :=
  (mk (memory_ other) (size_ other) (capacity_ other),
   mk (memory_ this) (size_ this) (capacity_ this)).

(** [operator[]], read: [memory_[index]] *)
Definition get (index : N) (this : t) : result T :=
  match memory_ this with
  | None => Fault null_deref
  | Some b => Block.read b (N.to_nat index)
  end.

(** [operator[]], assignment through the reference: [memory_[index] = x] *)
Definition set (index : N) (x : T) (this : t) : result t :=
  match memory_ this with
  | None => Fault null_deref
  | Some b =>
      b' ← Block.write b (N.to_nat index) x;
      Ok (mk (Some b') (size_ this) (capacity_ this))
  end.

Definition At (index : N) (this : t) : result T :=
  if (size_ this <=? index)%N then Throw out_of_range
  else get index this.

(** [std::copy(memory_ + 0, memory_ + size_, dst)] into a fresh block *)
Definition copy_out (this : t) (dst : list T) : result (list T) :=
  match memory_ this with
  | None => if (size_ this =? 0)%N then Ok dst else Fault null_arith
  | Some b => Block.copy_into b (N.to_nat (size_ this)) dst
  end.

Definition Reserve (heap_ok : bool) (new_capacity : N) (this : t)
  : result t :=
  if (new_capacity <=? GetCapacity this)%N then Ok this
  else
    match Block.new_array heap_ok value_init new_capacity with
    | None => Ok this   (* catch (...) with new_memory == nullptr *)
    | Some new_memory =>
        new_memory' ← copy_out this new_memory;
        Ok (mk (Some new_memory') (size_ this) new_capacity)
    end.

(** [for (i = from; i < new_size; ++i) memory_[i] = 0], [n] iterations
    left; [i + 1] cannot wrap since [i < new_size] *)
Fixpoint zero_fill (n : nat) (i : N) (this : t) : result t :=
  match n with
  | O => Ok this
  | S n' =>
      this' ← set i from_zero this;
      zero_fill n' (N.succ i) this'
  end.

Definition Resize (heap_ok : bool) (new_size : N) (this : t) : result t :=
  let old_size := GetSize this in
  this1 ← Reserve heap_ok new_size this;
  this2 ← (if is_arithmetic
           then zero_fill (N.to_nat (new_size - old_size)) old_size this1
           else Ok this1);
  Ok (SetSize new_size this2).

(** [explicit ArrayPtr(size_t size)] *)
Definition ctor_size (heap_ok : bool) (size : N) : result t :=
  if (0 <? size)%N then Resize heap_ok size empty else Ok empty.

(** [ArrayPtr(size_t size, size_t capacity)] *)
Definition ctor_size_capacity (heap_ok : bool) (size capacity : N)
  : result t :=
  this ← Resize heap_ok capacity empty;
  Ok (SetSize size this).

(** [ArrayPtr(const ArrayPtr& other)]; the allocation is outside any
    [try] *)
Definition copy_ctor (heap_ok : bool) (other : t) : result t :=
  let tmp_size := size_ other in
  let tmp_capacity := capacity_ other in
  match Block.new_array heap_ok default_init tmp_capacity with
  | None => Throw bad_alloc
  | Some m =>
      m' ← copy_out other m;
      Ok (fst (swap empty (mk (Some m') tmp_size tmp_capacity)))
  end.

(** [ArrayPtr(ArrayPtr&& other)]: the new object and what is left of
    [other] *)
Definition move_ctor (other : t) : t * t := swap empty other.

(** [operator=(const ArrayPtr& rhs)] when [&rhs != this] *)
Definition copy_assign (heap_ok : bool) (this rhs : t) : result t :=
  tmp ← copy_ctor heap_ok rhs;
  Ok (fst (swap this tmp)).

(** [operator=(ArrayPtr&& rhs)] when [&rhs != this]: the new [*this] and
    what is left of [rhs] *)
Definition move_assign (this rhs : t) : t * t :=
  let this1 := mk None 0 0 in   (* delete[] memory_; the three resets *)
  swap this1 rhs.

End array_ptr.
Arguments t T : clear implicits.
End ArrayPtr.

(** ** Iterators: [Type*] into the block of one vector *)

Inductive ptr : Set :=
| Null
| Slot (i : Z).   (* memory_ + i *)

(** [std::distance(first, last)] *)
Definition std_distance (first last : ptr) : result Z :=
  match first, last with
  | Null, Null => Ok 0%Z
  | Slot i, Slot j => Ok (j - i)%Z
  | _, _ => Fault unrelated_pointers
  end.

(** [std::next(it, n)] *)
Definition std_next (it : ptr) (n : Z) : result ptr :=
  match it with
  | Null => if decide (n = 0%Z) then Ok Null else Fault null_arith
  | Slot i => Ok (Slot (i + n))
  end.

(** ** [SimpleVector<Type>] ([simple_vector.h]) *)

Module SimpleVector.
Section simple_vector.
Context {T : Type} `{!ElemType T}.

Record t : Type := mk { array_ : ArrayPtr.t T }.

(** [SimpleVector()] *)
Definition empty : t := mk ArrayPtr.empty.

Definition GetSize (this : t) : N := ArrayPtr.GetSize (array_ this).
Definition GetCapacity (this : t) : N := ArrayPtr.GetCapacity (array_ this).
Definition IsEmpty (this : t) : bool := (ArrayPtr.GetSize (array_ this) =? 0)%N.

(** [&array_[index]]: no access is made *)
Definition addr_of (index : N) (this : t) : result ptr :=
  match ArrayPtr.memory_ (array_ this) with
  | None => if (index =? 0)%N then Ok Null else Fault null_arith
  | Some _ => Ok (Slot (Z.of_N index))
  end.

Definition begin (this : t) : result ptr :=
  if IsEmpty this then Ok Null else addr_of 0 this.
Definition end_ (this : t) : result ptr :=
  if IsEmpty this then Ok Null else addr_of (GetSize this) this.
Definition cbegin (this : t) : result ptr :=
  if IsEmpty this then Ok Null else addr_of 0 this.
Definition cend (this : t) : result ptr :=
  if IsEmpty this then Ok Null else addr_of (GetSize this) this.

(** [*it], read *)
Definition deref (it : ptr) (this : t) : result T :=
  match it with
  | Null => Fault null_deref
  | Slot i =>
      if decide (i < 0)%Z then Fault (oob_read (SizeT.of_Z i))
      else ArrayPtr.get (Z.to_N i) (array_ this)
  end.

(** [std::copy(first, last, result)] over iterators of this vector, with
    move iterators when [move] is set *)
Definition std_copy (move : bool) (first last result_ : ptr) (this : t)
  : result t :=
  match first, last with
  | Null, Null => Ok this
  | Slot f, Slot l =>
      if decide (l < f)%Z then Fault reversed_range
      else if decide (l = f) then Ok this
      else
        match result_, ArrayPtr.memory_ (array_ this) with
        | Slot r, Some b =>
            if decide (f < 0)%Z then Fault (oob_read (SizeT.of_Z f))
            else if decide (r < 0)%Z then Fault (oob_write (SizeT.of_Z r))
            else
              b' ← Block.copy_within move b
                     (Z.to_nat f) (Z.to_nat (l - f)) (Z.to_nat r);
              Ok (mk (ArrayPtr.mk (Some b')
                        (ArrayPtr.size_ (array_ this))
                        (ArrayPtr.capacity_ (array_ this))))
        | _, _ => Fault null_deref
        end
  | _, _ => Fault unrelated_pointers
  end.

Definition Resize (heap_ok : bool) (new_size : N) (this : t) : result t :=
  a ← ArrayPtr.Resize heap_ok new_size (array_ this); Ok (mk a).

Definition Reserve (heap_ok : bool) (new_capacity : N) (this : t)
  : result t :=
  a ← ArrayPtr.Reserve heap_ok new_capacity (array_ this); Ok (mk a).

Definition GrowIfNeed (heap_ok : bool) (this : t) : result t :=
  let current_size := GetSize this in
  if (current_size =? 0)%N then Resize heap_ok 1 this
  else if (GetCapacity this <=? current_size)%N
       then Resize heap_ok (SizeT.mul (GetCapacity this) 2) this
       else Ok this.

(** [PushBack]: the two overloads differ only in how [item] is taken;
    [item] is an object outside the block of the vector *)
Definition PushBack (heap_ok : bool) (item : T) (this : t) : result t :=
  let old_size := ArrayPtr.GetSize (array_ this) in
  this1 ← GrowIfNeed heap_ok this;
  let a2 := ArrayPtr.SetSize (SizeT.add old_size 1) (array_ this1) in
  a3 ← ArrayPtr.set old_size item a2;
  Ok (mk a3).

(** What the reference parameter [value] of [Insert] is bound to: an object
    that is no slot of the block of this vector, with the value it holds, or
    slot [k] of the block, as in [v.Insert(pos, v[k])]. *)
Inductive arg : Type :=
| Outside (x : T)
| Element (k : N).

(** The read of [value], made when the shift is over.  A reference to a
    slot is read in the block as it is then; it dangles when [GrowIfNeed] has
    moved the elements to a new block and deleted the old one, which it has
    exactly when the capacity has changed. *)
Definition read_arg (value : arg) (old_capacity : N) (this : t) : result T :=
  match value with
  | Outside x => Ok x
  | Element k =>
      if (GetCapacity this =? old_capacity)%N
      then ArrayPtr.get k (array_ this)
      else Fault dangling_reference
  end.

(** What [std::move(value)] leaves behind in [array_[index] =
    std::move(value)] when [value] is a slot of the block; for a trivially
    copyable [Type] a move is a copy. *)
Definition leave_moved (move : bool) (value : arg) (x : T)
    (a : ArrayPtr.t T) : result (ArrayPtr.t T) :=
  match value with
  | Outside _ => Ok a
  | Element k =>
      if move && negb trivially_copyable
      then ArrayPtr.set k (moved_from x) a
      else Ok a
  end.

(** [Insert]: [move] selects the overload taking [Type&&], whose shift
    goes through move iterators.  [value] is a reference, read after the
    shift. *)
Definition Insert_gen (move : bool) (heap_ok : bool) (pos : ptr) (value : arg)
    (this : t) : result (ptr * t) :=
  let old_size := ArrayPtr.GetSize (array_ this) in
  b ← cbegin this;
  index ← std_distance b pos;
  this1 ← GrowIfNeed heap_ok this;
  let this2 := mk (ArrayPtr.SetSize (SizeT.add old_size 1) (array_ this1)) in
  new_pos ← addr_of (SizeT.of_Z index) this2;
  e ← end_ this2;
  b2 ← begin this2;
  dst ← std_next b2 (index + 1);
  this3 ← std_copy move new_pos e dst this2;
  x ← read_arg value (GetCapacity this) this3;
  a4 ← ArrayPtr.set (SizeT.of_Z index) x (array_ this3);
  a5 ← leave_moved move value x a4;
  Ok (new_pos, mk a5).

Definition Insert := Insert_gen false.
Definition Insert_move := Insert_gen true.

Definition PopBack (this : t) : t :=
  if negb (IsEmpty this)
  then mk (ArrayPtr.SetSize
             (SizeT.sub (ArrayPtr.GetSize (array_ this)) 1) (array_ this))
  else this.

Definition Erase (pos : ptr) (this : t) : result (ptr * t) :=
  b ← cbegin this;
  index ← std_distance b pos;
  it_start ← addr_of (SizeT.of_Z (index + 1)) this;
  e ← end_ this;
  b2 ← begin this;
  dst ← std_next b2 index;
  this1 ← std_copy true it_start e dst this;
  let this2 :=
    mk (ArrayPtr.SetSize
          (SizeT.sub (ArrayPtr.GetSize (array_ this1)) 1) (array_ this1)) in
  if (GetSize this2 <=? SizeT.of_Z index)%N
  then e2 ← end_ this2; Ok (e2, this2)
  else p ← addr_of (SizeT.of_Z index) this2; Ok (p, this2).

(** [operator[]], read *)
Definition get (index : N) (this : t) : result T :=
  ArrayPtr.get index (array_ this).

Definition At (index : N) (this : t) : result T :=
  ArrayPtr.At index (array_ this).

Definition Clear (this : t) : t := mk (ArrayPtr.SetSize 0 (array_ this)).

(** [explicit SimpleVector(size_t size)] *)
Definition ctor_size (heap_ok : bool) (size : N) : result t :=
  a ← ArrayPtr.ctor_size heap_ok size; Ok (mk a).

(** [for (it = begin(); it != end(); ++it) *it = value], [n] iterations
    left *)
Fixpoint fill (n : nat) (i : N) (value : T) (a : ArrayPtr.t T)
  : result (ArrayPtr.t T) :=
  match n with
  | O => Ok a
  | S n' => a' ← ArrayPtr.set i value a; fill n' (N.succ i) value a'
  end.

(** [SimpleVector(size_t size, const Type& value)] *)
Definition ctor_fill (heap_ok : bool) (size : N) (value : T) : result t :=
  a ← ArrayPtr.ctor_size heap_ok size;
  a' ← fill (N.to_nat (ArrayPtr.GetSize a)) 0 value a;
  Ok (mk a').

(** [array_[i++] = v] for each [v] of the list *)
Fixpoint assign_from (i : N) (init : list T) (a : ArrayPtr.t T)
  : result (ArrayPtr.t T) :=
  match init with
  | [] => Ok a
  | v :: init' => a' ← ArrayPtr.set i v a; assign_from (N.succ i) init' a'
  end.

(** [SimpleVector(std::initializer_list<Type> init)]; its [assert]
    compares [array_.GetSize()], which [Resize] has just set to
    [init.size()], with [init.size()] and cannot fail for a list of more
    than zero elements; for the empty list both sides are 0 *)
Definition ctor_list (heap_ok : bool) (init : list T) : result t :=
  a ← ArrayPtr.ctor_size heap_ok (N.of_nat (length init));
  a' ← assign_from 0 init a;
  Ok (mk a').

(** [SimpleVector(const ReserveProxyObj& reserveObj)] *)
Definition ctor_reserve (heap_ok : bool) (capacity_to_reserve : N)
  : result t :=
  a ← ArrayPtr.ctor_size_capacity heap_ok 0 capacity_to_reserve; Ok (mk a).

(** The elements a caller can see: slots [0 .. size) of the block *)
Definition elements (this : t) : list T :=
  match ArrayPtr.memory_ (array_ this) with
  | None => []
  | Some b => take (N.to_nat (GetSize this)) b
  end.

End simple_vector.
Arguments t T : clear implicits.
Arguments arg T : clear implicits.
Arguments std_copy : simpl never.
End SimpleVector.

(** ** Programs over several vectors

    Copy, move and swap involve two objects, and the assignment operators
    test [&rhs != this].  A store maps the address of each live
    [SimpleVector] to its [array_] member; a temporary [ArrayPtr] lives at a
    fresh address until its scope ends. *)

Module Program.
Section program.
Context {T : Type} `{!ElemType T}.

Abbreviation store := (gmap nat (ArrayPtr.t T)).

(** A call of the public interface on the objects at the given addresses *)
Inductive call : Type :=
| NewDefault (v : nat)
| NewSize (v : nat) (size : N)
| NewFill (v : nat) (size : N) (value : T)
| NewList (v : nat) (init : list T)
| NewReserve (v : nat) (capacity_to_reserve : N)
| NewCopy (v other : nat)
| NewMove (v other : nat)
| AssignCopy (v rhs : nat)
| AssignMove (v rhs : nat)
| Swap (v other : nat)
| PushBack (v : nat) (item : T)
| Insert (v : nat) (pos : ptr) (value : SimpleVector.arg T)
| InsertMove (v : nat) (pos : ptr) (value : SimpleVector.arg T)
| PopBack (v : nat)
| Erase (v : nat) (pos : ptr)
| Clear (v : nat)
| Resize (v : nat) (new_size : N)
| Reserve (v : nat) (new_capacity : N)
| Destroy (v : nat).

(** a constructor call: the address must not hold a live object *)
Definition construct (v : nat) (r : result (ArrayPtr.t T)) (σ : store)
  : result store :=
  match σ !! v with
  | Some _ => Fault bad_object
  | None => a ← r; Ok (<[v := a]> σ)
  end.

(** a member function call on the live object at [v] *)
Definition method (v : nat)
    (f : SimpleVector.t T → result (SimpleVector.t T)) (σ : store)
  : result store :=
  match σ !! v with
  | None => Fault bad_object
  | Some a =>
      this ← f (SimpleVector.mk a);
      Ok (<[v := SimpleVector.array_ this]> σ)
  end.

(** [ArrayPtr(ArrayPtr&& other)] constructing the object at [v] *)
Definition move_construct (v other : nat) (σ : store) : result store :=
  match σ !! v, σ !! other with
  | None, Some o =>
      let '(this, o') := ArrayPtr.move_ctor o in
      Ok (<[v := this]> (<[other := o']> σ))
  | Some _, _ => Fault bad_object
  | _, None => Fault bad_object
  end.

(** [ArrayPtr(const ArrayPtr& other)] constructing the object at [v] *)
Definition copy_construct (heap_ok : bool) (v other : nat) (σ : store)
  : result store :=
  match σ !! v, σ !! other with
  | None, Some o =>
      this ← ArrayPtr.copy_ctor heap_ok o;
      Ok (<[v := this]> σ)
  | Some _, _ => Fault bad_object
  | _, None => Fault bad_object
  end.

(** [operator=(const ArrayPtr& rhs)] *)
Definition copy_assign (heap_ok : bool) (this rhs : nat) (σ : store)
  : result store :=
  match σ !! this, σ !! rhs with
  | Some a, Some r =>
      if decide (rhs = this) then Ok σ
      else a' ← ArrayPtr.copy_assign heap_ok a r; Ok (<[this := a']> σ)
  | _, _ => Fault bad_object
  end.

(** [operator=(ArrayPtr&& rhs)] *)
Definition move_assign (this rhs : nat) (σ : store) : result store :=
  match σ !! this, σ !! rhs with
  | Some a, Some r =>
      if decide (rhs = this) then Ok σ
      else
        let '(a', r') := ArrayPtr.move_assign a r in
        Ok (<[this := a']> (<[rhs := r']> σ))
  | _, _ => Fault bad_object
  end.

(** [SimpleVector::swap], that is [std::swap(this->array_, other.array_)]:
    [ArrayPtr tmp(std::move(a)); a = std::move(b); b = std::move(tmp);] *)
Definition swap (this other : nat) (σ : store) : result store :=
  let tmp := fresh (dom σ) in
  σ1 ← move_construct tmp this σ;
  σ2 ← move_assign this other σ1;
  σ3 ← move_assign other tmp σ2;
  Ok (delete tmp σ3).

Definition exec (heap_ok : bool) (c : call) (σ : store) : result store :=
  match c with
  | NewDefault v => construct v (Ok ArrayPtr.empty) σ
  | NewSize v size =>
      construct v (SimpleVector.array_ <$> SimpleVector.ctor_size heap_ok size) σ
  | NewFill v size value =>
      construct v
        (SimpleVector.array_ <$> SimpleVector.ctor_fill heap_ok size value) σ
  | NewList v init =>
      construct v (SimpleVector.array_ <$> SimpleVector.ctor_list heap_ok init) σ
  | NewReserve v n =>
      construct v (SimpleVector.array_ <$> SimpleVector.ctor_reserve heap_ok n) σ
  | NewCopy v other => copy_construct heap_ok v other σ
  | NewMove v other => move_construct v other σ
  | AssignCopy v rhs => copy_assign heap_ok v rhs σ
  | AssignMove v rhs => move_assign v rhs σ
  | Swap v other => swap v other σ
  | PushBack v item => method v (SimpleVector.PushBack heap_ok item) σ
  | Insert v pos value =>
      method v (λ this, snd <$> SimpleVector.Insert heap_ok pos value this) σ
  | InsertMove v pos value =>
      method v
        (λ this, snd <$> SimpleVector.Insert_move heap_ok pos value this) σ
  | PopBack v => method v (λ this, Ok (SimpleVector.PopBack this)) σ
  | Erase v pos => method v (λ this, snd <$> SimpleVector.Erase pos this) σ
  | Clear v => method v (λ this, Ok (SimpleVector.Clear this)) σ
  | Resize v n => method v (SimpleVector.Resize heap_ok n) σ
  | Reserve v n => method v (SimpleVector.Reserve heap_ok n) σ
  | Destroy v => Ok (delete v σ)
  end.

(** A run of calls, each with the answer of the heap to its allocation.
    A call that throws leaves every live object as it was (the only
    [throw] sites are the allocation of the copy constructor, before
    anything is modified, and [At]), and the run goes on. *)
Fixpoint run (p : list (bool * call)) (σ : store) : result store :=
  match p with
  | [] => Ok σ
  | (heap_ok, c) :: p' =>
      match exec heap_ok c σ with
      | Ok σ' => run p' σ'
      | Throw _ => run p' σ
      | Fault u => Fault u
      end
  end.

(** The states a vector can be in after any run from the empty store *)
Definition reachable (a : ArrayPtr.t T) : Prop :=
  ∃ p σ v, run p ∅ = Ok σ ∧ σ !! v = Some a.

End program.
Arguments call T : clear implicits.
End Program.

(** ** Notions used by the statements *)

Section notions.
Context {T : Type} `{!ElemType T}.

(** the block [memory_] points to; nothing for [nullptr] *)
Definition block (a : ArrayPtr.t T) : list T :=
  default [] (ArrayPtr.memory_ a).

(** The state of a buffer whose allocations have all been honoured:
    [capacity_] is the length of the owned block and bounds [size_]. *)
Definition wf (a : ArrayPtr.t T) : Prop :=
  N.of_nat (length (block a)) = ArrayPtr.capacity_ a
  ∧ (ArrayPtr.size_ a ≤ ArrayPtr.capacity_ a)%N
  ∧ (ArrayPtr.capacity_ a ≤ Block.max_len)%N.

(** the value of a slot added by [Resize] *)
Definition fill_value : T :=
  if is_arithmetic then from_zero else value_init.

(** A position an iterator of the vector can denote: [begin() + i] with
    [i <= size], which is [nullptr] for an empty vector. *)
Definition position (i : N) (this : SimpleVector.t T) : ptr :=
  if SimpleVector.IsEmpty this then Null else Slot (Z.of_N i).

(** the capacity [GrowIfNeed] leaves when the heap honours its request *)
Definition grown (this : SimpleVector.t T) : N :=
  if (SimpleVector.GetSize this <? SimpleVector.GetCapacity this)%N
  then SimpleVector.GetCapacity this
  else if (SimpleVector.GetCapacity this =? 0)%N then 1%N
       else (2 * SimpleVector.GetCapacity this)%N.

(** [PushBack] of each item of a list in turn, the heap honouring every
    request *)
Fixpoint push_all (items : list T) (this : SimpleVector.t T)
  : result (SimpleVector.t T) :=
  match items with
  | [] => Ok this
  | x :: items' =>
      this' ← SimpleVector.PushBack true x this;
      push_all items' this'
  end.

(** [value] can be read when [Insert] stores it: it is no slot of the
    block, or it is an element of a vector with spare capacity, whose block
    [GrowIfNeed] leaves in place. *)
Definition stays_valid (value : SimpleVector.arg T) (this : SimpleVector.t T)
  : Prop :=
  match value with
  | SimpleVector.Outside _ => True
  | SimpleVector.Element k =>
      (k < SimpleVector.GetSize this)%N
      ∧ (SimpleVector.GetSize this < SimpleVector.GetCapacity this)%N
  end.

(** What [value] holds once a [memmove] shift has opened a hole at position
    [i]: slot [k] still holds element [k] when [k <= i], and holds element
    [k - 1] when [i < k]. *)
Definition value_after_shift (value : SimpleVector.arg T) (i : N)
    (this : SimpleVector.t T) : option T :=
  match value with
  | SimpleVector.Outside x => Some x
  | SimpleVector.Element k =>
      SimpleVector.elements this !! N.to_nat (if (k <=? i)%N then k else k - 1)
  end.

(** [Erase(Insert(pos, value))] *)
Definition insert_then_erase (move heap_ok : bool) (pos : ptr)
    (value : SimpleVector.arg T) (this : SimpleVector.t T)
  : result (ptr * SimpleVector.t T) :=
  r ← SimpleVector.Insert_gen move heap_ok pos value this;
  SimpleVector.Erase r.1 r.2.

(** What every member function that works on one buffer does to the pointer
    and the capacity: the capacity does not decrease, and a buffer that ends
    with a null pointer had one and kept its capacity. *)
Definition evolves (a a' : ArrayPtr.t T) : Prop :=
  (ArrayPtr.capacity_ a ≤ ArrayPtr.capacity_ a')%N
  ∧ (ArrayPtr.memory_ a' = None →
     ArrayPtr.memory_ a = None
     ∧ ArrayPtr.capacity_ a' = ArrayPtr.capacity_ a).

(** a null pointer comes with capacity 0 *)
Definition null_only_if_no_capacity (a : ArrayPtr.t T) : Prop :=
  ArrayPtr.memory_ a = None → ArrayPtr.capacity_ a = 0%N.

(** the capacity of the object at [v], 0 when there is none *)
Definition capacity_at (v : nat) (σ : gmap nat (ArrayPtr.t T)) : N :=
  from_option ArrayPtr.capacity_ 0%N (σ !! v).

(** the largest number of slots a call may ask [operator new[]] for *)
Definition request (c : Program.call T) (σ : gmap nat (ArrayPtr.t T)) : N :=
  match c with
  | Program.NewSize _ n | Program.NewFill _ n _ | Program.NewReserve _ n
  | Program.Resize _ n | Program.Reserve _ n => n
  | Program.NewList _ init => N.of_nat (length init)
  | Program.NewCopy _ other | Program.AssignCopy _ other => capacity_at other σ
  | Program.PushBack v _ | Program.Insert v _ _ | Program.InsertMove v _ _ =>
      (2 * capacity_at v σ)%N
  | _ => 0%N
  end.

(** the heap honours the request of the call *)
Definition honoured (heap_ok : bool) (c : Program.call T)
    (σ : gmap nat (ArrayPtr.t T)) : Prop :=
  heap_ok = true ∧ (request c σ ≤ Block.max_len)%N.

(** a run whose every call is honoured; the store it ends with *)
Fixpoint run_honoured (p : list (bool * Program.call T))
    (σ : gmap nat (ArrayPtr.t T)) : Prop :=
  match p with
  | [] => True
  | (heap_ok, c) :: p' =>
      honoured heap_ok c σ
      ∧ match Program.exec heap_ok c σ with
        | Ok σ' => run_honoured p' σ'
        | Throw _ => run_honoured p' σ
        | Fault _ => True
        end
  end.

End notions.

(** the capacity after [n] calls of [PushBack] on a fresh vector: 0, then the
    least power of two that is at least [n] *)
Definition doubled_capacity (n : N) : N :=
  if (n =? 0)%N then 0%N else (2 ^ N.log2_up n)%N.

(** [{1, 2, 3}] as [SimpleVector<int>{1, 2, 3}] leaves it *)
Definition v123 : SimpleVector.t Z :=
  SimpleVector.mk (ArrayPtr.mk (Some [1; 2; 3]%Z) 3 3).

Abbreviation null_ok σ :=
  (map_Forall (λ _ a, null_only_if_no_capacity a) σ).

Abbreviation all_wf σ := (map_Forall (λ _ a, wf a) σ).

(** ** [ReserveProxyObj] and the free function [Reserve] *)

Record ReserveProxyObj : Set := mkReserveProxyObj {
  capacity_to_reserve_ : N;
}.

(** [ReserveProxyObj::capacity()] *)
Definition capacity (obj : ReserveProxyObj) : N := capacity_to_reserve_ obj.

(** [ReserveProxyObj Reserve(size_t capacity_to_reserve)] *)
Definition Reserve (capacity_to_reserve : N) : ReserveProxyObj :=
  mkReserveProxyObj capacity_to_reserve.

(** [SimpleVector(const ReserveProxyObj& reserveObj)], from the object *)
Definition ctor_proxy {T : Type} `{!ElemType T} (heap_ok : bool)
    (reserveObj : ReserveProxyObj) : result (SimpleVector.t T) :=
  SimpleVector.ctor_reserve heap_ok (capacity reserveObj).

(** ** The comparison operators ([simple_vector.h], after the class)

    What they use of [Type]: *)

Class ElemCompare (T : Type) := {
  (** [operator==] of [Type] *)
  elem_eq : T → T → bool;
  (** [operator<] of [Type] *)
  elem_lt : T → T → bool;
}.

#[export] Instance int_compare : ElemCompare Z := {|
  elem_eq := Z.eqb;
  elem_lt := Z.ltb;
|}.

(** pointer comparison, [first == last] *)
#[export] Instance ptr_eq_dec : EqDecision ptr.
Proof. solve_decision. Defined.

Module Compare.
Section compare.
Context {T : Type} `{!ElemType T} `{!ElemCompare T}.

(** the loop of [std::equal], [n] pairs left: it stops at the first pair
    that differs *)
Fixpoint equal_loop (n : nat) (first1 first2 : ptr)
    (lhs rhs : SimpleVector.t T) : result bool :=
  match n with
  | O => Ok true
  | S n' =>
      x ← SimpleVector.deref first1 lhs;
      y ← SimpleVector.deref first2 rhs;
      if elem_eq x y then
        next1 ← std_next first1 1;
        next2 ← std_next first2 1;
        equal_loop n' next1 next2 lhs rhs
      else Ok false
  end.

(** [std::equal(first1, last1, first2, last2)] over random access iterators:
    ranges of different lengths are unequal without any element being
    read *)
Definition std_equal (first1 last1 first2 last2 : ptr)
    (lhs rhs : SimpleVector.t T) : result bool :=
  d1 ← std_distance first1 last1;
  d2 ← std_distance first2 last2;
  if decide (d1 ≠ d2) then Ok false
  else if decide (d1 < 0)%Z then Fault reversed_range
  else equal_loop (Z.to_nat d1) first1 first2 lhs rhs.

(** [std::lexicographical_compare(first1, last1, first2, last2)]: while
    neither range is exhausted, with [x] and [y] the two current elements,
    return true if [x < y], false if [y < x], and step both iterators
    otherwise; at the end return [first1 == last1 && first2 != last2].
    [fuel] bounds the iterations; it runs out only when [last1] cannot be
    reached from [first1]. *)
Fixpoint lexicographical_compare (fuel : nat) (first1 last1 first2 last2 : ptr)
    (lhs rhs : SimpleVector.t T) : result bool :=
  if decide (first1 = last1) then Ok (bool_decide (first2 ≠ last2))
  else if decide (first2 = last2) then Ok false
  else
    match fuel with
    | O => Fault reversed_range
    | S fuel' =>
        x ← SimpleVector.deref first1 lhs;
        y ← SimpleVector.deref first2 rhs;
        if elem_lt x y then Ok true
        else if elem_lt y x then Ok false
        else
          next1 ← std_next first1 1;
          next2 ← std_next first2 1;
          lexicographical_compare fuel' next1 last1 next2 last2 lhs rhs
    end.

(** [operator==] *)
Definition operator_eq (lhs rhs : SimpleVector.t T) : result bool :=
  if (SimpleVector.GetSize lhs =? SimpleVector.GetSize rhs)%N then
    b1 ← SimpleVector.begin lhs;
    e1 ← SimpleVector.end_ lhs;
    b2 ← SimpleVector.begin rhs;
    e2 ← SimpleVector.end_ rhs;
    std_equal b1 e1 b2 e2 lhs rhs
  else Ok false.

(** [operator!=] *)
Definition operator_ne (lhs rhs : SimpleVector.t T) : result bool :=
  negb <$> operator_eq lhs rhs.

(** [operator<] *)
Definition operator_lt (lhs rhs : SimpleVector.t T) : result bool :=
  b1 ← SimpleVector.begin lhs;
  e1 ← SimpleVector.end_ lhs;
  b2 ← SimpleVector.begin rhs;
  e2 ← SimpleVector.end_ rhs;
  lexicographical_compare (S (N.to_nat (SimpleVector.GetSize lhs)))
    b1 e1 b2 e2 lhs rhs.

(** [operator<=]: [lhs < rhs || lhs == rhs] *)
Definition operator_le (lhs rhs : SimpleVector.t T) : result bool :=
  operator_lt lhs rhs ≫= λ less : bool,
    if less then Ok true else operator_eq lhs rhs.

(** [operator>]: [!(lhs <= rhs)] *)
Definition operator_gt (lhs rhs : SimpleVector.t T) : result bool :=
  negb <$> operator_le lhs rhs.

(** [operator>=]: [!(lhs < rhs)] *)
Definition operator_ge (lhs rhs : SimpleVector.t T) : result bool :=
  negb <$> operator_lt lhs rhs.

End compare.
End Compare.

(** Reference notions on lists of elements *)

Section list_order.
Context {T : Type} `{!ElemCompare T}.

(** same length and [==] slot by slot *)
Fixpoint pairwise_eq (l1 l2 : list T) : bool :=
  match l1, l2 with
  | [], [] => true
  | x :: l1', y :: l2' => elem_eq x y && pairwise_eq l1' l2'
  | _, _ => false
  end.

(** the lexicographic order induced by [<] *)
Fixpoint lex_lt (l1 l2 : list T) : bool :=
  match l1, l2 with
  | [], [] => false
  | [], _ :: _ => true
  | _ :: _, [] => false
  | x :: l1', y :: l2' =>
      if elem_lt x y then true
      else if elem_lt y x then false
      else lex_lt l1' l2'
  end.

(** [==] is equality and [<] a strict total order on [Type] *)
Class ElemOrder : Prop := {
  elem_eq_spec x y : elem_eq x y = true ↔ x = y;
  elem_lt_asym x y : elem_lt x y = true → elem_lt y x = false;
  elem_lt_connex x y : elem_lt x y = false → elem_lt y x = false → x = y;
}.
End list_order.
Arguments ElemOrder T {_}.

Definition v12 : SimpleVector.t Z :=
  SimpleVector.mk (ArrayPtr.mk (Some [1; 2]%Z) 2 2).
Definition v129 : SimpleVector.t Z :=
  SimpleVector.mk (ArrayPtr.mk (Some [1; 2; 9]%Z) 3 3).
Definition v13 : SimpleVector.t Z :=
  SimpleVector.mk (ArrayPtr.mk (Some [1; 3]%Z) 2 2).

(** * Facts *)

(** ** Outcomes *)

Lemma bind_Ok {A B} (m : result A) (f : A → result B) (y : B) :
  m ≫= f = Ok y ↔ ∃ x, m = Ok x ∧ f x = Ok y.
Proof.
  destruct m; simpl; split; try (intros (? & ? & ?)); try done; eauto.
  by simplify_eq.
Qed.

Lemma fmap_Ok {A B} (f : A → B) (m : result A) (y : B) :
  f <$> m = Ok y ↔ ∃ x, m = Ok x ∧ y = f x.
Proof.
  destruct m; simpl; split; try (intros (? & ? & ?)); try done.
  - intros [= <-]. eauto.
  - by simplify_eq.
Qed.

(** decompose the hypotheses saying that a sequence of steps returned *)
Ltac inv_Ok :=
  repeat match goal with
    | H : Ok _ = Ok _ |- _ => injection H as H; try subst
    | H : Throw _ = Ok _ |- _ => discriminate H
    | H : Fault _ = Ok _ |- _ => discriminate H
    | H : (_ ≫= _) = Ok _ |- _ =>
        let x := fresh "r" in
        let Hx := fresh "H" x in
        apply bind_Ok in H as (x & Hx & H)
    | H : (_ <$> _) = Ok _ |- _ =>
        let x := fresh "r" in
        let Hx := fresh "H" x in
        apply fmap_Ok in H as (x & Hx & H); try subst
    end.

(** ** Blocks *)

Section block_facts.
Context {T : Type} `{!ElemType T}.
Implicit Types (b xs src dst pre mid post : list T).

Lemma read_Ok b i x : b !! i = Some x → Block.read b i = Ok x.
Proof. unfold Block.read. by intros ->. Qed.

Lemma write_Ok b i x :
  i < length b → Block.write b i x = Ok (<[i := x]> b).
Proof. unfold Block.write. intros. by rewrite decide_True. Qed.

Lemma write_oob b i x :
  length b ≤ i → Block.write b i x = Fault (oob_write (N.of_nat i)).
Proof. unfold Block.write. intros. rewrite decide_False; [done | lia]. Qed.

Lemma read_range_Ok b first n :
  first + n ≤ length b →
  Block.read_range b first n = Ok (take n (drop first b)).
Proof.
  revert first. induction n as [|n IH]; intros first Hle; simpl; [done|].
  destruct (lookup_lt_is_Some_2 b first) as [x Hx]; [lia|].
  rewrite (read_Ok _ _ _ Hx). simpl. rewrite IH by lia. simpl.
  by rewrite (drop_S _ _ _ Hx).
Qed.

Lemma write_range_app pre mid post xs :
  length mid = length xs →
  Block.write_range (pre ++ mid ++ post) (length pre) xs
  = Ok (pre ++ xs ++ post).
Proof.
  revert pre mid. induction xs as [|x xs IH]; intros pre [|m mid] Hlen;
    simplify_eq/=; [done|].
  rewrite write_Ok by (rewrite !length_app; simpl; lia). simpl.
  rewrite insert_app_r_alt, Nat.sub_diag by done. simpl.
  rewrite (cons_middle x pre), (assoc_L (++) pre [x]).
  replace (S (length pre)) with (length (pre ++ [x]))
    by (rewrite length_app; simpl; lia).
  rewrite (IH _ mid) by done. by rewrite <- (assoc_L (++)).    
Qed.

Lemma write_range_Ok b r xs :
  r + length xs ≤ length b →
  Block.write_range b r xs = Ok (take r b ++ xs ++ drop (r + length xs) b).
Proof.
  intros Hle.
  pose proof (write_range_app (take r b) (take (length xs) (drop r b))
                (drop (r + length xs) b) xs) as H.
  rewrite (length_take_le b r) in H by lia.
  rewrite <- drop_drop, !take_drop in H.
  rewrite drop_drop in H. apply H. rewrite length_take_le; [done|]. rewrite length_drop. lia.
Qed.

Lemma write_range_oob b r xs :
  r ≤ length b < r + length xs →
  Block.write_range b r xs = Fault (oob_write (N.of_nat (length b))).
Proof.
  revert b r. induction xs as [|x xs IH]; intros b r [Hr Hlt]; simpl in *;
    [lia|].
  destruct (decide (r = length b)) as [->|Hne].
  - by rewrite write_oob.
  - rewrite write_Ok by lia. simpl.
    rewrite IH; rewrite length_insert; [done | lia].
Qed.

Lemma write_range_length b r xs b' :
  Block.write_range b r xs = Ok b' → length b' = length b.
Proof.
  revert b r. induction xs as [|x xs IH]; intros b r; simpl.
  - by intros [= ->].
  - unfold Block.write. case_decide; simpl; [|done].
    intros Hw. apply IH in Hw. by rewrite length_insert in Hw.
Qed.

Lemma copy_into_Ok src n dst :
  n ≤ length src → n ≤ length dst →
  Block.copy_into src n dst = Ok (take n src ++ drop n dst).
Proof.
  intros Hs Hd. unfold Block.copy_into.
  rewrite read_range_Ok by lia. simpl. rewrite drop_0.
  rewrite write_range_Ok by (rewrite length_take; lia).
  simpl. by rewrite length_take_le by lia.
Qed.

Lemma copy_into_length src n dst dst' :
  Block.copy_into src n dst = Ok dst' → length dst' = length dst.
Proof.
  unfold Block.copy_into. intros (xs & _ & Hw)%bind_Ok.
  by eapply write_range_length.
Qed.
End block_facts.

(** ** [size_t] arithmetic that does not wrap *)

Section size_facts.
Local Open Scope N_scope.

Lemma size_add_small a b : a + b < 2 ^ 64 → SizeT.add a b = a + b.
Proof. intros. unfold SizeT.add, SizeT.modulus. by apply N.mod_small. Qed.

Lemma size_mul_small a b : a * b < 2 ^ 64 → SizeT.mul a b = a * b.
Proof. intros. unfold SizeT.mul, SizeT.modulus. by apply N.mod_small. Qed.

Lemma size_of_Z_small z : (0 ≤ z < 2 ^ 64)%Z → SizeT.of_Z z = Z.to_N z.
Proof.
  intros. unfold SizeT.of_Z, SizeT.modulus.
  by rewrite Z.mod_small by (simpl; lia).
Qed.

Lemma size_sub_small a b : b ≤ a → a < 2 ^ 64 → SizeT.sub a b = a - b.
Proof.
  intros. unfold SizeT.sub. rewrite size_of_Z_small by lia. lia.
Qed.

Lemma max_len_lt : Block.max_len < 2 ^ 64.
Proof. done. Qed.
End size_facts.

(** ** [ArrayPtr]: allocation, [Reserve], the zero-fill loop *)

Section array_facts.
Context {T : Type} `{!ElemType T}.
Implicit Types (a : ArrayPtr.t T) (b dst : list T) (init x : T).
Local Open Scope N_scope.

Lemma new_array_Ok init n :
  n ≤ Block.max_len →
  Block.new_array true init n = Some (replicate (N.to_nat n) init).
Proof.
  intros. unfold Block.new_array. simpl.
  by rewrite (proj2 (N.leb_le _ _)).
Qed.

Lemma new_array_false init n : Block.new_array false init n = None.
Proof. done. Qed.

Lemma new_array_too_long heap_ok init n :
  Block.max_len < n → Block.new_array heap_ok init n = None.
Proof.
  intros. unfold Block.new_array.
  rewrite (proj2 (N.leb_gt _ _)) by done. by rewrite andb_false_r.
Qed.

Lemma new_array_Some heap_ok init n m :
  Block.new_array heap_ok init n = Some m →
  m = replicate (N.to_nat n) init ∧ n ≤ Block.max_len.
Proof.
  unfold Block.new_array. destruct heap_ok; simpl; [|done].
  destruct (N.leb_spec n Block.max_len); [|done]. by intros [= <-].
Qed.

Lemma set_Ok a b i x :
  ArrayPtr.memory_ a = Some b → (N.to_nat i < length b)%nat →
  ArrayPtr.set i x a
  = Ok (ArrayPtr.mk (Some (<[N.to_nat i := x]> b))
          (ArrayPtr.size_ a) (ArrayPtr.capacity_ a)).
Proof.
  intros Hm Hi. unfold ArrayPtr.set. rewrite Hm, write_Ok by done. done.
Qed.

Lemma Reserve_enough heap_ok n a :
  n ≤ ArrayPtr.capacity_ a → ArrayPtr.Reserve heap_ok n a = Ok a.
Proof.
  intros. unfold ArrayPtr.Reserve, ArrayPtr.GetCapacity.
  by rewrite (proj2 (N.leb_le _ _)).
Qed.

Lemma Reserve_refused heap_ok n a :
  Block.new_array heap_ok value_init n = None →
  ArrayPtr.Reserve heap_ok n a = Ok a.
Proof.
  intros Hn. unfold ArrayPtr.Reserve. rewrite Hn. by case_match.
Qed.

Lemma copy_out_Ok a dst :
  wf a → (N.to_nat (ArrayPtr.size_ a) ≤ length dst)%nat →
  ArrayPtr.copy_out a dst
  = Ok (take (N.to_nat (ArrayPtr.size_ a)) (block a)
        ++ drop (N.to_nat (ArrayPtr.size_ a)) dst).
Proof.
  intros (Hlen & Hsz & _) Hd. unfold ArrayPtr.copy_out, block in *.
  destruct (ArrayPtr.memory_ a) as [b|]; simpl in *.
  - apply copy_into_Ok; lia.
  - replace (ArrayPtr.size_ a) with 0 by lia. done.
Qed.

Lemma Reserve_grow n a :
  wf a → ArrayPtr.capacity_ a < n → n ≤ Block.max_len →
  ArrayPtr.Reserve true n a
  = Ok (ArrayPtr.mk
          (Some (take (N.to_nat (ArrayPtr.size_ a)) (block a)
                 ++ replicate (N.to_nat (n - ArrayPtr.size_ a)) value_init))
          (ArrayPtr.size_ a) n).
Proof.
  intros Hwf Hlt Hmax. unfold ArrayPtr.Reserve, ArrayPtr.GetCapacity.
  rewrite (proj2 (N.leb_gt _ _)) by done.
  rewrite new_array_Ok by done.
  pose proof Hwf as (_ & Hsz & _).
  rewrite copy_out_Ok by (try rewrite length_replicate; done || lia).
  simpl. rewrite drop_replicate. do 5 f_equal. lia.
Qed.

Lemma zero_fill_Ok n i a b :
  ArrayPtr.memory_ a = Some b → (N.to_nat i + n ≤ length b)%nat →
  ArrayPtr.zero_fill n i a
  = Ok (ArrayPtr.mk
          (Some (take (N.to_nat i) b ++ replicate n from_zero
                 ++ drop (N.to_nat i + n) b))
          (ArrayPtr.size_ a) (ArrayPtr.capacity_ a)).
Proof.
  revert i a b. induction n as [|n IH]; intros i a b Hm Hle; simpl.
  - rewrite Nat.add_0_r, take_drop. destruct a; simpl in *; by subst.
  - rewrite (set_Ok _ b) by (done || lia). simpl.
    rewrite (IH _ _ (<[N.to_nat i:=from_zero]> b))
      by (done || rewrite length_insert; lia).
    simpl. do 3 f_equal.
    rewrite N2Nat.inj_succ.
    rewrite take_insert_lt, drop_insert_lt by lia.
    destruct (lookup_lt_is_Some_2 b (N.to_nat i)) as [y Hy]; [lia|].
    rewrite (take_S_r _ _ _ Hy), insert_app_r_alt by (rewrite length_take; lia).
    rewrite length_take_le, Nat.sub_diag by lia. simpl.
    rewrite <- (assoc_L (++)). simpl. by rewrite Nat.add_succ_r.
Qed.
End array_facts.

(** ** [ArrayPtr::Resize] *)

Section resize_facts.
Context {T : Type} `{!ElemType T}.
Implicit Types (a : ArrayPtr.t T) (b dst : list T) (init x : T).
Local Open Scope N_scope.

Lemma wf_memory a :
  wf a → 0 < ArrayPtr.capacity_ a → ArrayPtr.memory_ a = Some (block a).
Proof.
  intros (Hlen & _) Hpos. unfold block in *.
  destruct (ArrayPtr.memory_ a); simpl in *; [done | lia].
Qed.

Lemma Resize_shrink heap_ok n a :
  wf a → n ≤ ArrayPtr.size_ a →
  ArrayPtr.Resize heap_ok n a = Ok (ArrayPtr.SetSize n a).
Proof.
  intros (_ & Hsz & _) Hn. unfold ArrayPtr.Resize, ArrayPtr.GetSize.
  rewrite Reserve_enough by lia. simpl.
  replace (N.to_nat (n - ArrayPtr.size_ a)) with 0%nat by lia.
  by destruct is_arithmetic.
Qed.

Lemma Resize_grow n a :
  wf a → ArrayPtr.capacity_ a < n → n ≤ Block.max_len →
  ArrayPtr.Resize true n a
  = Ok (ArrayPtr.mk
          (Some (take (N.to_nat (ArrayPtr.size_ a)) (block a)
                 ++ replicate (N.to_nat (n - ArrayPtr.size_ a)) fill_value))
          n n).
Proof.
  intros Hwf Hlt Hmax. pose proof Hwf as (Hlen & Hsz & _).
  unfold ArrayPtr.Resize, ArrayPtr.GetSize, fill_value.
  rewrite Reserve_grow by done. simpl.
  destruct is_arithmetic; [|done].
  erewrite zero_fill_Ok; [|done|].
  - simpl. unfold ArrayPtr.SetSize. simpl. do 2 f_equal.
    rewrite take_app_le, take_take, Nat.min_id by (rewrite length_take; lia).
    f_equal. rewrite drop_ge, app_nil_r; [done|].
    rewrite length_app, length_take, length_replicate. lia.
  - rewrite length_app, length_take, length_replicate. lia.
Qed.

Lemma Resize_within heap_ok n a :
  wf a → ArrayPtr.size_ a < n → n ≤ ArrayPtr.capacity_ a →
  ArrayPtr.Resize heap_ok n a
  = Ok (ArrayPtr.mk
          (Some (if is_arithmetic
                 then take (N.to_nat (ArrayPtr.size_ a)) (block a)
                      ++ replicate (N.to_nat (n - ArrayPtr.size_ a)) from_zero
                      ++ drop (N.to_nat n) (block a)
                 else block a))
          n (ArrayPtr.capacity_ a)).
Proof.
  intros Hwf Hlt Hle. pose proof Hwf as (Hlen & Hsz & _).
  assert (ArrayPtr.memory_ a = Some (block a)) as Hm
    by (apply wf_memory; [done | lia]).
  unfold ArrayPtr.Resize, ArrayPtr.GetSize.
  rewrite Reserve_enough by done. simpl.
  destruct is_arithmetic.
  - rewrite (zero_fill_Ok _ _ _ (block a)) by (done || lia).
    simpl. unfold ArrayPtr.SetSize. simpl.
    by replace (N.to_nat (ArrayPtr.size_ a)
                + N.to_nat (n - ArrayPtr.size_ a))%nat
      with (N.to_nat n) by lia.
  - simpl. unfold ArrayPtr.SetSize. by rewrite Hm.
Qed.
End resize_facts.

(** ** [GrowIfNeed] and [PushBack] *)

Section push_facts.
Context {T : Type} `{!ElemType T}.
Implicit Types (a : ArrayPtr.t T) (b dst : list T) (init x : T)
  (this : SimpleVector.t T).
Local Open Scope N_scope.

Lemma take_insert_snoc b (i : nat) x :
  (i < length b)%nat → take (S i) (<[i := x]> b) = take i b ++ [x].
Proof.
  intros Hi.
  rewrite (take_S_r _ _ x) by (by apply list_lookup_insert_eq).
  by rewrite take_insert_ge.
Qed.

(** what [PushBack] leaves in a buffer whose block has room for one more *)
Lemma push_tail heap_ok x this this1 :
  SimpleVector.GrowIfNeed heap_ok this = Ok this1 →
  wf (SimpleVector.array_ this1) →
  SimpleVector.GetSize this < SimpleVector.GetCapacity this1 →
  take (N.to_nat (SimpleVector.GetSize this))
    (block (SimpleVector.array_ this1)) = SimpleVector.elements this →
  ∃ this',
    SimpleVector.PushBack heap_ok x this = Ok this'
    ∧ wf (SimpleVector.array_ this')
    ∧ SimpleVector.elements this' = SimpleVector.elements this ++ [x]
    ∧ SimpleVector.GetSize this' = SimpleVector.GetSize this + 1
    ∧ SimpleVector.GetCapacity this' = SimpleVector.GetCapacity this1.
Proof.
  intros Hg Hwf Hlt Hel. pose proof Hwf as (Hlen & Hsz & Hmax).
  unfold SimpleVector.PushBack. rewrite Hg. simpl.
  unfold SimpleVector.GetSize, SimpleVector.GetCapacity,
    ArrayPtr.GetSize, ArrayPtr.GetCapacity in *.
  pose proof max_len_lt.
  rewrite size_add_small by lia.
  erewrite set_Ok; [| simpl; apply wf_memory; [done | lia] | lia].
  simpl. eexists. split; [done|]. unfold ArrayPtr.GetSize.
  split_and!; simpl.
  - unfold wf, block. simpl. rewrite length_insert. fold (block (SimpleVector.array_ this1)).
    split_and!; lia.
  - unfold SimpleVector.elements at 1. simpl.
    unfold SimpleVector.GetSize, ArrayPtr.GetSize. simpl.
    replace (N.to_nat (ArrayPtr.size_ (SimpleVector.array_ this) + 1))
      with (S (N.to_nat (ArrayPtr.size_ (SimpleVector.array_ this)))) by lia.
    rewrite take_insert_snoc by lia. by rewrite Hel.
  - done.
  - done.
Qed.
End push_facts.

Section grow_facts.
Context {T : Type} `{!ElemType T}.
Implicit Types (a : ArrayPtr.t T) (b dst : list T) (init x : T)
  (this : SimpleVector.t T).
Local Open Scope N_scope.

Lemma elements_block this :
  SimpleVector.elements this
  = take (N.to_nat (SimpleVector.GetSize this))
      (block (SimpleVector.array_ this)).
Proof.
  unfold SimpleVector.elements, block.
  destruct (ArrayPtr.memory_ _); simpl; [done|]. by rewrite take_nil.
Qed.

Lemma GrowIfNeed_spec heap_ok this :
  wf (SimpleVector.array_ this) →
  (SimpleVector.GetSize this = SimpleVector.GetCapacity this →
   heap_ok = true ∧ 2 * SimpleVector.GetCapacity this ≤ Block.max_len) →
  ∃ this1,
    SimpleVector.GrowIfNeed heap_ok this = Ok this1
    ∧ wf (SimpleVector.array_ this1)
    ∧ SimpleVector.GetSize this < SimpleVector.GetCapacity this1
    ∧ take (N.to_nat (SimpleVector.GetSize this))
        (block (SimpleVector.array_ this1)) = SimpleVector.elements this
    ∧ SimpleVector.GetCapacity this1 = grown this.
Proof.
  intros Hwf Hheap. pose proof Hwf as (Hlen & Hsz & Hmax).
  rewrite elements_block.
  unfold SimpleVector.GrowIfNeed, SimpleVector.Resize, grown.
  unfold SimpleVector.GetSize, SimpleVector.GetCapacity,
    ArrayPtr.GetSize, ArrayPtr.GetCapacity in *.
  destruct this as [a]. simpl in *.
  destruct (N.eqb_spec (ArrayPtr.size_ a) 0) as [Hz|Hnz].
  - (* current_size == 0 *)
    destruct (N.eqb_spec (ArrayPtr.capacity_ a) 0) as [Hc|Hc].
    + destruct Hheap as [-> _]; [lia|].
      rewrite Resize_grow by (done || lia || (by vm_compute)).
      simpl. eexists. split; [done|]. rewrite Hz, Hc. simpl.
      split_and!; done.
    + rewrite Resize_within by (done || lia). simpl.
      eexists. split; [done|]. simpl. rewrite Hz. simpl.
      rewrite (proj2 (N.ltb_lt _ _)) by lia.
      split_and!; try done; try lia.
      unfold wf, block. simpl. split_and!; try lia.
      destruct is_arithmetic; [|done].
      simpl. rewrite length_drop.
      change (block a) with (default [] (ArrayPtr.memory_ a)) in Hlen. lia.
  - destruct (N.leb_spec (ArrayPtr.capacity_ a) (ArrayPtr.size_ a)) as [Hfull|Hroom].
    + (* full *)
      destruct Hheap as [-> Hmax2]; [lia|].
      pose proof max_len_lt.
      rewrite size_mul_small by lia.
      rewrite Resize_grow by (done || lia). simpl.
      eexists. split; [done|]. simpl.
      rewrite (proj2 (N.ltb_ge _ _)) by lia.
      rewrite (proj2 (N.eqb_neq _ _)) by lia.
      split_and!; try lia.
      * unfold wf, block in *. simpl in *.
        rewrite length_app, length_take, length_replicate.
        split_and!; lia.
      * unfold block in *. simpl in *.
        rewrite take_app_le by (rewrite length_take; lia).
        by rewrite take_take, Nat.min_id.
    + eexists. split; [done|]. simpl.
      rewrite (proj2 (N.ltb_lt _ _)) by lia. done.
Qed.

Lemma PushBack_spec heap_ok x this :
  wf (SimpleVector.array_ this) →
  (SimpleVector.GetSize this = SimpleVector.GetCapacity this →
   heap_ok = true ∧ 2 * SimpleVector.GetCapacity this ≤ Block.max_len) →
  ∃ this',
    SimpleVector.PushBack heap_ok x this = Ok this'
    ∧ wf (SimpleVector.array_ this')
    ∧ SimpleVector.elements this' = SimpleVector.elements this ++ [x]
    ∧ SimpleVector.GetSize this' = SimpleVector.GetSize this + 1
    ∧ SimpleVector.GetCapacity this' = grown this.
Proof.
  intros Hwf Hheap.
  destruct (GrowIfNeed_spec heap_ok this Hwf Hheap)
    as (this1 & Hg & Hwf1 & Hlt & Hel & Hcap).
  destruct (push_tail heap_ok x this this1 Hg Hwf1 Hlt Hel)
    as (this' & ? & ? & ? & ? & ?).
  exists this'. split_and!; try done. congruence.
Qed.
End grow_facts.

(** ** Pointer and capacity under every member function *)

Section evolution.
Context {T : Type} `{!ElemType T}.
Implicit Types (a : ArrayPtr.t T) (b dst : list T) (init x : T)
  (this : SimpleVector.t T).
Local Open Scope N_scope.

Lemma evolves_refl a : evolves a a.
Proof. split; [lia | done]. Qed.

Lemma evolves_trans a1 a2 a3 : evolves a1 a2 → evolves a2 a3 → evolves a1 a3.
Proof.
  intros [H1 H1'] [H2 H2']. split; [lia|].
  intros Hn. destruct (H2' Hn) as [Hn2 ?]. destruct (H1' Hn2). split; [done | lia].
Qed.

Lemma evolves_null a a' :
  evolves a a' → null_only_if_no_capacity a → null_only_if_no_capacity a'.
Proof.
  intros [_ H] Hi Hn. destruct (H Hn) as [Hn0 ->]. by apply Hi.
Qed.

Lemma SetSize_evolves n a : evolves a (ArrayPtr.SetSize n a).
Proof. split; simpl; [lia | done]. Qed.

Lemma set_evolves i x a a' : ArrayPtr.set i x a = Ok a' → evolves a a'.
Proof.
  unfold ArrayPtr.set. destruct (ArrayPtr.memory_ a) eqn:Hm; [|done].
  intros H. inv_Ok. split; simpl; [lia | done].
Qed.

Lemma zero_fill_evolves n i a a' :
  ArrayPtr.zero_fill n i a = Ok a' → evolves a a'.
Proof.
  revert i a. induction n as [|n IH]; intros i a H; simpl in H; inv_Ok.
  - apply evolves_refl.
  - eapply evolves_trans; [by eapply set_evolves | by eapply IH].
Qed.

Lemma fill_evolves n i x a a' :
  SimpleVector.fill n i x a = Ok a' → evolves a a'.
Proof.
  revert i a. induction n as [|n IH]; intros i a H; simpl in H; inv_Ok.
  - apply evolves_refl.
  - eapply evolves_trans; [by eapply set_evolves | by eapply IH].
Qed.

Lemma assign_from_evolves i (init : list T) a a' :
  SimpleVector.assign_from i init a = Ok a' → evolves a a'.
Proof.
  revert i a. induction init as [|v init IH]; intros i a H; simpl in H; inv_Ok.
  - apply evolves_refl.
  - eapply evolves_trans; [by eapply set_evolves | by eapply IH].
Qed.

Lemma Reserve_evolves heap_ok n a a' :
  ArrayPtr.Reserve heap_ok n a = Ok a' → evolves a a'.
Proof.
  unfold ArrayPtr.Reserve, ArrayPtr.GetCapacity.
  destruct (N.leb_spec n (ArrayPtr.capacity_ a)).
  - intros; inv_Ok. apply evolves_refl.
  - destruct (Block.new_array _ _ _); intros; inv_Ok.
    + split; simpl; [lia | done].
    + apply evolves_refl.
Qed.

Lemma Resize_evolves heap_ok n a a' :
  ArrayPtr.Resize heap_ok n a = Ok a' → evolves a a'.
Proof.
  unfold ArrayPtr.Resize. intros H. inv_Ok.
  eapply evolves_trans; [by eapply Reserve_evolves|].
  eapply evolves_trans; [|apply SetSize_evolves].
  destruct is_arithmetic; inv_Ok.
  - by eapply zero_fill_evolves.
  - apply evolves_refl.
Qed.

Lemma GrowIfNeed_evolves heap_ok this this' :
  SimpleVector.GrowIfNeed heap_ok this = Ok this' →
  evolves (SimpleVector.array_ this) (SimpleVector.array_ this').
Proof.
  unfold SimpleVector.GrowIfNeed, SimpleVector.Resize.
  repeat case_match; intros; inv_Ok; simpl;
    (by eapply Resize_evolves) || apply evolves_refl.
Qed.

Lemma PushBack_evolves heap_ok x this this' :
  SimpleVector.PushBack heap_ok x this = Ok this' →
  evolves (SimpleVector.array_ this) (SimpleVector.array_ this').
Proof.
  unfold SimpleVector.PushBack. intros H. inv_Ok. simpl.
  eapply evolves_trans; [by eapply GrowIfNeed_evolves|].
  eapply evolves_trans; [apply SetSize_evolves | by eapply set_evolves].
Qed.

Lemma std_copy_evolves move first last (to : ptr) this this' :
  SimpleVector.std_copy move first last to this = Ok this' →
  evolves (SimpleVector.array_ this) (SimpleVector.array_ this').
Proof.
  unfold SimpleVector.std_copy.
  repeat case_match; intros; inv_Ok; simpl; try apply evolves_refl.
  split; simpl; [lia | done].
Qed.

Lemma leave_moved_evolves move value x a a' :
  SimpleVector.leave_moved move value x a = Ok a' → evolves a a'.
Proof.
  unfold SimpleVector.leave_moved. destruct value as [y|k].
  - intros [= <-]. apply evolves_refl.
  - case_match; [by apply set_evolves|]. intros [= <-]. apply evolves_refl.
Qed.

Lemma Insert_gen_evolves move heap_ok pos value this it this' :
  SimpleVector.Insert_gen move heap_ok pos value this = Ok (it, this') →
  evolves (SimpleVector.array_ this) (SimpleVector.array_ this').
Proof.
  unfold SimpleVector.Insert_gen. intros H.
  apply bind_Ok in H as (p0 & _ & H).
  apply bind_Ok in H as (index & _ & H).
  apply bind_Ok in H as (this1 & Hg & H). simpl in H.
  apply bind_Ok in H as (new_pos & _ & H).
  apply bind_Ok in H as (e & _ & H).
  apply bind_Ok in H as (b2 & _ & H).
  apply bind_Ok in H as (dst & _ & H).
  apply bind_Ok in H as (this3 & Hcopy & H).
  apply bind_Ok in H as (x & _ & H).
  apply bind_Ok in H as (a4 & Hset & H).
  apply bind_Ok in H as (a5 & Hleft & [= _ <-]). simpl.
  eapply evolves_trans; [by eapply GrowIfNeed_evolves|].
  eapply evolves_trans; [apply SetSize_evolves|].
  apply std_copy_evolves in Hcopy. simpl in Hcopy.
  eapply evolves_trans; [exact Hcopy|].
  eapply evolves_trans; [by eapply set_evolves|].
  by eapply leave_moved_evolves.
Qed.

Lemma Erase_evolves pos this it this' :
  SimpleVector.Erase pos this = Ok (it, this') →
  evolves (SimpleVector.array_ this) (SimpleVector.array_ this').
Proof.
  unfold SimpleVector.Erase. intros H. inv_Ok.
  match goal with H : SimpleVector.std_copy _ _ _ _ _ = _ |- _ =>
    apply std_copy_evolves in H end.
  case_match; inv_Ok; simpl;
    (eapply evolves_trans; [done | apply SetSize_evolves]).
Qed.

Lemma PopBack_evolves this :
  evolves (SimpleVector.array_ this)
    (SimpleVector.array_ (SimpleVector.PopBack this)).
Proof.
  unfold SimpleVector.PopBack. case_match; simpl.
  - apply SetSize_evolves.
  - apply evolves_refl.
Qed.
End evolution.

(** ** Runs keep null pointers with capacity 0 *)

Section store_facts.
Context {T : Type} `{!ElemType T}.
Implicit Types (a : ArrayPtr.t T) (σ : gmap nat (ArrayPtr.t T)).
Local Open Scope N_scope.

Lemma null_ok_flat m s c :
  null_only_if_no_capacity (ArrayPtr.mk (T:=T) (Some m) s c).
Proof. done. Qed.

Lemma null_ok_empty : null_only_if_no_capacity (ArrayPtr.empty (T:=T)).
Proof. done. Qed.

Lemma null_ok_same a :
  null_only_if_no_capacity a →
  null_only_if_no_capacity
    (ArrayPtr.mk (ArrayPtr.memory_ a) (ArrayPtr.size_ a) (ArrayPtr.capacity_ a)).
Proof. done. Qed.

Lemma copy_ctor_null_ok heap_ok a a' :
  ArrayPtr.copy_ctor heap_ok a = Ok a' → null_only_if_no_capacity a'.
Proof.
  unfold ArrayPtr.copy_ctor. case_match; intros; inv_Ok. done.
Qed.

Lemma construct_null_ok v r σ σ' :
  (∀ a, r = Ok a → null_only_if_no_capacity a) →
  null_ok σ → Program.construct v r σ = Ok σ' → null_ok σ'.
Proof.
  unfold Program.construct. intros Hr Hσ. case_match; intros; inv_Ok.
  apply map_Forall_insert_2; [by apply Hr | done].
Qed.

Lemma method_null_ok v f σ σ' :
  (∀ this this', f this = Ok this' →
     evolves (SimpleVector.array_ this) (SimpleVector.array_ this')) →
  null_ok σ → Program.method v f σ = Ok σ' → null_ok σ'.
Proof.
  unfold Program.method. intros Hf Hσ. case_match eqn:Hv; intros; inv_Ok.
  apply map_Forall_insert_2; [|done].
  eapply evolves_null; [by eapply Hf|]. simpl. by eapply Hσ.
Qed.

Lemma move_construct_null_ok v other σ σ' :
  null_ok σ → Program.move_construct v other σ = Ok σ' → null_ok σ'.
Proof.
  unfold Program.move_construct. intros Hσ.
  destruct (σ !! v); [done|]. destruct (σ !! other) as [o|] eqn:Ho; [|done].
  simpl. intros; inv_Ok.
  apply map_Forall_insert_2; [apply null_ok_same; by eapply Hσ|].
  by apply map_Forall_insert_2.
Qed.

Lemma move_assign_null_ok this rhs σ σ' :
  null_ok σ → Program.move_assign this rhs σ = Ok σ' → null_ok σ'.
Proof.
  unfold Program.move_assign. intros Hσ.
  destruct (σ !! this); [|done]. destruct (σ !! rhs) as [r|] eqn:Hr; [|done].
  case_decide; simpl; intros; inv_Ok; [done|].
  apply map_Forall_insert_2; [apply null_ok_same; by eapply Hσ|].
  by apply map_Forall_insert_2.
Qed.

Lemma exec_null_ok heap_ok c σ σ' :
  null_ok σ → Program.exec heap_ok c σ = Ok σ' → null_ok σ'.
Proof.
  intros Hσ. destruct c; simpl.
  - apply construct_null_ok; [|done]. intros; inv_Ok. apply null_ok_empty.
  - apply construct_null_ok; [|done]. intros a Ha.
    unfold SimpleVector.ctor_size, ArrayPtr.ctor_size in Ha. inv_Ok. simpl.
    case_match; inv_Ok; [|done].
    eapply evolves_null; [by eapply Resize_evolves | done].
  - apply construct_null_ok; [|done]. intros a Ha.
    unfold SimpleVector.ctor_fill, ArrayPtr.ctor_size in Ha. inv_Ok. simpl.
    eapply evolves_null; [by eapply fill_evolves|].
    case_match; inv_Ok; [|done].
    eapply evolves_null; [by eapply Resize_evolves | done].
  - apply construct_null_ok; [|done]. intros a Ha.
    unfold SimpleVector.ctor_list, ArrayPtr.ctor_size in Ha. inv_Ok. simpl.
    eapply evolves_null; [by eapply assign_from_evolves|].
    case_match; inv_Ok; [|done].
    eapply evolves_null; [by eapply Resize_evolves | done].
  - apply construct_null_ok; [|done]. intros a Ha.
    unfold SimpleVector.ctor_reserve, ArrayPtr.ctor_size_capacity in Ha.
    inv_Ok. simpl.
    eapply evolves_null; [apply SetSize_evolves|].
    eapply evolves_null; [by eapply Resize_evolves | done].
  - unfold Program.copy_construct. repeat case_match; intros; inv_Ok.
    apply map_Forall_insert_2; [by eapply copy_ctor_null_ok | done].
  - by apply move_construct_null_ok.
  - unfold Program.copy_assign, ArrayPtr.copy_assign.
    repeat case_match; intros; inv_Ok; [done|].
    apply map_Forall_insert_2; [|done].
    apply null_ok_same. by eapply copy_ctor_null_ok.
  - by apply move_assign_null_ok.
  - unfold Program.swap. intros; inv_Ok.
    apply map_Forall_delete.
    eapply move_assign_null_ok; [|done].
    eapply move_assign_null_ok; [|done].
    by eapply move_construct_null_ok.
  - apply method_null_ok; [|done]. intros ??. apply PushBack_evolves.
  - apply method_null_ok; [|done]. intros ?? H'. inv_Ok.
    destruct r. by eapply Insert_gen_evolves.
  - apply method_null_ok; [|done]. intros ?? H'. inv_Ok.
    destruct r. by eapply Insert_gen_evolves.
  - apply method_null_ok; [|done]. intros ?? H'. inv_Ok.
    apply PopBack_evolves.
  - apply method_null_ok; [|done]. intros ?? H'. inv_Ok.
    destruct r. by eapply Erase_evolves.
  - apply method_null_ok; [|done]. intros ?? H'. inv_Ok.
    apply SetSize_evolves.
  - apply method_null_ok; [|done]. intros ?? H'.
    unfold SimpleVector.Resize in H'. inv_Ok. by eapply Resize_evolves.
  - apply method_null_ok; [|done]. intros ?? H'.
    unfold SimpleVector.Reserve in H'. inv_Ok. by eapply Reserve_evolves.
  - intros; inv_Ok. by apply map_Forall_delete.
Qed.

Lemma run_null_ok p σ σ' :
  null_ok σ → Program.run p σ = Ok σ' → null_ok σ'.
Proof.
  revert σ. induction p as [|[heap_ok c] p IH]; intros σ Hσ; simpl.
  - by intros [= <-].
  - destruct (Program.exec heap_ok c σ) eqn:He; [| by apply IH | done].
    apply IH. by eapply exec_null_ok.
Qed.

Lemma reachable_null_ok a :
  Program.reachable a → null_only_if_no_capacity a.
Proof.
  intros (p & σ & v & Hrun & Hv).
  eapply (run_null_ok p ∅ σ); [apply map_Forall_empty | done | done].
Qed.
End store_facts.

(** ** A shift that leaves the block *)

Section shift_facts.
Context {T : Type} `{!ElemType T}.
Implicit Types (a : ArrayPtr.t T) (b dst : list T) (init x : T)
  (this : SimpleVector.t T).

Lemma read_range_length b first n xs :
  Block.read_range b first n = Ok xs → length xs = n.
Proof.
  revert first xs. induction n as [|n IH]; intros first xs H; simpl in H;
    inv_Ok; [done|].
  simpl. f_equal. by eapply IH.
Qed.

Lemma memmove_oob b first n r :
  first + n ≤ length b → r ≤ length b < r + n →
  Block.memmove b first n r = Fault (oob_write (N.of_nat (length b))).
Proof.
  intros Hr Hw. unfold Block.memmove.
  rewrite read_range_Ok by done. simpl.
  apply write_range_oob. rewrite length_take, length_drop. lia.
Qed.

Lemma copy_loop_oob move b first n r :
  first + n ≤ length b → first < r → r ≤ length b < r + n →
  Block.copy_loop move b first n r = Fault (oob_write (N.of_nat (length b))).
Proof.
  revert b first r. induction n as [|n IH]; intros b first r Hr Hlt Hw;
    simpl; [lia|].
  destruct (lookup_lt_is_Some_2 b first) as [y Hy]; [lia|].
  rewrite (read_Ok _ _ _ Hy). simpl.
  destruct (decide (r = length b)) as [->|Hne].
  - by rewrite write_oob.
  - rewrite write_Ok by lia. simpl.
    destruct move; simpl.
    + rewrite write_Ok by (rewrite length_insert; lia). simpl.
      rewrite IH; rewrite ?length_insert; [done | lia..].
    + rewrite IH; rewrite ?length_insert; [done | lia..].
Qed.

Lemma copy_within_oob move b first n r :
  first + n ≤ length b → first < r → r ≤ length b < r + n →
  Block.copy_within move b first n r
  = Fault (oob_write (N.of_nat (length b))).
Proof.
  intros. unfold Block.copy_within. destruct trivially_copyable.
  - by apply memmove_oob.
  - by apply copy_loop_oob.
Qed.
End shift_facts.

Section insert_facts.
Context {T : Type} `{!ElemType T}.
Implicit Types (a : ArrayPtr.t T) (b dst : list T) (init x : T)
  (this : SimpleVector.t T).
Local Open Scope N_scope.

(** the iterator arithmetic at the head of [Insert] and [Erase] *)
Lemma distance_position i this :
  wf (SimpleVector.array_ this) → i ≤ SimpleVector.GetSize this →
  SimpleVector.cbegin this ≫= (λ p, std_distance p (position i this))
  = Ok (if SimpleVector.IsEmpty this then 0%Z else Z.of_N i).
Proof.
  intros Hwf Hi. pose proof Hwf as (Hlen & Hsz & _).
  unfold SimpleVector.cbegin, position, SimpleVector.IsEmpty,
    SimpleVector.GetSize, ArrayPtr.GetSize in *.
  destruct (N.eqb_spec (ArrayPtr.size_ (SimpleVector.array_ this)) 0);
    [done|].
  unfold SimpleVector.addr_of. rewrite wf_memory by (done || lia).
  simpl. f_equal. lia.
Qed.

End insert_facts.

(** ** Doubling *)

Section doubling.
Context {T : Type} `{!ElemType T}.
Implicit Types (a : ArrayPtr.t T) (b dst : list T) (init x : T)
  (this : SimpleVector.t T).
Local Open Scope N_scope.

Lemma doubled_capacity_ge n : n ≤ doubled_capacity n.
Proof.
  unfold doubled_capacity. destruct (N.eqb_spec n 0); [lia|].
  destruct (decide (n = 1)) as [->|]; [done|].
  apply N.log2_up_spec. lia.
Qed.

Lemma doubled_capacity_succ n :
  doubled_capacity (n + 1)
  = if n <? doubled_capacity n then doubled_capacity n
    else if doubled_capacity n =? 0 then 1
         else 2 * doubled_capacity n.
Proof.
  pose proof (doubled_capacity_ge n) as Hge.
  unfold doubled_capacity in *.
  rewrite (proj2 (N.eqb_neq (n + 1) 0)) by lia.
  destruct (N.eqb_spec n 0) as [Hn0|Hn]; [by rewrite Hn0|].
  assert (2 ^ N.log2_up n ≠ 0) by (apply N.pow_nonzero; lia).
  rewrite (proj2 (N.eqb_neq (2 ^ _) 0)) by done.
  destruct (N.ltb_spec n (2 ^ N.log2_up n)) as [Hlt|Hfull].
  - f_equal. destruct (decide (n = 1)) as [->|Hn1]; [done|].
    apply N.log2_up_unique; [apply N.log2_up_pos; lia|].
    pose proof (N.log2_up_spec n). lia.
  - replace (2 * 2 ^ N.log2_up n) with (2 ^ N.succ (N.log2_up n))
      by (rewrite N.pow_succ_r'; lia).
    f_equal. apply N.log2_up_unique; [lia|].
    rewrite N.pred_succ, N.pow_succ_r'. lia.
Qed.

Lemma push_all_spec items done_ this :
  wf (SimpleVector.array_ this) →
  SimpleVector.elements this = done_ →
  SimpleVector.GetSize this = N.of_nat (length done_) →
  SimpleVector.GetCapacity this = doubled_capacity (N.of_nat (length done_)) →
  N.of_nat (length done_ + length items) ≤ 2 ^ 62 →
  ∃ this',
    push_all items this = Ok this'
    ∧ wf (SimpleVector.array_ this')
    ∧ SimpleVector.elements this' = done_ ++ items
    ∧ SimpleVector.GetSize this' = N.of_nat (length (done_ ++ items))
    ∧ SimpleVector.GetCapacity this'
      = doubled_capacity (N.of_nat (length (done_ ++ items))).
Proof.
  revert done_ this.
  induction items as [|x items IH]; intros done_ this Hwf Hel Hsz Hcap Hlen.
  - exists this. rewrite app_nil_r. done.
  - simpl in *.
    destruct (PushBack_spec true x this) as (this1 & Hp & Hwf1 & Hel1 & Hsz1 & Hcap1);
      [done | | ].
    { intros Hfull. split; [done|]. change Block.max_len with (2 ^ 63 - 1).
      assert (2 ^ 62 + 2 ^ 62 = 2 ^ 63) by done. lia. }
    rewrite Hp. simpl.
    destruct (IH (done_ ++ [x]) this1) as (this' & ? & ? & ? & ? & ?).
    + done.
    + by rewrite Hel1, Hel.
    + rewrite Hsz1, Hsz, length_app. simpl. lia.
    + rewrite Hcap1. unfold grown. rewrite Hsz, Hcap.
      rewrite length_app. simpl.
      rewrite Nat2N.inj_add. by rewrite doubled_capacity_succ.
    + rewrite length_app. simpl. lia.
    + exists this'. rewrite <- (assoc_L (++)) in *. done.
Qed.
End doubling.

(** ** The shift of [Insert] and of [Erase] *)

Section room_facts.
Context {T : Type} `{!ElemType T}.
Implicit Types (a : ArrayPtr.t T) (b dst : list T) (init x : T)
  (this : SimpleVector.t T).

Lemma memmove_Ok b first n r :
  first + n ≤ length b → r + n ≤ length b →
  Block.memmove b first n r
  = Ok (take r b ++ take n (drop first b) ++ drop (r + n) b).
Proof.
  intros Hf Hr. unfold Block.memmove.
  rewrite read_range_Ok by done. simpl.
  assert (length (take n (drop first b)) = n) as Hl
    by (rewrite length_take, length_drop; lia).
  rewrite write_range_Ok by (rewrite Hl; lia). by rewrite Hl.
Qed.

(** the block after the shift of [Insert] and the store into the hole *)
Lemma shift_right_then_store b (i sz : nat) x :
  i ≤ sz → sz + 2 ≤ length b →
  take (S sz)
    (<[i := x]> (take (S i) b ++ take (S sz - i) (drop i b)
                 ++ drop (S i + (S sz - i)) b))
  = take i (take sz b) ++ x :: drop i (take sz b).
Proof.
  intros Hi Hlen.
  destruct (lookup_lt_is_Some_2 b i) as [y Hy]; [lia|].
  rewrite (take_S_r _ _ _ Hy).
  rewrite <- (assoc_L (++)). simpl.
  rewrite insert_app_r_alt by (rewrite length_take; lia).
  rewrite length_take_le, Nat.sub_diag by lia. simpl.
  rewrite take_app_ge by (rewrite length_take; lia).
  rewrite length_take_le by lia.
  rewrite take_take. replace (i `min` sz) with i by lia. f_equal.
  replace (S sz - i) with (S (sz - i)) by lia.
  rewrite firstn_cons. f_equal.
  rewrite take_app_le by (rewrite length_take, length_drop; lia).
  rewrite take_take. replace ((sz - i) `min` S (sz - i)) with (sz - i) by lia.
  rewrite take_drop_commute. by replace (i + (sz - i)) with sz by lia.
Qed.

Lemma write_length b (i : nat) x b' :
  Block.write b i x = Ok b' → length b' = length b.
Proof.
  unfold Block.write. case_decide; [|done].
  intros [= <-]. apply length_insert.
Qed.

Lemma copy_loop_length move b first n r b' :
  Block.copy_loop move b first n r = Ok b' → length b' = length b.
Proof.
  revert b first r. induction n as [|n IH]; intros b first r H; simpl in H.
  - by injection H as ->.
  - apply bind_Ok in H as (y & _ & H).
    apply bind_Ok in H as (b1 & H1 & H).
    apply bind_Ok in H as (b2 & H2 & H).
    apply IH in H. apply write_length in H1.
    destruct move.
    + apply write_length in H2. congruence.
    + injection H2 as ->. congruence.
Qed.

(** a shift towards the start, as [Erase] makes it: the destination is the
    slot before the source *)
Lemma copy_loop_left move b r n :
  S r + n ≤ length b →
  ∃ b', Block.copy_loop move b (S r) n r = Ok b'
        ∧ take (r + n) b' = take r b ++ take n (drop (S r) b).
Proof.
  revert b r. induction n as [|n IH]; intros b r Hlen; simpl.
  - exists b. by rewrite Nat.add_0_r, app_nil_r.
  - destruct (lookup_lt_is_Some_2 b (S r)) as [y Hy]; [lia|].
    rewrite (read_Ok _ _ _ Hy). simpl.
    rewrite write_Ok by lia. simpl.
    set (b2 := if move then <[S r := moved_from y]> (<[r := y]> b)
               else <[r := y]> b).
    assert ((if move then Block.write (<[r := y]> b) (S r) (moved_from y)
             else Ok (<[r := y]> b)) = Ok b2) as ->.
    { unfold b2. destruct move; [|done].
      by rewrite write_Ok by (rewrite length_insert; lia). }
    simpl.
    assert (length b2 = length b) as Hl2
      by (unfold b2; destruct move; rewrite ?length_insert; done).
    destruct (IH b2 (S r)) as (b' & -> & Ht); [lia|].
    exists b'. split; [done|].
    replace (r + S n) with (S r + n) by lia. rewrite Ht.
    assert (take (S r) b2 = take r b ++ [y]) as ->.
    { unfold b2. destruct move.
      - rewrite take_insert_ge by lia. by apply take_insert_snoc; lia.
      - apply take_insert_snoc; lia. }
    assert (drop (S (S r)) b2 = drop (S (S r)) b) as ->.
    { unfold b2. destruct move; rewrite !drop_insert_lt by lia; done. }
    rewrite (drop_S _ _ _ Hy). simpl. by rewrite <- (assoc_L (++)).
Qed.

Lemma copy_within_left move b r n :
  S r + n ≤ length b →
  ∃ b', Block.copy_within move b (S r) n r = Ok b'
        ∧ length b' = length b
        ∧ take (r + n) b' = take r b ++ take n (drop (S r) b).
Proof.
  intros Hlen. unfold Block.copy_within. destruct trivially_copyable.
  - rewrite memmove_Ok by lia. eexists. split; [done|].
    assert (length (take n (drop (S r) b)) = n) as Hn
      by (rewrite length_take, length_drop; lia).
    split.
    + rewrite !length_app, length_take, Hn, length_drop. lia.
    + rewrite (assoc_L (++)).
      rewrite take_app_le by (rewrite length_app, length_take, Hn; lia).
      apply take_ge. rewrite length_app, length_take, Hn. lia.
  - destruct (copy_loop_left move b r n Hlen) as (b' & Hc & Ht).
    exists b'. split_and!; [done | by eapply copy_loop_length | done].
Qed.
End room_facts.

Section insert_erase.
Context {T : Type} `{!ElemType T}.
Implicit Types (a : ArrayPtr.t T) (b dst : list T) (init x : T)
  (this : SimpleVector.t T).
Local Open Scope N_scope.

(** [Insert] at a valid position, down to its shift and its store *)
Lemma Insert_gen_steps move heap_ok i value this this1 :
  wf (SimpleVector.array_ this) →
  i ≤ SimpleVector.GetSize this →
  SimpleVector.GrowIfNeed heap_ok this = Ok this1 →
  wf (SimpleVector.array_ this1) →
  SimpleVector.GetSize this < SimpleVector.GetCapacity this1 →
  SimpleVector.Insert_gen move heap_ok (position i this) value this
  = Block.copy_within move (block (SimpleVector.array_ this1))
      (N.to_nat i) (S (N.to_nat (SimpleVector.GetSize this)) - N.to_nat i)
      (S (N.to_nat i))
    ≫= λ b',
      let a3 := ArrayPtr.mk (Some b') (SimpleVector.GetSize this + 1)
                  (SimpleVector.GetCapacity this1) in
      SimpleVector.read_arg value (SimpleVector.GetCapacity this)
        (SimpleVector.mk a3)
      ≫= λ x, ArrayPtr.set i x a3
      ≫= λ a4, SimpleVector.leave_moved move value x a4
      ≫= λ a5, Ok (Slot (Z.of_N i), SimpleVector.mk a5).
Proof.
  intros Hwf Hi Hg Hwf1 Hlt.
  pose proof Hwf1 as (Hlen1 & Hsz1 & Hmax1). pose proof max_len_lt.
  unfold SimpleVector.Insert_gen.
  pose proof (distance_position i this Hwf Hi) as Hd.
  assert (i = 0 ∨ SimpleVector.IsEmpty this = false) as Hi0.
  { unfold SimpleVector.IsEmpty, SimpleVector.GetSize in *.
    destruct (N.eqb_spec (ArrayPtr.GetSize (SimpleVector.array_ this)) 0);
      [left; lia | by right]. }
  assert (SimpleVector.cbegin this ≫= (λ p, std_distance p (position i this))
          = Ok (Z.of_N i)) as Hd'.
  { rewrite Hd. destruct Hi0 as [-> | ->]; [by case_match | done]. }
  clear Hd Hi0.
  destruct (SimpleVector.cbegin this) as [b0| |]; simpl in Hd'; try done.
  simpl. rewrite Hd'. simpl. rewrite Hg. simpl.
  unfold SimpleVector.GetSize, SimpleVector.GetCapacity,
    ArrayPtr.GetSize, ArrayPtr.GetCapacity in *.
  rewrite size_add_small by lia.
  rewrite size_of_Z_small by lia. rewrite N2Z.id.
  assert (ArrayPtr.memory_ (SimpleVector.array_ this1)
          = Some (block (SimpleVector.array_ this1))) as Hm
    by (apply wf_memory; [done | lia]).
  unfold SimpleVector.addr_of at 1. simpl. rewrite Hm. simpl.
  unfold SimpleVector.end_, SimpleVector.begin, SimpleVector.IsEmpty,
    SimpleVector.addr_of, SimpleVector.GetSize, ArrayPtr.GetSize.
  simpl. rewrite (proj2 (N.eqb_neq _ _)) by lia. rewrite Hm. simpl.
  unfold SimpleVector.std_copy. simpl.
  rewrite decide_False by lia. rewrite decide_False by lia. rewrite Hm.
  rewrite decide_False by lia. rewrite decide_False by lia.
  replace (Z.to_nat (Z.of_N i)) with (N.to_nat i) by lia.
  replace (Z.to_nat (Z.of_N (ArrayPtr.size_ (SimpleVector.array_ this) + 1)
                     - Z.of_N i))
    with (S (N.to_nat (ArrayPtr.size_ (SimpleVector.array_ this)))
          - N.to_nat i)%nat by lia.
  replace (Z.to_nat (0 + (Z.of_N i + 1))) with (S (N.to_nat i)) by lia.
  destruct (Block.copy_within _ _ _ _ _); done.
Qed.

Lemma Insert_gen_overrun move heap_ok i value this :
  wf (SimpleVector.array_ this) →
  i ≤ SimpleVector.GetSize this →
  (SimpleVector.GetSize this = SimpleVector.GetCapacity this →
   heap_ok = true ∧ 2 * SimpleVector.GetCapacity this ≤ Block.max_len) →
  grown this < SimpleVector.GetSize this + 2 →
  SimpleVector.Insert_gen move heap_ok (position i this) value this
  = Fault (oob_write (SimpleVector.GetSize this + 1)).
Proof.
  intros Hwf Hi Hheap Hcap.
  destruct (GrowIfNeed_spec heap_ok this Hwf Hheap)
    as (this1 & Hg & Hwf1 & Hlt & _ & Hcap1).
  rewrite (Insert_gen_steps _ _ _ _ _ this1) by done.
  destruct Hwf1 as (Hlen1 & _).
  unfold SimpleVector.GetSize, SimpleVector.GetCapacity,
    ArrayPtr.GetSize, ArrayPtr.GetCapacity in *.
  rewrite copy_within_oob by lia. simpl. do 2 f_equal. lia.
Qed.

(** a slot of the block after the shift of [Insert] at [i] *)
Lemma shifted_lookup b (i sz k : nat) :
  (i ≤ sz)%nat → (sz + 2 ≤ length b)%nat → (k < sz)%nat →
  (take (S i) b ++ take (S sz - i) (drop i b)
   ++ drop (S i + (S sz - i)) b) !! k
  = take sz b !! (if decide (k ≤ i)%nat then k else k - 1)%nat.
Proof.
  intros Hi Hlen Hk. case_decide.
  - rewrite lookup_app_l by (rewrite length_take; lia).
    by rewrite !lookup_take_lt by lia.
  - rewrite lookup_app_r by (rewrite length_take; lia).
    rewrite length_take_le by lia.
    rewrite lookup_app_l by (rewrite length_take, length_drop; lia).
    rewrite !lookup_take_lt by lia. rewrite lookup_drop. f_equal. lia.
Qed.

(** With room for the extra slot and a [memmove] shift, [Insert] puts at
    position [i] what [value] holds after the shift: the value of an object
    outside the block, as its comment says, but the shifted slot for a
    reference to an element after the position. *)
Lemma Insert_gen_room move heap_ok i value this :
  trivially_copyable = true →
  wf (SimpleVector.array_ this) →
  i ≤ SimpleVector.GetSize this →
  (SimpleVector.GetSize this = SimpleVector.GetCapacity this →
   heap_ok = true ∧ 2 * SimpleVector.GetCapacity this ≤ Block.max_len) →
  SimpleVector.GetSize this + 2 ≤ grown this →
  stays_valid value this →
  ∃ x this',
    value_after_shift value i this = Some x
    ∧ SimpleVector.Insert_gen move heap_ok (position i this) value this
      = Ok (Slot (Z.of_N i), this')
    ∧ wf (SimpleVector.array_ this')
    ∧ SimpleVector.GetSize this' = SimpleVector.GetSize this + 1
    ∧ SimpleVector.GetCapacity this' = grown this
    ∧ SimpleVector.elements this'
      = take (N.to_nat i) (SimpleVector.elements this)
        ++ x :: drop (N.to_nat i) (SimpleVector.elements this)
    ∧ SimpleVector.deref (Slot (Z.of_N i)) this' = Ok x.
Proof.
  intros Htc Hwf Hi Hheap Hroom Hvalid.
  destruct (GrowIfNeed_spec heap_ok this Hwf Hheap)
    as (this1 & Hg & Hwf1 & Hlt & Hel & Hcap1).
  rewrite (Insert_gen_steps _ _ _ _ _ this1) by done.
  pose proof Hwf1 as (Hlen1 & _ & Hmax1).
  unfold value_after_shift.
  rewrite <- Hel, <- Hcap1 in *.
  assert (SimpleVector.GetSize this < SimpleVector.GetCapacity this →
          (SimpleVector.GetCapacity this1 =? SimpleVector.GetCapacity this)
          = true) as Hsame.
  { intros Hspare. apply N.eqb_eq. rewrite Hcap1. unfold grown.
    by rewrite (proj2 (N.ltb_lt _ _)). }
  clear Hel Hcap1.
  unfold stays_valid, SimpleVector.GetSize, SimpleVector.GetCapacity,
    ArrayPtr.GetSize, ArrayPtr.GetCapacity in *.
  set (b := block (SimpleVector.array_ this1)) in *.
  set (sz := ArrayPtr.size_ (SimpleVector.array_ this)) in *.
  unfold Block.copy_within. rewrite Htc.
  rewrite memmove_Ok by lia. simpl.
  set (b' := take (S (N.to_nat i)) b
             ++ take (S (N.to_nat sz) - N.to_nat i) (drop (N.to_nat i) b)
             ++ drop (S (N.to_nat i + (S (N.to_nat sz) - N.to_nat i))) b).
  assert (length b' = length b) as Hlen'.
  { unfold b'. rewrite !length_app, !length_take, !length_drop. lia. }
  assert (∃ x,
    match value with
    | SimpleVector.Outside x0 => Some x0
    | SimpleVector.Element k =>
        take (N.to_nat sz) b !! N.to_nat (if k <=? i then k else k - 1)
    end = Some x
    ∧ SimpleVector.read_arg value
        (ArrayPtr.capacity_ (SimpleVector.array_ this))
        (SimpleVector.mk
           (ArrayPtr.mk (Some b') (sz + 1)
              (ArrayPtr.capacity_ (SimpleVector.array_ this1)))) = Ok x)
    as (x & Hx & ->).
  { destruct value as [x0|k]; [by exists x0|].
    destruct Hvalid as [Hk Hspare].
    destruct (lookup_lt_is_Some_2 b' (N.to_nat k)) as [x Hx]; [lia|].
    exists x. split.
    - rewrite <- Hx. unfold b'.
      pose proof (shifted_lookup b (N.to_nat i) (N.to_nat sz) (N.to_nat k))
        as Hs.
      simpl in Hs. rewrite Hs by lia.
      f_equal. destruct (N.leb_spec k i); case_decide; lia.
    - unfold SimpleVector.read_arg, SimpleVector.GetCapacity,
        ArrayPtr.GetCapacity. simpl.
      rewrite (Hsame Hspare). unfold ArrayPtr.get. simpl.
      unfold Block.read. by rewrite Hx. }
  simpl.
  erewrite set_Ok; [|done|lia]. simpl.
  assert (SimpleVector.leave_moved move value x
            (ArrayPtr.mk (Some (<[N.to_nat i := x]> b')) (sz + 1)
               (ArrayPtr.capacity_ (SimpleVector.array_ this1)))
          = Ok (ArrayPtr.mk (Some (<[N.to_nat i := x]> b')) (sz + 1)
                  (ArrayPtr.capacity_ (SimpleVector.array_ this1)))) as ->.
  { unfold SimpleVector.leave_moved. destruct value; [done|].
    by rewrite Htc, andb_false_r. }
  simpl. exists x. eexists. split; [done|]. split; [done|].
  split_and!.
  - unfold wf, block. simpl. rewrite length_insert. split_and!; lia.
  - done.
  - done.
  - unfold SimpleVector.elements. simpl.
    unfold SimpleVector.GetSize, ArrayPtr.GetSize. simpl.
    replace (N.to_nat (sz + 1)) with (S (N.to_nat sz)) by lia.
    apply shift_right_then_store; lia.
  - unfold SimpleVector.deref. rewrite decide_False by lia.
    rewrite N2Z.id. unfold ArrayPtr.get. simpl.
    apply read_Ok, list_lookup_insert_eq. lia.
Qed.

Lemma SimpleVector_eta this :
  this = SimpleVector.mk
           (ArrayPtr.mk (ArrayPtr.memory_ (SimpleVector.array_ this))
              (ArrayPtr.size_ (SimpleVector.array_ this))
              (ArrayPtr.capacity_ (SimpleVector.array_ this))).
Proof. by destruct this as [[]]. Qed.

(** [Erase] at a valid position, for every element type *)
Lemma Erase_spec (j : N) this :
  wf (SimpleVector.array_ this) →
  j < SimpleVector.GetSize this →
  ∃ it this',
    SimpleVector.Erase (Slot (Z.of_N j)) this = Ok (it, this')
    ∧ wf (SimpleVector.array_ this')
    ∧ SimpleVector.GetSize this' = SimpleVector.GetSize this - 1
    ∧ SimpleVector.GetCapacity this' = SimpleVector.GetCapacity this
    ∧ SimpleVector.elements this'
      = take (N.to_nat j) (SimpleVector.elements this)
        ++ drop (S (N.to_nat j)) (SimpleVector.elements this)
    ∧ it = position j this'.
Proof.
  intros Hwf Hj. pose proof Hwf as (Hlen & Hsz & Hmax). pose proof max_len_lt.
  rewrite (elements_block this).
  unfold SimpleVector.GetSize, SimpleVector.GetCapacity,
    ArrayPtr.GetSize, ArrayPtr.GetCapacity in *.
  assert (ArrayPtr.memory_ (SimpleVector.array_ this)
          = Some (block (SimpleVector.array_ this))) as Hm
    by (apply wf_memory; [done | lia]).
  set (b := block (SimpleVector.array_ this)) in *.
  set (sz := ArrayPtr.size_ (SimpleVector.array_ this)) in *.
  assert (∃ b1,
    SimpleVector.std_copy true (Slot (Z.of_N j + 1)) (Slot (Z.of_N sz))
      (Slot (Z.of_N j)) this
    = Ok (SimpleVector.mk
            (ArrayPtr.mk (Some b1) sz
               (ArrayPtr.capacity_ (SimpleVector.array_ this))))
    ∧ length b1 = length b
    ∧ take (N.to_nat sz - 1) b1
      = take (N.to_nat j) b
        ++ take (N.to_nat sz - 1 - N.to_nat j) (drop (S (N.to_nat j)) b))
    as (b1 & Hcopy & Hl1 & Ht1).
  { unfold SimpleVector.std_copy. rewrite decide_False by lia.
    destruct (decide (Z.of_N sz = Z.of_N j + 1)%Z) as [Hlast|Hmore].
    - exists b. split_and!; [|done|].
      + rewrite (SimpleVector_eta this) at 1. by rewrite Hm.
      + replace (N.to_nat sz - 1 - N.to_nat j)%nat with 0%nat by lia.
        rewrite take_0, app_nil_r. f_equal. lia.
    - rewrite Hm. rewrite decide_False by lia. rewrite decide_False by lia.
      replace (Z.to_nat (Z.of_N j + 1)) with (S (N.to_nat j)) by lia.
      replace (Z.to_nat (Z.of_N sz - (Z.of_N j + 1)))
        with (N.to_nat sz - 1 - N.to_nat j)%nat by lia.
      replace (Z.to_nat (Z.of_N j)) with (N.to_nat j) by lia.
      destruct (copy_within_left true b (N.to_nat j)
                  (N.to_nat sz - 1 - N.to_nat j)) as (b1 & -> & ? & Ht);
        [lia|].
      exists b1. split_and!; [done..|].
      rewrite <- Ht. f_equal. lia. }
  unfold SimpleVector.Erase.
  unfold SimpleVector.cbegin, SimpleVector.end_, SimpleVector.begin,
    SimpleVector.IsEmpty, SimpleVector.GetSize, ArrayPtr.GetSize.
  fold sz. rewrite (proj2 (N.eqb_neq sz 0)) by lia.
  unfold SimpleVector.addr_of. rewrite Hm. simpl.
  replace (Z.of_N j - 0)%Z with (Z.of_N j) by lia.
  rewrite !size_of_Z_small by lia.
  replace (Z.of_N (Z.to_N (Z.of_N j + 1))) with (Z.of_N j + 1)%Z by lia.
  replace (0 + Z.of_N j)%Z with (Z.of_N j) by lia.
  rewrite N2Z.id.
  rewrite Hcopy. simpl.
  rewrite size_sub_small by lia.
  assert (wf (ArrayPtr.SetSize (sz - 1)
                (ArrayPtr.mk (Some b1) sz
                   (ArrayPtr.capacity_ (SimpleVector.array_ this))))) as Hwf'.
  { unfold wf, block. simpl. fold b in Hlen. split_and!; lia. }
  assert (take (N.to_nat (sz - 1)) b1
          = take (N.to_nat j) (take (N.to_nat sz) b)
            ++ drop (S (N.to_nat j)) (take (N.to_nat sz) b)) as Hel'.
  { replace (N.to_nat (sz - 1)) with (N.to_nat sz - 1)%nat by lia.
    rewrite Ht1. rewrite take_take.
    replace (N.to_nat j `min` N.to_nat sz)%nat with (N.to_nat j) by lia.
    f_equal. rewrite take_drop_commute. do 2 f_equal. lia. }
  unfold position, SimpleVector.IsEmpty, SimpleVector.GetSize,
    ArrayPtr.GetSize.
  destruct (N.leb_spec (sz - 1) j) as [Hlast|Hmid].
  - destruct (N.eqb_spec (sz - 1) 0) as [Hz|Hnz]; simpl.
    + eexists _, _. split; [done|]. simpl.
      rewrite Hz in *. split_and!; try done.
    + eexists _, _. split; [done|]. simpl.
      rewrite (proj2 (N.eqb_neq _ _)) by done.
      split_and!; try done. do 2 f_equal. lia.
  - simpl. eexists _, _. split; [done|]. simpl.
    rewrite (proj2 (N.eqb_neq _ _)) by lia.
    split_and!; done.
Qed.

Lemma elements_length this :
  wf (SimpleVector.array_ this) →
  length (SimpleVector.elements this) = N.to_nat (SimpleVector.GetSize this).
Proof.
  intros (Hlen & Hsz & _). rewrite elements_block, length_take.
  unfold SimpleVector.GetSize, ArrayPtr.GetSize. lia.
Qed.

(** With room for the extra slot and a [memmove] shift, erasing what was
    just inserted gives the elements and the size back. *)
Lemma Erase_Insert_room move heap_ok i value this :
  trivially_copyable = true →
  wf (SimpleVector.array_ this) →
  i ≤ SimpleVector.GetSize this →
  (SimpleVector.GetSize this = SimpleVector.GetCapacity this →
   heap_ok = true ∧ 2 * SimpleVector.GetCapacity this ≤ Block.max_len) →
  SimpleVector.GetSize this + 2 ≤ grown this →
  stays_valid value this →
  ∃ it this',
    insert_then_erase move heap_ok (position i this) value this
    = Ok (it, this')
    ∧ SimpleVector.elements this' = SimpleVector.elements this
    ∧ SimpleVector.GetSize this' = SimpleVector.GetSize this
    ∧ it = position i this'.
Proof.
  intros Htc Hwf Hi Hheap Hroom Hvalid.
  destruct (Insert_gen_room move heap_ok i value this)
    as (x & this1 & _ & Hins & Hwf1 & Hsz1 & _ & Hel1 & _); [done..|].
  destruct (Erase_spec i this1)
    as (it & this' & Her & _ & Hsz' & _ & Hel' & Hit); [done | lia |].
  exists it, this'. unfold insert_then_erase. rewrite Hins. simpl.
  split_and!; [done | | lia | done].
  pose proof (elements_length this Hwf) as Hl.
  rewrite Hel', Hel1.
  assert (length (take (N.to_nat i) (SimpleVector.elements this))
          = N.to_nat i) as Hi' by (rewrite length_take; lia).
  rewrite take_app_length' by done.
  rewrite drop_app_ge by lia. rewrite Hi'.
  replace (S (N.to_nat i) - N.to_nat i)%nat with 1%nat by lia.
  simpl. by rewrite drop_0, take_drop.
Qed.
End insert_erase.

(** ** Well-formedness is kept while the heap honours the requests *)

Section wf_facts.
Context {T : Type} `{!ElemType T}.
Implicit Types (a : ArrayPtr.t T) (b dst : list T) (init x : T)
  (this : SimpleVector.t T) (σ : gmap nat (ArrayPtr.t T)).
Local Open Scope N_scope.

Lemma wf_empty : wf (ArrayPtr.empty (T:=T)).
Proof. unfold wf, block, Block.max_len. simpl. lia. Qed.

Lemma wf_same a :
  wf a →
  wf (ArrayPtr.mk (ArrayPtr.memory_ a) (ArrayPtr.size_ a) (ArrayPtr.capacity_ a)).
Proof. done. Qed.

Lemma SetSize_wf n a : wf a → n ≤ ArrayPtr.capacity_ a → wf (ArrayPtr.SetSize n a).
Proof. intros (? & ? & ?) ?. unfold wf, block in *. simpl. split_and!; done. Qed.

Lemma set_wf i x a a' :
  wf a → ArrayPtr.set i x a = Ok a' →
  wf a' ∧ ArrayPtr.size_ a' = ArrayPtr.size_ a
  ∧ ArrayPtr.capacity_ a' = ArrayPtr.capacity_ a.
Proof.
  intros (Hl & Hs & Hc). unfold ArrayPtr.set, wf, block in *.
  destruct (ArrayPtr.memory_ a) as [b|]; [|done]. simpl in *.
  intros Hset. apply bind_Ok in Hset as (b' & Hw & [= <-]).
  apply write_length in Hw. simpl. rewrite Hw. done.
Qed.

Lemma fill_wf n i x a a' :
  wf a → SimpleVector.fill n i x a = Ok a' →
  wf a' ∧ ArrayPtr.size_ a' = ArrayPtr.size_ a.
Proof.
  revert i a. induction n as [|n IH]; intros i a Hwf H; simpl in H.
  - by injection H as <-.
  - apply bind_Ok in H as (a1 & Hs & H).
    destruct (set_wf _ _ _ _ Hwf Hs) as (Hwf1 & Hs1 & _).
    destruct (IH _ _ Hwf1 H) as [? ?]. split; [done | congruence].
Qed.

Lemma assign_from_wf i (l : list T) a a' :
  wf a → SimpleVector.assign_from i l a = Ok a' →
  wf a' ∧ ArrayPtr.size_ a' = ArrayPtr.size_ a.
Proof.
  revert i a. induction l as [|v l IH]; intros i a Hwf H; simpl in H.
  - by injection H as <-.
  - apply bind_Ok in H as (a1 & Hs & H).
    destruct (set_wf _ _ _ _ Hwf Hs) as (Hwf1 & Hs1 & _).
    destruct (IH _ _ Hwf1 H) as [? ?]. split; [done | congruence].
Qed.

(** with its allocation honoured, [Resize] returns and keeps the buffer
    well formed *)
Lemma Resize_wf heap_ok n a :
  wf a →
  (ArrayPtr.capacity_ a < n → heap_ok = true ∧ n ≤ Block.max_len) →
  ∃ a', ArrayPtr.Resize heap_ok n a = Ok a'
        ∧ wf a' ∧ ArrayPtr.size_ a' = n.
Proof.
  intros Hwf Hheap. pose proof Hwf as (Hlen & Hsz & Hmax).
  destruct (N.le_gt_cases n (ArrayPtr.size_ a)) as [Hshrink|Hgrowth].
  - rewrite Resize_shrink by done. eexists. split; [done|].
    split; [apply SetSize_wf; [done | lia] | done].
  - destruct (N.le_gt_cases n (ArrayPtr.capacity_ a)) as [Hin|Hout].
    + rewrite Resize_within by done. eexists. split; [done|].
      split; [|done]. unfold wf, block in *. simpl.
      split_and!; [|done..].
      destruct is_arithmetic; [|done].
      rewrite !length_app, length_take, length_replicate, length_drop. lia.
    + destruct (Hheap Hout) as [-> ?].
      rewrite Resize_grow by done. eexists. split; [done|].
      split; [|done]. unfold wf, block in *. simpl.
      rewrite length_app, length_take, length_replicate. split_and!; lia.
Qed.

Lemma Reserve_wf heap_ok n a a' :
  wf a →
  (ArrayPtr.capacity_ a < n → heap_ok = true ∧ n ≤ Block.max_len) →
  ArrayPtr.Reserve heap_ok n a = Ok a' → wf a'.
Proof.
  intros Hwf Hheap. pose proof Hwf as (Hlen & Hsz & Hmax).
  destruct (N.le_gt_cases n (ArrayPtr.capacity_ a)) as [Hin|Hout].
  - rewrite Reserve_enough by done. by intros [= <-].
  - destruct (Hheap Hout) as [-> ?].
    rewrite Reserve_grow by done. intros [= <-].
    unfold wf, block in *. simpl.
    rewrite length_app, length_take, length_replicate. split_and!; lia.
Qed.

Lemma copy_ctor_wf a :
  wf a → ∃ a', ArrayPtr.copy_ctor true a = Ok a' ∧ wf a'.
Proof.
  intros Hwf. pose proof Hwf as (Hlen & Hsz & Hmax).
  unfold ArrayPtr.copy_ctor. rewrite new_array_Ok by done.
  rewrite copy_out_Ok by (rewrite ?length_replicate; done || lia).
  simpl. eexists. split; [done|].
  unfold wf, block in *. simpl.
  rewrite length_app, length_take, length_drop, length_replicate.
  split_and!; lia.
Qed.

Lemma copy_within_length move b first n r b' :
  Block.copy_within move b first n r = Ok b' → length b' = length b.
Proof.
  unfold Block.copy_within, Block.memmove. destruct trivially_copyable.
  - intros H. apply bind_Ok in H as (xs & _ & H).
    by eapply write_range_length.
  - apply copy_loop_length.
Qed.

Lemma std_copy_wf move first last (to : ptr) this this' :
  wf (SimpleVector.array_ this) →
  SimpleVector.std_copy move first last to this = Ok this' →
  wf (SimpleVector.array_ this')
  ∧ SimpleVector.GetSize this' = SimpleVector.GetSize this
  ∧ SimpleVector.GetCapacity this' = SimpleVector.GetCapacity this.
Proof.
  intros Hwf. unfold SimpleVector.std_copy.
  destruct first, last; try done.
  - by intros [= <-].
  - case_decide; [done|]. case_decide; [by intros [= <-]|].
    destruct to; [done|].
    destruct (ArrayPtr.memory_ (SimpleVector.array_ this)) as [b|] eqn:Hm;
      [|done].
    case_decide; [done|]. case_decide; [done|].
    intros Hb. apply bind_Ok in Hb as (b' & Hc & [= <-]).
    apply copy_within_length in Hc.
    unfold wf, block in *. rewrite Hm in Hwf. simpl in *.
    by rewrite Hc.
Qed.

Lemma leave_moved_wf move value x a a' :
  wf a → SimpleVector.leave_moved move value x a = Ok a' → wf a'.
Proof.
  intros Hwf. unfold SimpleVector.leave_moved. destruct value as [y|k].
  - by intros [= <-].
  - case_match; [|by intros [= <-]].
    intros Hset. by apply (set_wf _ _ _ _ Hwf) in Hset as (? & _).
Qed.

Lemma Insert_gen_wf move heap_ok pos value this it this' :
  wf (SimpleVector.array_ this) →
  (SimpleVector.GetSize this = SimpleVector.GetCapacity this →
   heap_ok = true ∧ 2 * SimpleVector.GetCapacity this ≤ Block.max_len) →
  SimpleVector.Insert_gen move heap_ok pos value this = Ok (it, this') →
  wf (SimpleVector.array_ this').
Proof.
  intros Hwf Hheap H. unfold SimpleVector.Insert_gen in H.
  destruct (GrowIfNeed_spec heap_ok this Hwf Hheap)
    as (this1 & Hg & Hwf1 & Hlt & _ & _).
  rewrite Hg in H.
  apply bind_Ok in H as (p0 & _ & H).
  apply bind_Ok in H as (index & _ & H). simpl in H.
  apply bind_Ok in H as (new_pos & _ & H).
  apply bind_Ok in H as (e & _ & H).
  apply bind_Ok in H as (b2 & _ & H).
  apply bind_Ok in H as (dst & _ & H).
  apply bind_Ok in H as (this3 & Hcopy & H).
  apply bind_Ok in H as (x & _ & H).
  apply bind_Ok in H as (a4 & Hset & H).
  apply bind_Ok in H as (a5 & Hleft & [= _ <-]). simpl.
  apply std_copy_wf in Hcopy as (Hwf3 & _).
  - apply (set_wf _ _ _ _ Hwf3) in Hset as (Hwf4 & _).
    exact (leave_moved_wf _ _ _ _ _ Hwf4 Hleft).
  - simpl. apply SetSize_wf; [done|].
    pose proof Hwf1 as (_ & _ & ?). pose proof max_len_lt.
    unfold SimpleVector.GetSize, SimpleVector.GetCapacity,
      ArrayPtr.GetSize, ArrayPtr.GetCapacity in *.
    rewrite size_add_small by lia. lia.
Qed.

(** [Erase] on an empty vector does not return *)
Lemma Erase_empty pos this r :
  SimpleVector.IsEmpty this = true → SimpleVector.Erase pos this ≠ Ok r.
Proof.
  intros He. unfold SimpleVector.Erase, SimpleVector.cbegin,
    SimpleVector.end_, SimpleVector.begin. rewrite He. simpl.
  destruct pos; simpl; [|done].
  unfold SimpleVector.addr_of.
  destruct (ArrayPtr.memory_ (SimpleVector.array_ this)); simpl; done.
Qed.

Lemma Erase_wf pos this it this' :
  wf (SimpleVector.array_ this) →
  SimpleVector.Erase pos this = Ok (it, this') →
  wf (SimpleVector.array_ this').
Proof.
  intros Hwf H.
  destruct (SimpleVector.IsEmpty this) eqn:He;
    [by apply Erase_empty in H|].
  unfold SimpleVector.Erase in H.
  apply bind_Ok in H as (p0 & _ & H).
  apply bind_Ok in H as (index & _ & H).
  apply bind_Ok in H as (it_start & _ & H).
  apply bind_Ok in H as (e & _ & H).
  apply bind_Ok in H as (b2 & _ & H).
  apply bind_Ok in H as (dst & _ & H).
  apply bind_Ok in H as (this1 & Hcopy & H).
  apply (std_copy_wf _ _ _ _ _ _ Hwf) in Hcopy as (Hwf1 & Hs1 & Hc1).
  pose proof Hwf1 as (_ & Hsz1 & Hmax1). pose proof max_len_lt.
  unfold SimpleVector.IsEmpty, SimpleVector.GetSize, SimpleVector.GetCapacity,
    ArrayPtr.GetSize, ArrayPtr.GetCapacity in *.
  apply N.eqb_neq in He.
  assert (wf (ArrayPtr.SetSize
                (SizeT.sub (ArrayPtr.size_ (SimpleVector.array_ this1)) 1)
                (SimpleVector.array_ this1))) as Hwf2.
  { apply SetSize_wf; [done|]. rewrite size_sub_small by lia. lia. }
  case_match.
  - apply bind_Ok in H as (e2 & _ & [= _ <-]). done.
  - apply bind_Ok in H as (p & _ & [= _ <-]). done.
Qed.

Lemma PopBack_wf this :
  wf (SimpleVector.array_ this) →
  wf (SimpleVector.array_ (SimpleVector.PopBack this)).
Proof.
  intros Hwf. pose proof Hwf as (_ & Hsz & Hmax). pose proof max_len_lt.
  unfold SimpleVector.PopBack, SimpleVector.IsEmpty, ArrayPtr.GetSize.
  destruct (N.eqb_spec (ArrayPtr.size_ (SimpleVector.array_ this)) 0);
    simpl; [done|].
  apply SetSize_wf; [done|]. rewrite size_sub_small by lia. lia.
Qed.

Lemma ctor_size_wf n a :
  n ≤ Block.max_len → ArrayPtr.ctor_size true n = Ok a →
  wf a ∧ ArrayPtr.size_ a = n.
Proof.
  intros Hn. unfold ArrayPtr.ctor_size.
  destruct (N.ltb_spec 0 n).
  - destruct (Resize_wf true n ArrayPtr.empty wf_empty) as (a' & -> & ? & ?);
      [done|]. by intros [= <-].
  - intros [= <-]. split; [apply wf_empty | simpl; lia].
Qed.

Lemma construct_wf v r σ σ' :
  (∀ a, r = Ok a → wf a) →
  all_wf σ → Program.construct v r σ = Ok σ' → all_wf σ'.
Proof.
  unfold Program.construct. intros Hr Hσ. case_match; [done|].
  intros Hb. apply bind_Ok in Hb as (a & -> & [= <-]).
  apply map_Forall_insert_2; [by apply Hr | done].
Qed.

Lemma method_wf v f σ σ' :
  (∀ a this', σ !! v = Some a → wf a →
     f (SimpleVector.mk a) = Ok this' → wf (SimpleVector.array_ this')) →
  all_wf σ → Program.method v f σ = Ok σ' → all_wf σ'.
Proof.
  unfold Program.method. intros Hf Hσ.
  destruct (σ !! v) as [a|] eqn:Hv; [|done].
  intros Hb. apply bind_Ok in Hb as (this' & Hthis & [= <-]).
  apply map_Forall_insert_2; [|done].
  eapply Hf; [done | by eapply Hσ | done].
Qed.

Lemma move_construct_wf v other σ σ' :
  all_wf σ → Program.move_construct v other σ = Ok σ' → all_wf σ'.
Proof.
  unfold Program.move_construct. intros Hσ.
  destruct (σ !! v); [done|]. destruct (σ !! other) as [o|] eqn:Ho; [|done].
  simpl. intros [= <-].
  apply map_Forall_insert_2; [apply wf_same; by eapply Hσ|].
  apply map_Forall_insert_2; [apply wf_empty | done].
Qed.

Lemma move_assign_wf (v rhs : nat) σ σ' :
  all_wf σ → Program.move_assign v rhs σ = Ok σ' → all_wf σ'.
Proof.
  unfold Program.move_assign. intros Hσ.
  destruct (σ !! v); [|done]. destruct (σ !! rhs) as [r|] eqn:Hr; [|done].
  case_decide; simpl; intros [= <-]; [done|].
  apply map_Forall_insert_2; [apply wf_same; by eapply Hσ|].
  apply map_Forall_insert_2; [apply wf_empty | done].
Qed.

Lemma capacity_at_lookup v σ a :
  σ !! v = Some a → capacity_at v σ = ArrayPtr.capacity_ a.
Proof. unfold capacity_at. by intros ->. Qed.

(** a call whose allocation is honoured keeps every live vector well
    formed *)
Lemma exec_wf heap_ok c σ σ' :
  all_wf σ → honoured heap_ok c σ →
  Program.exec heap_ok c σ = Ok σ' → all_wf σ'.
Proof.
  intros Hσ [-> Hreq]. destruct c; simpl in *.
  - apply construct_wf; [|done]. intros a [= <-]. apply wf_empty.
  - apply construct_wf; [|done]. intros a Ha.
    apply fmap_Ok in Ha as (this & Ha & ->).
    apply bind_Ok in Ha as (a & Ha & [= <-]).
    by apply ctor_size_wf in Ha as [? _].
  - apply construct_wf; [|done]. intros a Ha.
    apply fmap_Ok in Ha as (this & Ha & ->).
    apply bind_Ok in Ha as (a & Ha & Hf).
    apply bind_Ok in Hf as (a' & Hf & [= <-]).
    apply ctor_size_wf in Ha as [? _]; [|done].
    by apply fill_wf in Hf as [? _].
  - apply construct_wf; [|done]. intros a Ha.
    apply fmap_Ok in Ha as (this & Ha & ->).
    apply bind_Ok in Ha as (a & Ha & Hf).
    apply bind_Ok in Hf as (a' & Hf & [= <-]).
    apply ctor_size_wf in Ha as [? _]; [|done].
    by apply assign_from_wf in Hf as [? _].
  - apply construct_wf; [|done]. intros a Ha.
    apply fmap_Ok in Ha as (this & Ha & ->).
    apply bind_Ok in Ha as (a & Ha & [= <-]).
    unfold ArrayPtr.ctor_size_capacity in Ha.
    destruct (Resize_wf true capacity_to_reserve ArrayPtr.empty wf_empty)
      as (a' & Hr & Hwf' & _); [done|].
    rewrite Hr in Ha. injection Ha as <-. simpl.
    apply SetSize_wf; [done | lia].
  - unfold Program.copy_construct.
    destruct (σ !! v); [done|].
    destruct (σ !! other) as [o|] eqn:Ho; [|done].
    destruct (copy_ctor_wf o) as (a' & -> & ?); [by eapply Hσ|].
    simpl. intros [= <-]. by apply map_Forall_insert_2.
  - by apply move_construct_wf.
  - unfold Program.copy_assign, ArrayPtr.copy_assign.
    destruct (σ !! v); [|done].
    destruct (σ !! rhs) as [r|] eqn:Hr; [|done].
    case_decide; [by intros [= <-]|].
    destruct (copy_ctor_wf r) as (a' & -> & ?); [by eapply Hσ|].
    simpl. intros [= <-]. apply map_Forall_insert_2; [|done].
    by apply wf_same.
  - by apply move_assign_wf.
  - unfold Program.swap. intros Hb.
    apply bind_Ok in Hb as (σ1 & H1 & Hb).
    apply bind_Ok in Hb as (σ2 & H2 & Hb).
    apply bind_Ok in Hb as (σ3 & H3 & [= <-]).
    apply map_Forall_delete.
    eapply move_assign_wf; [|done].
    eapply move_assign_wf; [|done].
    by eapply move_construct_wf.
  - apply method_wf; [|done]. intros a this' Hv Hwf Hp.
    rewrite (capacity_at_lookup _ _ _ Hv) in Hreq.
    destruct (PushBack_spec true item (SimpleVector.mk a))
      as (this1 & Hp1 & ? & _); [done | done |].
    congruence.
  - apply method_wf; [|done]. intros a this' Hv Hwf Hp.
    rewrite (capacity_at_lookup _ _ _ Hv) in Hreq.
    apply fmap_Ok in Hp as ([it this1] & Hp & ->). simpl.
    eapply Insert_gen_wf; [| |exact Hp]; done.
  - apply method_wf; [|done]. intros a this' Hv Hwf Hp.
    rewrite (capacity_at_lookup _ _ _ Hv) in Hreq.
    apply fmap_Ok in Hp as ([it this1] & Hp & ->). simpl.
    eapply Insert_gen_wf; [| |exact Hp]; done.
  - apply method_wf; [|done]. intros a this' Hv Hwf [= <-].
    by apply (PopBack_wf (SimpleVector.mk a)).
  - apply method_wf; [|done]. intros a this' Hv Hwf Hp.
    apply fmap_Ok in Hp as ([it this1] & Hp & ->). simpl.
    eapply Erase_wf; [|exact Hp]; done.
  - apply method_wf; [|done]. intros a this' Hv Hwf [= <-].
    simpl. apply SetSize_wf; [done | lia].
  - apply method_wf; [|done]. intros a this' Hv Hwf Hp.
    apply bind_Ok in Hp as (a' & Hp & [= <-]). simpl in *.
    destruct (Resize_wf true new_size a Hwf) as (a1 & Hr & ? & _); [done|].
    congruence.
  - apply method_wf; [|done]. intros a this' Hv Hwf Hp.
    apply bind_Ok in Hp as (a' & Hp & [= <-]). simpl in *.
    by eapply Reserve_wf.
  - intros [= <-]. by apply map_Forall_delete.
Qed.

Lemma run_wf p σ σ' :
  all_wf σ → run_honoured p σ → Program.run p σ = Ok σ' → all_wf σ'.
Proof.
  revert σ. induction p as [|[heap_ok c] p IH]; intros σ Hσ Hh; simpl.
  - by intros [= <-].
  - destruct Hh as [Hh Hrest].
    destruct (Program.exec heap_ok c σ) eqn:He; [| by apply IH | done].
    apply IH; [by eapply exec_wf | done].
Qed.

(** As long as the heap honours every request, [size <= capacity] holds in
    every vector after every call of the public interface. *)
Lemma size_within_capacity_while_honoured p σ v a :
  run_honoured p ∅ → Program.run p ∅ = Ok σ → σ !! v = Some a →
  wf a ∧ ArrayPtr.size_ a ≤ ArrayPtr.capacity_ a.
Proof.
  intros Hh Hrun Hv.
  assert (wf a) as Hwf
    by (eapply (run_wf p ∅ σ); [apply map_Forall_empty | done..]).
  split; [done | apply Hwf].
Qed.
End wf_facts.

(** ** The comparison operators on well-formed vectors *)

Section compare_facts.
Context {T : Type} `{!ElemType T} `{!ElemCompare T}.
Implicit Types (b : list T) (l : list T) (lhs rhs this : SimpleVector.t T).

Lemma deref_Slot this b (i : nat) x :
  ArrayPtr.memory_ (SimpleVector.array_ this) = Some b →
  b !! i = Some x →
  SimpleVector.deref (Slot (Z.of_nat i)) this = Ok x.
Proof.
  intros Hm Hx. unfold SimpleVector.deref, ArrayPtr.get.
  rewrite decide_False by lia. rewrite Hm.
  replace (N.to_nat (Z.to_N (Z.of_nat i))) with i by lia.
  by apply read_Ok.
Qed.

Lemma equal_loop_blocks n (i1 i2 : nat) lhs rhs b1 b2 :
  ArrayPtr.memory_ (SimpleVector.array_ lhs) = Some b1 →
  ArrayPtr.memory_ (SimpleVector.array_ rhs) = Some b2 →
  i1 + n ≤ length b1 → i2 + n ≤ length b2 →
  Compare.equal_loop n (Slot (Z.of_nat i1)) (Slot (Z.of_nat i2)) lhs rhs
  = Ok (pairwise_eq (take n (drop i1 b1)) (take n (drop i2 b2))).
Proof.
  intros Hm1 Hm2. revert i1 i2.
  induction n as [|n IH]; intros i1 i2 H1 H2; [done|].
  destruct (lookup_lt_is_Some_2 b1 i1) as [x Hx]; [lia|].
  destruct (lookup_lt_is_Some_2 b2 i2) as [y Hy]; [lia|].
  cbn [Compare.equal_loop].
  rewrite (deref_Slot _ _ _ _ Hm1 Hx), (deref_Slot _ _ _ _ Hm2 Hy). simpl.
  rewrite (drop_S _ _ _ Hx), (drop_S _ _ _ Hy). simpl.
  destruct (elem_eq x y); [|done]. simpl.
  replace (Z.of_nat i1 + 1)%Z with (Z.of_nat (S i1)) by lia.
  replace (Z.of_nat i2 + 1)%Z with (Z.of_nat (S i2)) by lia.
  apply IH; lia.
Qed.

Lemma pairwise_eq_length l1 l2 :
  pairwise_eq l1 l2 = true → length l1 = length l2.
Proof.
  revert l2. induction l1 as [|x l1 IH]; intros [|y l2]; simpl; try done.
  intros [_ ?]%andb_true_iff. f_equal. by apply IH.
Qed.

Lemma pairwise_eq_Forall2 l1 l2 :
  pairwise_eq l1 l2 = true ↔ Forall2 (λ x y, elem_eq x y = true) l1 l2.
Proof.
  revert l2. induction l1 as [|x l1 IH]; intros [|y l2]; simpl.
  - split; [constructor | done].
  - split; [done | inversion 1].
  - split; [done | inversion 1].
  - rewrite andb_true_iff, IH. split.
    + intros [? ?]. by constructor.
    + inversion 1; subst. done.
Qed.

(** the iterators of a well-formed vector *)
Lemma begin_end_wf this :
  wf (SimpleVector.array_ this) →
  SimpleVector.begin this = Ok (position 0 this)
  ∧ SimpleVector.end_ this
    = Ok (position (SimpleVector.GetSize this) this).
Proof.
  intros Hwf. pose proof Hwf as (Hlen & Hsz & _).
  unfold SimpleVector.begin, SimpleVector.end_, position, SimpleVector.IsEmpty,
    SimpleVector.GetSize, ArrayPtr.GetSize in *.
  destruct (N.eqb_spec (ArrayPtr.size_ (SimpleVector.array_ this)) 0);
    [done|].
  unfold SimpleVector.addr_of.
  by rewrite wf_memory by (done || lia).
Qed.

Lemma operator_eq_wf lhs rhs :
  wf (SimpleVector.array_ lhs) → wf (SimpleVector.array_ rhs) →
  Compare.operator_eq lhs rhs
  = Ok (pairwise_eq (SimpleVector.elements lhs) (SimpleVector.elements rhs)).
Proof.
  intros Hwf1 Hwf2.
  pose proof (elements_length lhs Hwf1) as Hl1.
  pose proof (elements_length rhs Hwf2) as Hl2.
  unfold Compare.operator_eq.
  destruct (N.eqb_spec (SimpleVector.GetSize lhs) (SimpleVector.GetSize rhs))
    as [Heq|Hne].
  - destruct (begin_end_wf lhs Hwf1) as [-> ->].
    destruct (begin_end_wf rhs Hwf2) as [-> ->]. simpl.
    rewrite !elements_block. rewrite <- Heq.
    pose proof Hwf1 as (Hlen1 & Hsz1 & _). pose proof Hwf2 as (Hlen2 & Hsz2 & _).
    unfold position, SimpleVector.IsEmpty, SimpleVector.GetSize,
      ArrayPtr.GetSize in *. rewrite <- Heq.
    destruct (N.eqb_spec (ArrayPtr.size_ (SimpleVector.array_ lhs)) 0)
      as [Hz|Hnz].
    + rewrite Hz. done.
    + unfold Compare.std_equal. simpl.
      rewrite decide_False by lia. rewrite decide_False by lia.
      replace (Z.to_nat (Z.of_N (ArrayPtr.size_ (SimpleVector.array_ lhs)) - 0))
        with (N.to_nat (ArrayPtr.size_ (SimpleVector.array_ lhs))) by lia.
      rewrite (equal_loop_blocks _ 0 0 lhs rhs
                 (block (SimpleVector.array_ lhs))
                 (block (SimpleVector.array_ rhs)));
        [done | apply wf_memory; [done | lia]
        | apply wf_memory; [done | lia] | lia | lia].
  - destruct (pairwise_eq _ _) eqn:Hp; [|done].
    apply pairwise_eq_length in Hp. lia.
Qed.

Lemma lexicographical_compare_blocks fuel (i1 i2 s1 s2 : nat) lhs rhs b1 b2 :
  ArrayPtr.memory_ (SimpleVector.array_ lhs) = Some b1 →
  ArrayPtr.memory_ (SimpleVector.array_ rhs) = Some b2 →
  i1 ≤ s1 ≤ length b1 → i2 ≤ s2 ≤ length b2 → s1 - i1 < fuel →
  Compare.lexicographical_compare fuel
    (Slot (Z.of_nat i1)) (Slot (Z.of_nat s1))
    (Slot (Z.of_nat i2)) (Slot (Z.of_nat s2)) lhs rhs
  = Ok (lex_lt (take (s1 - i1) (drop i1 b1)) (take (s2 - i2) (drop i2 b2))).
Proof.
  intros Hm1 Hm2. revert i1 i2.
  induction fuel as [|fuel IH]; intros i1 i2 H1 H2 Hf; [lia|].
  cbn [Compare.lexicographical_compare].
  destruct (decide (Slot (Z.of_nat i1) = Slot (Z.of_nat s1))) as [Heq|Hne].
  - assert (i1 = s1) as -> by (injection Heq; lia).
    rewrite Nat.sub_diag, take_0. simpl.
    destruct (decide (i2 = s2)) as [->|Hne2].
    + rewrite bool_decide_eq_false_2 by (by intros []).
      by rewrite Nat.sub_diag, take_0.
    + rewrite bool_decide_eq_true_2 by (intros [=]; lia).
      destruct (lookup_lt_is_Some_2 b2 i2) as [y Hy]; [lia|].
      rewrite (drop_S _ _ _ Hy).
      by replace (s2 - i2) with (S (s2 - S i2)) by lia.
  - assert (i1 < s1) by (destruct (decide (i1 = s1)); [by subst | lia]).
    destruct (lookup_lt_is_Some_2 b1 i1) as [x Hx]; [lia|].
    rewrite (drop_S _ _ _ Hx).
    replace (s1 - i1) with (S (s1 - S i1)) by lia.
    destruct (decide (Slot (Z.of_nat i2) = Slot (Z.of_nat s2))) as [Heq2|Hne2].
    + assert (i2 = s2) as -> by (injection Heq2; lia).
      by rewrite Nat.sub_diag, take_0.
    + assert (i2 < s2) by (destruct (decide (i2 = s2)); [by subst | lia]).
      destruct (lookup_lt_is_Some_2 b2 i2) as [y Hy]; [lia|].
      rewrite (drop_S _ _ _ Hy).
      replace (s2 - i2) with (S (s2 - S i2)) by lia.
      rewrite (deref_Slot _ _ _ _ Hm1 Hx), (deref_Slot _ _ _ _ Hm2 Hy).
      simpl. destruct (elem_lt x y); [done|]. destruct (elem_lt y x); [done|].
      replace (Z.of_nat i1 + 1)%Z with (Z.of_nat (S i1)) by lia.
      replace (Z.of_nat i2 + 1)%Z with (Z.of_nat (S i2)) by lia.
      apply IH; lia.
Qed.

Lemma operator_lt_wf lhs rhs :
  wf (SimpleVector.array_ lhs) → wf (SimpleVector.array_ rhs) →
  Compare.operator_lt lhs rhs
  = Ok (lex_lt (SimpleVector.elements lhs) (SimpleVector.elements rhs)).
Proof.
  intros Hwf1 Hwf2. unfold Compare.operator_lt.
  destruct (begin_end_wf lhs Hwf1) as [-> ->].
  destruct (begin_end_wf rhs Hwf2) as [-> ->]. simpl.
  rewrite !elements_block.
  pose proof Hwf1 as (Hlen1 & Hsz1 & _). pose proof Hwf2 as (Hlen2 & Hsz2 & _).
  unfold position, SimpleVector.IsEmpty, SimpleVector.GetSize,
    ArrayPtr.GetSize in *.
  set (n1 := ArrayPtr.size_ (SimpleVector.array_ lhs)) in *.
  set (n2 := ArrayPtr.size_ (SimpleVector.array_ rhs)) in *.
  destruct (N.eqb_spec n1 0) as [Hz1|Hnz1];
    destruct (N.eqb_spec n2 0) as [Hz2|Hnz2].
  - rewrite Hz1, Hz2. done.
  - rewrite Hz1. cbn [Compare.lexicographical_compare N.to_nat].
    rewrite decide_True by done.
    rewrite bool_decide_eq_true_2 by (intros [=]; lia).
    rewrite take_0.
    destruct (lookup_lt_is_Some_2 (block (SimpleVector.array_ rhs)) 0)
      as [y Hy]; [lia|].
    replace (N.to_nat n2) with (S (N.to_nat n2 - 1)) by lia.
    destruct (block (SimpleVector.array_ rhs)); [done|]. done.
  - rewrite Hz2. cbn [Compare.lexicographical_compare].
    rewrite decide_False by (intros [=]; lia).
    rewrite decide_True by done. rewrite take_0.
    destruct (take _ _) eqn:Ht; [|done].
    apply (f_equal length) in Ht. rewrite length_take in Ht. simpl in Ht. lia.
  - pose proof (lexicographical_compare_blocks (S (N.to_nat n1)) 0 0
                  (N.to_nat n1) (N.to_nat n2) lhs rhs
                  (block (SimpleVector.array_ lhs))
                  (block (SimpleVector.array_ rhs))) as Hl.
    rewrite !Nat.sub_0_r in Hl. simpl in Hl.
    rewrite !N_nat_Z in Hl.
    apply Hl; [apply wf_memory; [done | lia]
              | apply wf_memory; [done | lia] | lia..].
Qed.
End compare_facts.

(** ** Element orders and the order of lists *)

#[export] Instance int_order : ElemOrder Z.
Proof.
  split; simpl.
  - intros x y. apply Z.eqb_eq.
  - intros x y. rewrite Z.ltb_lt. intros. apply Z.ltb_ge. lia.
  - intros x y. rewrite !Z.ltb_ge. lia.
Qed.

Section order_facts.
Context {T : Type} `{!ElemCompare T} `{!ElemOrder T}.
#[local] Set Default Proof Using "Type*".
Implicit Types (l p t : list T).

Lemma elem_lt_irrefl (x : T) : elem_lt x x = false.
Proof.
  destruct (elem_lt x x) eqn:H; [|done].
  by rewrite (elem_lt_asym _ _ H) in H.
Qed.

Lemma pairwise_eq_eq l1 l2 : pairwise_eq l1 l2 = true ↔ l1 = l2.
Proof.
  revert l2. induction l1 as [|x l1 IH]; intros [|y l2]; simpl; try done.
  rewrite andb_true_iff, IH, elem_eq_spec. split.
  - by intros [-> ->].
  - by intros [= -> ->].
Qed.

Lemma lex_lt_spec l1 l2 :
  lex_lt l1 l2 = true
  ↔ (∃ y t, l2 = l1 ++ y :: t)
    ∨ (∃ p x y t1 t2,
         l1 = p ++ x :: t1 ∧ l2 = p ++ y :: t2 ∧ elem_lt x y = true).
Proof.
  revert l2. induction l1 as [|x l1 IH]; intros [|y l2]; simpl.
  - split; [done|]. intros [(? & ? & ?) | (p & ? & ? & ? & ? & Hp & _)].
    + done.
    + by destruct p.
  - split; [|done]. intros _. left. by exists y, l2.
  - split; [done|]. intros [(? & ? & ?) | (p & ? & ? & ? & ? & _ & Hp & _)].
    + done.
    + by destruct p.
  - destruct (elem_lt x y) eqn:Hxy.
    + split; [|done]. intros _. right. by exists [], x, y, l1, l2.
    + destruct (elem_lt y x) eqn:Hyx.
      * split; [done|].
        intros [(? & ? & [= -> _]) | (p & x' & y' & ? & ? & H1 & H2 & Hlt)].
        -- by rewrite elem_lt_irrefl in Hyx.
        -- destruct p as [|z p]; simplify_eq/=; congruence.
      * assert (x = y) as <- by (by apply elem_lt_connex).
        rewrite IH. split.
        -- intros [(y' & t & ->) | (p & x' & y' & t1 & t2 & -> & -> & ?)].
           ++ left. by exists y', t.
           ++ right. by exists (x :: p), x', y', t1, t2.
        -- intros [(y' & t & [= ->]) | (p & x' & y' & t1 & t2 & H1 & H2 & Hlt)].
           ++ left. by exists y', t.
           ++ destruct p as [|z p]; simplify_eq/=; [congruence|].
              right. by exists p, x', y', t1, t2.
Qed.

(** [l1 <= l2] is [not (l2 < l1)] *)
Lemma lex_lt_or_eq l1 l2 :
  lex_lt l1 l2 || pairwise_eq l1 l2 = negb (lex_lt l2 l1).
Proof.
  revert l2. induction l1 as [|x l1 IH]; intros [|y l2]; simpl; try done.
  destruct (elem_lt x y) eqn:Hxy.
  - by rewrite (elem_lt_asym _ _ Hxy).
  - destruct (elem_lt y x) eqn:Hyx; simpl.
    + destruct (elem_eq x y) eqn:He; [|done].
      apply elem_eq_spec in He as ->. by rewrite elem_lt_irrefl in Hyx.
    + assert (x = y) as <- by (by apply elem_lt_connex).
      rewrite (proj2 (elem_eq_spec x x)) by done. simpl. apply IH.
Qed.

Lemma lex_lt_irrefl l : lex_lt l l = false.
Proof.
  induction l as [|x l IH]; simpl; [done|]. by rewrite elem_lt_irrefl.
Qed.
End order_facts.

(** ** The constructors *)

Section ctor_facts.
Context {T : Type} `{!ElemType T}.
Implicit Types (a : ArrayPtr.t T) (b : list T) (x : T) (init : list T)
  (this : SimpleVector.t T).
Local Open Scope N_scope.

Lemma fill_Ok n i x a b :
  ArrayPtr.memory_ a = Some b → (N.to_nat i + n ≤ length b)%nat →
  SimpleVector.fill n i x a
  = Ok (ArrayPtr.mk
          (Some (take (N.to_nat i) b ++ replicate n x
                 ++ drop (N.to_nat i + n) b))
          (ArrayPtr.size_ a) (ArrayPtr.capacity_ a)).
Proof.
  revert i a b. induction n as [|n IH]; intros i a b Hm Hle; simpl.
  - rewrite Nat.add_0_r, take_drop. destruct a; simpl in *; by subst.
  - rewrite (set_Ok _ b) by (done || lia). simpl.
    rewrite (IH _ _ (<[N.to_nat i:=x]> b))
      by (done || rewrite length_insert; lia).
    simpl. do 3 f_equal.
    rewrite N2Nat.inj_succ.
    rewrite take_insert_lt, drop_insert_lt by lia.
    destruct (lookup_lt_is_Some_2 b (N.to_nat i)) as [y Hy]; [lia|].
    rewrite (take_S_r _ _ _ Hy), insert_app_r_alt by (rewrite length_take; lia).
    rewrite length_take_le, Nat.sub_diag by lia. simpl.
    rewrite <- (assoc_L (++)). simpl. by rewrite Nat.add_succ_r.
Qed.

Lemma assign_from_Ok init i a b :
  ArrayPtr.memory_ a = Some b → (N.to_nat i + length init ≤ length b)%nat →
  SimpleVector.assign_from i init a
  = Ok (ArrayPtr.mk
          (Some (take (N.to_nat i) b ++ init
                 ++ drop (N.to_nat i + length init) b))
          (ArrayPtr.size_ a) (ArrayPtr.capacity_ a)).
Proof.
  revert i a b. induction init as [|v init IH]; intros i a b Hm Hle; simpl in *.
  - rewrite Nat.add_0_r, take_drop. destruct a; simpl in *; by subst.
  - rewrite (set_Ok _ b) by (done || lia). simpl.
    rewrite (IH _ _ (<[N.to_nat i:=v]> b))
      by (done || rewrite length_insert; lia).
    simpl. do 3 f_equal.
    rewrite N2Nat.inj_succ.
    rewrite take_insert_lt, drop_insert_lt by lia.
    destruct (lookup_lt_is_Some_2 b (N.to_nat i)) as [y Hy]; [lia|].
    rewrite (take_S_r _ _ _ Hy), insert_app_r_alt by (rewrite length_take; lia).
    rewrite length_take_le, Nat.sub_diag by lia. simpl.
    rewrite <- (assoc_L (++)). simpl. by rewrite Nat.add_succ_r.
Qed.

(** [ArrayPtr(size)] with its allocation honoured *)
Lemma ctor_size_Ok n :
  n ≤ Block.max_len →
  ArrayPtr.ctor_size true n
  = Ok (if n =? 0 then ArrayPtr.empty
        else ArrayPtr.mk (Some (replicate (N.to_nat n) fill_value)) n n).
Proof.
  intros Hn. unfold ArrayPtr.ctor_size.
  destruct (N.eqb_spec n 0) as [->|Hnz]; [done|].
  rewrite (proj2 (N.ltb_lt 0 n)) by lia.
  rewrite Resize_grow by (apply wf_empty || done || simpl; lia).
  simpl. do 4 f_equal. lia.
Qed.

Lemma elements_mk b (s c : N) :
  SimpleVector.elements (SimpleVector.mk (ArrayPtr.mk (Some b) s c))
  = take (N.to_nat s) b.
Proof. done. Qed.
End ctor_facts.

Section reserve_push.
Context {T : Type} `{!ElemType T}.
Local Open Scope N_scope.

Lemma push_all_room (items : list T) (this : SimpleVector.t T) :
  wf (SimpleVector.array_ this) →
  SimpleVector.GetSize this + N.of_nat (length items)
  ≤ SimpleVector.GetCapacity this →
  ∃ this',
    push_all items this = Ok this'
    ∧ wf (SimpleVector.array_ this')
    ∧ SimpleVector.elements this' = SimpleVector.elements this ++ items
    ∧ SimpleVector.GetSize this'
      = SimpleVector.GetSize this + N.of_nat (length items)
    ∧ SimpleVector.GetCapacity this' = SimpleVector.GetCapacity this.
Proof.
  revert this. induction items as [|x items IH]; intros this Hwf Hroom.
  - exists this. simpl. rewrite app_nil_r, N.add_0_r. done.
  - simpl in *.
    destruct (PushBack_spec true x this Hwf)
      as (this1 & Hp & Hwf1 & Hel1 & Hsz1 & Hcap1); [lia|].
    assert (SimpleVector.GetCapacity this1 = SimpleVector.GetCapacity this)
      as Hc1.
    { rewrite Hcap1. unfold grown. by rewrite (proj2 (N.ltb_lt _ _)) by lia. }
    rewrite Hp. simpl.
    destruct (IH this1) as (this' & ? & ? & Hel' & Hsz' & Hcap'); [done | lia|].
    exists this'. split_and!; [done | done | | lia | congruence].
    by rewrite Hel', Hel1, <- (assoc_L (++)).
Qed.
End reserve_push.

(** ** [PopBack] *)

Section pop_facts.
Context {T : Type} `{!ElemType T}.

Lemma PopBack_nonempty (this : SimpleVector.t T) :
  wf (SimpleVector.array_ this) →
  SimpleVector.IsEmpty this = false →
  wf (SimpleVector.array_ (SimpleVector.PopBack this))
  ∧ (SimpleVector.GetSize (SimpleVector.PopBack this)
     = SimpleVector.GetSize this - 1)%N
  ∧ (∃ x, SimpleVector.elements this
          = SimpleVector.elements (SimpleVector.PopBack this) ++ [x])
  ∧ ArrayPtr.memory_ (SimpleVector.array_ (SimpleVector.PopBack this))
    = ArrayPtr.memory_ (SimpleVector.array_ this)
  ∧ SimpleVector.GetCapacity (SimpleVector.PopBack this)
    = SimpleVector.GetCapacity this.
Proof.
  intros Hwf He. pose proof Hwf as (Hlen & Hsz & Hmax). pose proof max_len_lt.
  split; [by apply PopBack_wf|].
  unfold SimpleVector.PopBack. rewrite He. simpl.
  unfold SimpleVector.IsEmpty, SimpleVector.GetSize, SimpleVector.GetCapacity,
    ArrayPtr.GetSize, ArrayPtr.GetCapacity in *.
  apply N.eqb_neq in He. simpl.
  rewrite size_sub_small by lia.
  split_and!; [done | | done..].
  rewrite (elements_block this). unfold SimpleVector.elements. simpl.
  unfold SimpleVector.GetSize, ArrayPtr.GetSize. simpl.
  rewrite wf_memory by (done || lia).
  set (b := block (SimpleVector.array_ this)) in *.
  set (n := ArrayPtr.size_ (SimpleVector.array_ this)) in *.
  destruct (lookup_lt_is_Some_2 b (N.to_nat (n - 1))) as [x Hx]; [lia|].
  exists x. rewrite <- (take_S_r _ _ _ Hx). f_equal. lia.
Qed.
End pop_facts.

(** ** Copy, move and swap in a store *)

Section copy_facts.
Context {T : Type} `{!ElemType T}.
Implicit Types (a o : ArrayPtr.t T) (σ : gmap nat (ArrayPtr.t T)).

(** the object the copy constructor builds from a well-formed one *)
Lemma copy_ctor_Ok o :
  wf o →
  ∃ a,
    ArrayPtr.copy_ctor true o = Ok a
    ∧ wf a
    ∧ SimpleVector.elements (SimpleVector.mk a)
      = SimpleVector.elements (SimpleVector.mk o)
    ∧ ArrayPtr.size_ a = ArrayPtr.size_ o
    ∧ ArrayPtr.capacity_ a = ArrayPtr.capacity_ o
    ∧ ArrayPtr.memory_ a ≠ None.
Proof.
  intros Hwf. pose proof Hwf as (Hlen & Hsz & Hmax).
  unfold ArrayPtr.copy_ctor. rewrite new_array_Ok by done.
  rewrite copy_out_Ok by (rewrite ?length_replicate; done || lia).
  simpl. eexists. split; [done|].
  split_and!; [| |done..].
  - unfold wf, block in *. simpl.
    rewrite length_app, length_take, length_drop, length_replicate.
    split_and!; lia.
  - rewrite elements_mk, (elements_block (SimpleVector.mk o)).
    unfold SimpleVector.GetSize, ArrayPtr.GetSize. simpl.
    rewrite take_app_le by (rewrite length_take; lia).
    by rewrite take_take, Nat.min_id.
Qed.

Lemma copy_ctor_refused o : ArrayPtr.copy_ctor false o = Throw bad_alloc.
Proof. done. Qed.

Lemma fresh_lookup σ : σ !! fresh (dom σ) = None.
Proof. apply not_elem_of_dom, is_fresh. Qed.

Lemma move_construct_Ok v other o σ :
  σ !! v = None → σ !! other = Some o →
  Program.move_construct v other σ
  = Ok (<[v := o]> (<[other := ArrayPtr.empty]> σ)).
Proof.
  intros Hv Ho. unfold Program.move_construct. rewrite Hv, Ho.
  by destruct o.
Qed.

Lemma move_assign_Ok this rhs a r σ :
  σ !! this = Some a → σ !! rhs = Some r → rhs ≠ this →
  Program.move_assign this rhs σ
  = Ok (<[this := r]> (<[rhs := ArrayPtr.empty]> σ)).
Proof.
  intros Ha Hr Hne. unfold Program.move_assign. rewrite Ha, Hr.
  rewrite decide_False by done. by destruct r.
Qed.

Lemma move_assign_self this a σ :
  σ !! this = Some a → Program.move_assign this this σ = Ok σ.
Proof.
  intros Ha. unfold Program.move_assign. rewrite Ha.
  by rewrite decide_True.
Qed.

Lemma swap_Ok v w a b σ :
  σ !! v = Some a → σ !! w = Some b →
  Program.swap v w σ = Ok (<[v := b]> (<[w := a]> σ)).
Proof.
  intros Hv Hw. unfold Program.swap.
  pose proof (fresh_lookup σ) as Hfresh.
  set (tmp := fresh (dom σ)) in *.
  assert (tmp ≠ v) as Htv by (intros Heq; rewrite Heq in Hfresh; congruence).
  assert (tmp ≠ w) as Htw by (intros Heq; rewrite Heq in Hfresh; congruence).
  rewrite (move_construct_Ok tmp v a σ) by done. simpl.
  set (σ1 := <[tmp := a]> (<[v := ArrayPtr.empty]> σ)).
  assert (σ1 !! v = Some ArrayPtr.empty) as Hv1.
  { unfold σ1. rewrite lookup_insert_ne by done. apply lookup_insert_eq. }
  assert (σ1 !! tmp = Some a) as Ht1 by apply lookup_insert_eq.
  destruct (decide (w = v)) as [->|Hne].
  - assert (a = b) as <- by congruence.
    rewrite (move_assign_self v _ σ1 Hv1). simpl.
    rewrite (move_assign_Ok v tmp _ a σ1 Hv1 Ht1) by done. simpl. f_equal.
    apply map_eq. intros k. unfold σ1.
    destruct (decide (k = tmp)) as [->|].
    { rewrite lookup_delete_eq. by rewrite !lookup_insert_ne by done. }
    rewrite lookup_delete_ne by done.
    destruct (decide (k = v)) as [->|]; [by rewrite !lookup_insert_eq|].
    by rewrite !lookup_insert_ne by done.
  - assert (σ1 !! w = Some b) as Hw1.
    { unfold σ1. by rewrite !lookup_insert_ne by done. }
    rewrite (move_assign_Ok v w _ b σ1 Hv1 Hw1) by done. simpl.
    set (σ2 := <[v := b]> (<[w := ArrayPtr.empty]> σ1)).
    assert (σ2 !! w = Some ArrayPtr.empty) as Hw2.
    { unfold σ2. rewrite lookup_insert_ne by done. apply lookup_insert_eq. }
    assert (σ2 !! tmp = Some a) as Ht2.
    { unfold σ2. by rewrite !lookup_insert_ne by done. }
    rewrite (move_assign_Ok w tmp _ a σ2 Hw2 Ht2) by done. simpl. f_equal.
    apply map_eq. intros k. unfold σ2, σ1.
    destruct (decide (k = tmp)) as [->|].
    { rewrite lookup_delete_eq. by rewrite !lookup_insert_ne by done. }
    rewrite lookup_delete_ne by done.
    destruct (decide (k = w)) as [->|].
    { rewrite lookup_insert_eq. rewrite (lookup_insert_ne _ v w) by done.
      by rewrite lookup_insert_eq. }
    rewrite (lookup_insert_ne _ w k), (lookup_insert_ne _ tmp k) by done.
    destruct (decide (k = v)) as [->|]; [by rewrite !lookup_insert_eq|].
    by rewrite !lookup_insert_ne by done.
Qed.
End copy_facts.

(** * The claims *)

(** ** Scenarios, by evaluation *)

(** The scenario of the specification holds on the code for [int]:
    [Insert(begin() + 1, 99)] on [{1,2,3}] gives [{1,99,2,3}] and an
    iterator to the 99. *)
Lemma Insert_scenario_123 :
  (r ← SimpleVector.Insert true (Slot 1) (SimpleVector.Outside 99%Z) v123;
   x ← SimpleVector.deref r.1 r.2;
   Ok (r.1, SimpleVector.elements r.2, x))
  = Ok (Slot 1, [1; 99; 2; 3]%Z, 99%Z).
Proof. reflexivity. Qed.

(** The scenario of the specification continued: erasing the 99 gives
    [{1,2,3}] back, and the returned iterator is at the 2. *)
Lemma Erase_scenario_123 :
  (r ← insert_then_erase false true (Slot 1) (SimpleVector.Outside 99%Z) v123;
   x ← SimpleVector.deref r.1 r.2;
   Ok (r.1, SimpleVector.elements r.2, SimpleVector.GetSize r.2, x))
  = Ok (Slot 1, [1; 2; 3]%Z, 3%N, 2%Z).
Proof. reflexivity. Qed.

(** For an element type that [std::copy] copies slot by slot, as a class
    that holds a [std::string], the forward copy of the shift reads slots it
    has already overwritten: [Insert(begin() + 1, "x")] on [{"a","b","c"}]
    leaves [{"a","x","b","b"}] (and [{"a","x","",""}] through the move
    iterators of the other overload). *)
Lemma Insert_scenario_strings :
  let v := SimpleVector.mk (ArrayPtr.mk (Some ["a"; "b"; "c"]%string) 3 3) in
  SimpleVector.ctor_list true ["a"; "b"; "c"]%string = Ok v
  ∧ (SimpleVector.elements ∘ snd)
      <$> SimpleVector.Insert true (Slot 1) (SimpleVector.Outside "x"%string) v
    = Ok ["a"; "x"; "b"; "b"]%string
  ∧ (SimpleVector.elements ∘ snd)
      <$> SimpleVector.Insert_move true (Slot 1)
            (SimpleVector.Outside "x"%string) v
    = Ok ["a"; "x"; ""; ""]%string.
Proof. split_and!; reflexivity. Qed.

(** [SimpleVector<int> v(Reserve(2)); v.PushBack(1);]: size 1, capacity 2 *)
Lemma size1_capacity2 :
  SimpleVector.ctor_reserve true 2 ≫= SimpleVector.PushBack true 1%Z
  = Ok (SimpleVector.mk (ArrayPtr.mk (Some [1; 0]%Z) 1 2)).
Proof. reflexivity. Qed.

(** [Insert] at [begin()] of a fresh vector, any element type, either
    overload, whatever [value] refers to *)
Lemma Insert_fresh_overrun {T : Type} `{!ElemType T} (move : bool)
    (value : SimpleVector.arg T) :
  SimpleVector.Insert_gen move true Null value SimpleVector.empty
  = Fault (oob_write 1).
Proof.
  apply (Insert_gen_overrun move true 0 value SimpleVector.empty); done.
Qed.

(** ** C1 to C10 *)

(** C1 at [SimpleVector<int> v; v.Insert(v.begin(), x);] (and for any
    element type, either overload, whatever the argument refers to):
    [begin()] of the fresh vector is [nullptr]; the capacity becomes 1 and
    the shift then writes slot 1 of the one-slot block.  No vector [{x}] and
    no iterator come back. *)
Theorem Insert_into_fresh_vector_overruns
    {T : Type} `{!ElemType T} (move : bool) (value : SimpleVector.arg T) :
  SimpleVector.begin (SimpleVector.empty (T:=T)) = Ok Null
  ∧ SimpleVector.Insert_gen move true Null value SimpleVector.empty
    = Fault (oob_write 1).
Proof.
  split; [done | apply Insert_fresh_overrun].
Qed.

(** C2 at the same input: [Erase(Insert(begin(), x))] on a fresh vector
    does not give the vector back, the [Insert] being undefined. *)
Theorem Erase_of_Insert_into_fresh_vector
    {T : Type} `{!ElemType T} (move : bool) (value : SimpleVector.arg T) :
  insert_then_erase move true Null value SimpleVector.empty
  = Fault (oob_write 1).
Proof.
  unfold insert_then_erase.
  by rewrite Insert_fresh_overrun.
Qed.

(** C3. On a well-formed vector [PushBack] leaves the capacity alone when
    there is room ([size < capacity]); when the vector is full and the
    allocation succeeds the capacity becomes 1 from 0 and [2 * c] from
    [c > 0]; in both cases the item is appended.  No [PushBack] that returns
    lowers the capacity.  From a fresh vector, after [n > 0] calls the
    capacity is the least power of two that is at least [n]: 1, 2, 4, 4, 8,
    8, 8, 8, 16, ... *)
Theorem PushBack_doubles_capacity_when_full
    {T : Type} `{!ElemType T} (x : T) (this : SimpleVector.t T)
    (items : list T) :
  wf (SimpleVector.array_ this) →
  (2 * SimpleVector.GetCapacity this ≤ Block.max_len)%N →
  (N.of_nat (length items) ≤ 2 ^ 62)%N →
  ((SimpleVector.GetSize this < SimpleVector.GetCapacity this)%N →
   ∀ heap_ok, ∃ this',
     SimpleVector.PushBack heap_ok x this = Ok this'
     ∧ SimpleVector.GetCapacity this' = SimpleVector.GetCapacity this
     ∧ SimpleVector.elements this' = SimpleVector.elements this ++ [x])
  ∧ (SimpleVector.GetSize this = SimpleVector.GetCapacity this →
     ∃ this',
       SimpleVector.PushBack true x this = Ok this'
       ∧ SimpleVector.GetCapacity this'
         = (if (SimpleVector.GetCapacity this =? 0)%N then 1
            else 2 * SimpleVector.GetCapacity this)%N
       ∧ SimpleVector.elements this' = SimpleVector.elements this ++ [x])
  ∧ (∀ heap_ok this',
       SimpleVector.PushBack heap_ok x this = Ok this' →
       (SimpleVector.GetCapacity this ≤ SimpleVector.GetCapacity this')%N)
  ∧ (∃ this',
       push_all items SimpleVector.empty = Ok this'
       ∧ SimpleVector.elements this' = items
       ∧ SimpleVector.GetCapacity this'
         = doubled_capacity (N.of_nat (length items)))
  ∧ doubled_capacity <$> [1; 2; 3; 4; 5; 6; 7; 8; 9]%N
    = [1; 2; 4; 4; 8; 8; 8; 8; 16]%N.
Proof.
  intros Hwf Hmax Hlen. split_and!.
  - intros Hroom heap_ok.
    destruct (PushBack_spec heap_ok x this Hwf) as (this' & ? & _ & ? & _ & Hc);
      [lia|].
    exists this'. split_and!; [done | | done].
    rewrite Hc. unfold grown. by rewrite (proj2 (N.ltb_lt _ _)).
  - intros Hfull.
    destruct (PushBack_spec true x this Hwf) as (this' & ? & _ & ? & _ & Hc);
      [done|].
    exists this'. split_and!; [done | | done].
    rewrite Hc. unfold grown. by rewrite (proj2 (N.ltb_ge _ _)) by lia.
  - intros heap_ok this' Hp. by apply PushBack_evolves in Hp as [? _].
  - destruct (push_all_spec items [] SimpleVector.empty)
      as (this' & ? & _ & ? & _ & ?); try done.
    exists this'. done.
  - done.
Qed.

Lemma PushBack_doubles_capacity_when_full_witness :
  wf (SimpleVector.array_ v123)
  ∧ (2 * SimpleVector.GetCapacity v123 ≤ Block.max_len)%N
  ∧ (N.of_nat (length [1; 2; 3; 4; 5]%Z) ≤ 2 ^ 62)%N
  ∧ SimpleVector.GetSize v123 = SimpleVector.GetCapacity v123
  ∧ (∃ this',
       SimpleVector.PushBack true 4%Z v123 = Ok this'
       ∧ SimpleVector.GetCapacity this'
         = (if (SimpleVector.GetCapacity v123 =? 0)%N then 1
            else 2 * SimpleVector.GetCapacity v123)%N
       ∧ SimpleVector.elements this' = SimpleVector.elements v123 ++ [4%Z])
  ∧ (∃ this',
       push_all [1; 2; 3; 4; 5]%Z SimpleVector.empty = Ok this'
       ∧ SimpleVector.elements this' = [1; 2; 3; 4; 5]%Z
       ∧ SimpleVector.GetCapacity this'
         = doubled_capacity (N.of_nat (length [1; 2; 3; 4; 5]%Z))).
Proof.
  assert (wf (SimpleVector.array_ v123)) as Hwf
    by (unfold wf, block, v123, Block.max_len; simpl; lia).
  assert (2 * SimpleVector.GetCapacity v123 ≤ Block.max_len)%N as Hmax
    by (unfold SimpleVector.GetCapacity, ArrayPtr.GetCapacity, Block.max_len,
          v123; simpl; lia).
  assert (N.of_nat (length [1; 2; 3; 4; 5]%Z) ≤ 2 ^ 62)%N as Hlen
    by (simpl; lia).
  assert (SimpleVector.GetSize v123 = SimpleVector.GetCapacity v123) as Hfull
    by reflexivity.
  pose proof (PushBack_doubles_capacity_when_full
                4%Z v123 [1; 2; 3; 4; 5]%Z Hwf Hmax Hlen)
    as (_ & Hgrow & _ & Hall & _).
  split_and!; [exact Hwf | exact Hmax | exact Hlen | exact Hfull
              | exact (Hgrow Hfull) | exact Hall].
Defined.

(** C4 at [SimpleVector<int*> v; v.Resize(3);] with an allocation that
    fails, and at [v.Resize(SIZE_MAX)], whose allocation always fails:
    [Reserve] swallows the failure, [Resize] sets the size all the same, and
    the vector is left with [GetSize() > GetCapacity()].  That state is
    reachable through the public interface.  The same happens for every
    [Type] that is not arithmetic; for [int] the same calls write through
    the null pointer. *)
Theorem Resize_after_failed_allocation_breaks_size_bound :
  SimpleVector.Resize false 3 (SimpleVector.empty (T:=int_ptr))
  = Ok (SimpleVector.mk (ArrayPtr.mk None 3 0))
  ∧ SimpleVector.Resize true SizeT.max (SimpleVector.empty (T:=int_ptr))
    = Ok (SimpleVector.mk (ArrayPtr.mk None SizeT.max 0))
  ∧ Program.reachable (ArrayPtr.mk (T:=int_ptr) None 3 0)
  ∧ ¬ (SimpleVector.GetSize
         (SimpleVector.mk (ArrayPtr.mk (T:=int_ptr) None 3 0))
       ≤ SimpleVector.GetCapacity
           (SimpleVector.mk (ArrayPtr.mk (T:=int_ptr) None 3 0)))%N
  ∧ (∀ (T : Type) (E : ElemType T) (new_size : N),
       is_arithmetic (T:=T) = false →
       SimpleVector.Resize false new_size (SimpleVector.empty (T:=T))
       = Ok (SimpleVector.mk (ArrayPtr.mk None new_size 0)))
  ∧ SimpleVector.Resize false 3 (SimpleVector.empty (T:=Z))
    = Fault null_deref.
Proof.
  split_and!; [reflexivity | reflexivity | | | | reflexivity].
  - exists [(true, Program.NewDefault 0); (false, Program.Resize 0 3)],
      {[ 0%nat := ArrayPtr.mk None 3 0 ]}, 0%nat.
    split; reflexivity.
  - unfold SimpleVector.GetSize, SimpleVector.GetCapacity. simpl. lia.
  - intros T E new_size Hna.
    unfold SimpleVector.Resize, ArrayPtr.Resize. simpl.
    rewrite Reserve_refused by done. simpl. by rewrite Hna.
Qed.

(** C5. When the allocation made by [Reserve] fails, [Reserve] returns
    normally (nothing is thrown) and the buffer is exactly the one it was
    given: same pointer and block, same size, same capacity. The same holds
    for [SimpleVector::Reserve], which forwards to it. *)
Theorem Reserve_allocation_failure_keeps_state
    {T : Type} `{!ElemType T} (heap_ok : bool) (new_capacity : N)
    (a : ArrayPtr.t T) :
  Block.new_array heap_ok value_init new_capacity = None →
  ArrayPtr.Reserve heap_ok new_capacity a = Ok a
  ∧ SimpleVector.Reserve heap_ok new_capacity (SimpleVector.mk a)
    = Ok (SimpleVector.mk a).
Proof.
  intros Hfail. unfold SimpleVector.Reserve. simpl.
  by rewrite (Reserve_refused _ _ _ Hfail).
Qed.

Lemma Reserve_allocation_failure_keeps_state_witness :
  Block.new_array false (value_init (T:=Z)) 10 = None
  ∧ ArrayPtr.Reserve false 10 (SimpleVector.array_ v123)
    = Ok (SimpleVector.array_ v123)
  ∧ SimpleVector.Reserve false 10 v123 = Ok v123.
Proof.
  split; [reflexivity|].
  apply (Reserve_allocation_failure_keeps_state false 10
           (SimpleVector.array_ v123)).
  reflexivity.
Defined.

(** C6. [At(i)] throws [std::out_of_range] exactly when [i >= GetSize()],
    in every state; on a well-formed vector and for [i < GetSize()] it
    returns the element at position [i], the one [operator[]] gives. *)
Theorem At_is_bounds_checked
    {T : Type} `{!ElemType T} (this : SimpleVector.t T) (i : N) :
  (SimpleVector.At i this = Throw out_of_range
   ↔ (SimpleVector.GetSize this ≤ i)%N)
  ∧ (wf (SimpleVector.array_ this) →
     (i < SimpleVector.GetSize this)%N →
     ∃ x, SimpleVector.At i this = Ok x
          ∧ SimpleVector.elements this !! N.to_nat i = Some x
          ∧ SimpleVector.get i this = Ok x).
Proof.
  unfold SimpleVector.At, ArrayPtr.At, SimpleVector.GetSize, ArrayPtr.GetSize,
    SimpleVector.get.
  split.
  - destruct (N.leb_spec (ArrayPtr.size_ (SimpleVector.array_ this)) i).
    + done.
    + split; [|lia]. unfold ArrayPtr.get, Block.read.
      repeat case_match; done.
  - intros Hwf Hi. pose proof Hwf as (Hlen & Hsz & _).
    rewrite (proj2 (N.leb_gt _ _)) by done.
    rewrite elements_block.
    unfold SimpleVector.GetSize, ArrayPtr.GetSize.
    assert (ArrayPtr.memory_ (SimpleVector.array_ this)
            = Some (block (SimpleVector.array_ this))) as Hm
      by (apply wf_memory; [done | lia]).
    unfold ArrayPtr.get. rewrite Hm.
    destruct (lookup_lt_is_Some_2 (block (SimpleVector.array_ this))
                (N.to_nat i)) as [x Hx]; [lia|].
    exists x. rewrite (read_Ok _ _ _ Hx).
    split_and!; [done | | done].
    rewrite lookup_take_lt by lia. done.
Qed.

Lemma At_is_bounds_checked_witness :
  wf (SimpleVector.array_ v123)
  ∧ (1 < SimpleVector.GetSize v123)%N
  ∧ (SimpleVector.At 3 v123 = Throw out_of_range
     ↔ (SimpleVector.GetSize v123 ≤ 3)%N)
  ∧ ∃ x, SimpleVector.At 1 v123 = Ok x
         ∧ SimpleVector.elements v123 !! N.to_nat 1 = Some x
         ∧ SimpleVector.get 1 v123 = Ok x.
Proof.
  assert (wf (SimpleVector.array_ v123)) as Hwf
    by (unfold wf, block, v123, Block.max_len; simpl; lia).
  assert (1 < SimpleVector.GetSize v123)%N as Hlt by reflexivity.
  split_and!; [exact Hwf | exact Hlt | |].
  - exact (proj1 (At_is_bounds_checked v123 3)).
  - exact (proj2 (At_is_bounds_checked v123 1) Hwf Hlt).
Defined.

(** C7, as stated, fails: the copy of a default-constructed vector owns the
    block made by [new Type[0]], a non-null pointer, with capacity 0. *)
Lemma copy_of_empty_has_block_without_capacity :
  ¬ (∀ a : ArrayPtr.t Z,
       Program.reachable a →
       ArrayPtr.memory_ a ≠ None ↔ (0 < ArrayPtr.capacity_ a)%N).
Proof.
  intros H.
  assert (Program.reachable (ArrayPtr.mk (T:=Z) (Some []) 0 0)) as Hr.
  { exists [(true, Program.NewDefault 0); (true, Program.NewCopy 1 0)],
      (<[ 1%nat := ArrayPtr.mk (Some []) 0 0 ]>
         {[ 0%nat := ArrayPtr.empty ]}), 1%nat.
    split; reflexivity. }
  apply H in Hr as [Hr _]. simpl in Hr.
  assert (0 < 0)%N; [by apply Hr | lia].
Qed.

(** C7, as the code has it. In every state a vector can reach through the
    public interface, whatever the heap answers, a positive capacity comes
    with a non-null pointer. *)
Theorem capacity_implies_block
    {T : Type} `{!ElemType T} (a : ArrayPtr.t T) :
  Program.reachable a →
  (0 < ArrayPtr.capacity_ a)%N →
  ArrayPtr.memory_ a ≠ None.
Proof.
  intros Hr Hpos Hn. apply reachable_null_ok in Hr. specialize (Hr Hn). lia.
Qed.

Lemma v123_reachable : Program.reachable (SimpleVector.array_ v123).
Proof.
  exists [(true, Program.NewList 0 [1; 2; 3]%Z)],
    {[ 0%nat := SimpleVector.array_ v123 ]}, 0%nat.
  split; reflexivity.
Defined.

Lemma capacity_implies_block_witness :
  Program.reachable (SimpleVector.array_ v123)
  ∧ (0 < ArrayPtr.capacity_ (SimpleVector.array_ v123))%N
  ∧ ArrayPtr.memory_ (SimpleVector.array_ v123) ≠ None.
Proof.
  assert (0 < ArrayPtr.capacity_ (SimpleVector.array_ v123))%N as Hpos
    by reflexivity.
  split_and!; [exact v123_reachable | exact Hpos |].
  exact (capacity_implies_block _ v123_reachable Hpos).
Defined.

(** C8. On a well-formed vector, [Resize(new_size)] with [new_size] above
    the capacity (and an allocation that succeeds) leaves capacity and size
    equal to [new_size], keeps the elements and appends
    [new_size - old_size] slots holding zero (arithmetic [Type]) or [Type()];
    with [new_size <= old_size] only the size field changes; and
    [Resize(5)] on [{1,2,3}] gives [{1,2,3,0,0}]. *)
Theorem Resize_reallocates_exactly
    {T : Type} `{!ElemType T} (new_size : N) (this : SimpleVector.t T) :
  wf (SimpleVector.array_ this) →
  ((SimpleVector.GetCapacity this < new_size)%N →
   (new_size ≤ Block.max_len)%N →
   ∃ this',
     SimpleVector.Resize true new_size this = Ok this'
     ∧ SimpleVector.GetCapacity this' = new_size
     ∧ SimpleVector.GetSize this' = new_size
     ∧ SimpleVector.elements this'
       = SimpleVector.elements this
         ++ replicate (N.to_nat (new_size - SimpleVector.GetSize this))
              fill_value)
  ∧ ((new_size ≤ SimpleVector.GetSize this)%N →
     ∀ heap_ok,
       SimpleVector.Resize heap_ok new_size this
       = Ok (SimpleVector.mk
               (ArrayPtr.SetSize new_size (SimpleVector.array_ this))))
  ∧ SimpleVector.ctor_list true [1; 2; 3]%Z = Ok v123
  ∧ SimpleVector.elements <$> SimpleVector.Resize true 5 v123
    = Ok [1; 2; 3; 0; 0]%Z.
Proof.
  intros Hwf. pose proof Hwf as (Hlen & Hsz & _).
  split_and!; [| |done..].
  - intros Hcap Hmax. unfold SimpleVector.Resize.
    unfold SimpleVector.GetCapacity, ArrayPtr.GetCapacity in Hcap.
    rewrite Resize_grow by done. simpl. eexists. split; [done|].
    split_and!; [done..|].
    rewrite (elements_block this).
    unfold SimpleVector.elements, SimpleVector.GetSize, ArrayPtr.GetSize.
    simpl. apply take_ge.
    rewrite length_app, length_take, length_replicate. lia.
  - intros Hle heap_ok. unfold SimpleVector.Resize.
    by rewrite Resize_shrink.
Qed.

Lemma Resize_reallocates_exactly_witness :
  wf (SimpleVector.array_ v123)
  ∧ (SimpleVector.GetCapacity v123 < 5)%N
  ∧ (5 ≤ Block.max_len)%N
  ∧ ∃ this',
      SimpleVector.Resize true 5 v123 = Ok this'
      ∧ SimpleVector.GetCapacity this' = 5%N
      ∧ SimpleVector.GetSize this' = 5%N
      ∧ SimpleVector.elements this'
        = SimpleVector.elements v123
          ++ replicate (N.to_nat (5 - SimpleVector.GetSize v123)) fill_value.
Proof.
  assert (wf (SimpleVector.array_ v123)) as Hwf
    by (unfold wf, block, v123, Block.max_len; simpl; lia).
  assert (SimpleVector.GetCapacity v123 < 5)%N as Hlt by reflexivity.
  assert (5 ≤ Block.max_len)%N as Hmax by (unfold Block.max_len; lia).
  split_and!; [exact Hwf | exact Hlt | exact Hmax |].
  exact (proj1 (Resize_reallocates_exactly 5 v123 Hwf) Hlt Hmax).
Defined.

(** C9. Moving the vector at [s] into a distinct vector at [t], by move
    construction ([t] is new) or by move assignment ([t] is live), leaves at
    [s] the state of a default-constructed vector (size 0), on which
    [PushBack] does what it does on a fresh vector and yields the
    one-element vector; [t] ends with the block, the size, the capacity and
    so the elements that [s] had. *)
Theorem move_leaves_source_empty
    {T : Type} `{!ElemType T} (σ : gmap nat (ArrayPtr.t T)) (s t : nat)
    (src : ArrayPtr.t T) (c : Program.call T) (heap_ok : bool) (x : T) :
  σ !! s = Some src →
  s ≠ t →
  (c = Program.NewMove t s ∧ σ !! t = None)
  ∨ (c = Program.AssignMove t s ∧ is_Some (σ !! t)) →
  ∃ σ' src' dst',
    Program.exec heap_ok c σ = Ok σ'
    ∧ σ' !! s = Some src'
    ∧ σ' !! t = Some dst'
    ∧ src' = ArrayPtr.empty
    ∧ SimpleVector.GetSize (SimpleVector.mk src') = 0%N
    ∧ ArrayPtr.memory_ dst' = ArrayPtr.memory_ src
    ∧ ArrayPtr.size_ dst' = ArrayPtr.size_ src
    ∧ ArrayPtr.capacity_ dst' = ArrayPtr.capacity_ src
    ∧ SimpleVector.elements (SimpleVector.mk dst')
      = SimpleVector.elements (SimpleVector.mk src)
    ∧ SimpleVector.PushBack true x (SimpleVector.mk src')
      = SimpleVector.PushBack true x SimpleVector.empty
    ∧ ∃ this',
        SimpleVector.PushBack true x (SimpleVector.mk src') = Ok this'
        ∧ SimpleVector.elements this' = [x]
        ∧ SimpleVector.GetSize this' = 1%N.
Proof.
  intros Hs Hne Hc.
  assert (∃ this',
            SimpleVector.PushBack true x SimpleVector.empty = Ok this'
            ∧ SimpleVector.elements this' = [x]
            ∧ SimpleVector.GetSize this' = 1%N) as Hpush.
  { destruct (PushBack_spec true x SimpleVector.empty)
      as (this' & ? & _ & ? & ? & _); [done | done | by exists this']. }
  destruct Hc as [[-> Ht] | [-> [dst Ht]]]; simpl.
  - unfold Program.move_construct. rewrite Ht, Hs. simpl.
    eexists _, _, _. split; [done|].
    rewrite lookup_insert_ne, lookup_insert_eq, lookup_insert_eq by done.
    split_and!; done.
  - unfold Program.move_assign. rewrite Ht, Hs.
    rewrite decide_False by done. simpl.
    eexists _, _, _. split; [done|].
    rewrite lookup_insert_ne, lookup_insert_eq, lookup_insert_eq by done.
    split_and!; done.
Qed.

Lemma move_leaves_source_empty_witness :
  ({[ 0%nat := SimpleVector.array_ v123 ]} : gmap nat (ArrayPtr.t Z)) !! 0%nat
  = Some (SimpleVector.array_ v123)
  ∧ 0%nat ≠ 1%nat
  ∧ ∃ σ' src' dst',
      Program.exec true (Program.NewMove 1 0)
        ({[ 0%nat := SimpleVector.array_ v123 ]} : gmap nat (ArrayPtr.t Z))
      = Ok σ'
      ∧ σ' !! 0%nat = Some src'
      ∧ σ' !! 1%nat = Some dst'
      ∧ src' = ArrayPtr.empty
      ∧ SimpleVector.GetSize (SimpleVector.mk src') = 0%N
      ∧ ArrayPtr.memory_ dst' = ArrayPtr.memory_ (SimpleVector.array_ v123)
      ∧ ArrayPtr.size_ dst' = ArrayPtr.size_ (SimpleVector.array_ v123)
      ∧ ArrayPtr.capacity_ dst'
        = ArrayPtr.capacity_ (SimpleVector.array_ v123)
      ∧ SimpleVector.elements (SimpleVector.mk dst')
        = SimpleVector.elements (SimpleVector.mk (SimpleVector.array_ v123))
      ∧ SimpleVector.PushBack true 7%Z (SimpleVector.mk src')
        = SimpleVector.PushBack true 7%Z SimpleVector.empty
      ∧ ∃ this',
          SimpleVector.PushBack true 7%Z (SimpleVector.mk src') = Ok this'
          ∧ SimpleVector.elements this' = [7%Z]
          ∧ SimpleVector.GetSize this' = 1%N.
Proof.
  assert (({[ 0%nat := SimpleVector.array_ v123 ]}
             : gmap nat (ArrayPtr.t Z)) !! 0%nat
          = Some (SimpleVector.array_ v123)) as Hs by reflexivity.
  assert (0%nat ≠ 1%nat) as Hne by lia.
  split_and!; [exact Hs | exact Hne |].
  apply (move_leaves_source_empty _ 0%nat 1%nat (SimpleVector.array_ v123)
           (Program.NewMove 1 0) true 7%Z Hs Hne).
  left. split; reflexivity.
Defined.

(** C10. In [Insert] the shift copies the slots [index .. old_size] (one
    more than the elements) to [index + 1 .. old_size + 1].  Whenever the
    capacity at that point, [grown this], is below [old_size + 2], the slot
    [old_size + 1] lies outside the block and the write is undefined
    behaviour; this holds for both overloads.  It happens for the vector of
    size 1 and capacity 2 with an insertion at [begin()].  When there is
    room the same write shows in the block: inserting at [begin()] into
    [{1,2}] held in the block [1,2,3,4] overwrites slot 3. *)
Theorem Insert_shift_writes_past_the_end
    {T : Type} `{!ElemType T} (move heap_ok : bool) (i : N)
    (value : SimpleVector.arg T) (this : SimpleVector.t T) :
  wf (SimpleVector.array_ this) →
  (i ≤ SimpleVector.GetSize this)%N →
  (SimpleVector.GetSize this = SimpleVector.GetCapacity this →
   heap_ok = true ∧ (2 * SimpleVector.GetCapacity this ≤ Block.max_len)%N) →
  (grown this < SimpleVector.GetSize this + 2)%N →
  SimpleVector.Insert_gen move heap_ok (position i this) value this
  = Fault (oob_write (SimpleVector.GetSize this + 1))
  ∧ (grown this ≤ SimpleVector.GetSize this + 1)%N
  ∧ (let v := SimpleVector.mk (ArrayPtr.mk (Some [1; 0]%Z) 1 2) in
     SimpleVector.begin v = Ok (Slot 0)
     ∧ SimpleVector.Insert true (Slot 0) (SimpleVector.Outside 9%Z) v
       = Fault (oob_write 2)
     ∧ SimpleVector.Insert_move true (Slot 0) (SimpleVector.Outside 9%Z) v
       = Fault (oob_write 2))
  ∧ (let v := SimpleVector.mk (ArrayPtr.mk (Some [1; 2; 3; 4]%Z) 2 4) in
     snd <$> SimpleVector.Insert true (Slot 0) (SimpleVector.Outside 9%Z) v
     = Ok (SimpleVector.mk (ArrayPtr.mk (Some [9; 1; 2; 3]%Z) 3 4))).
Proof.
  intros Hwf Hi Hheap Hcap. split_and!.
  - by apply Insert_gen_overrun.
  - lia.
  - done.
  - done.
Qed.

Lemma Insert_shift_writes_past_the_end_witness :
  let v := SimpleVector.mk (ArrayPtr.mk (Some [1; 0]%Z) 1 2) in
  wf (SimpleVector.array_ v)
  ∧ (0 ≤ SimpleVector.GetSize v)%N
  ∧ (SimpleVector.GetSize v = SimpleVector.GetCapacity v →
     true = true ∧ (2 * SimpleVector.GetCapacity v ≤ Block.max_len)%N)
  ∧ (grown v < SimpleVector.GetSize v + 2)%N
  ∧ SimpleVector.Insert_gen false true (position 0 v)
      (SimpleVector.Outside 9%Z) v
    = Fault (oob_write (SimpleVector.GetSize v + 1)).
Proof.
  intros v.
  assert (wf (SimpleVector.array_ v)) as Hwf
    by (unfold wf, block, v, Block.max_len; simpl; lia).
  assert (0 ≤ SimpleVector.GetSize v)%N as Hi by lia.
  assert (grown v < SimpleVector.GetSize v + 2)%N as Hcap by reflexivity.
  assert (SimpleVector.GetSize v = SimpleVector.GetCapacity v →
          true = true ∧ (2 * SimpleVector.GetCapacity v ≤ Block.max_len)%N)
    as Hheap by (intros Hfull; vm_compute in Hfull; lia).
  split_and!; [exact Hwf | exact Hi | exact Hheap | exact Hcap |].
  exact (proj1 (Insert_shift_writes_past_the_end false true 0
                  (SimpleVector.Outside 9%Z) v Hwf Hi Hheap Hcap)).
Defined.

(** * Further properties of the code *)



(** X2. [SimpleVector(size, value)], its allocation honoured, is a
    well-formed vector of [size] copies of [value], with capacity [size]. *)
Theorem fill_constructor_gives_copies
    {T : Type} `{!ElemType T} (size : N) (value : T) :
  (size ≤ Block.max_len)%N →
  ∃ this,
    SimpleVector.ctor_fill true size value = Ok this
    ∧ wf (SimpleVector.array_ this)
    ∧ SimpleVector.elements this = replicate (N.to_nat size) value
    ∧ SimpleVector.GetSize this = size
    ∧ SimpleVector.GetCapacity this = size.
Proof.
  intros Hn. unfold SimpleVector.ctor_fill. rewrite ctor_size_Ok by done.
  simpl. destruct (N.eqb_spec size 0) as [->|Hnz].
  - simpl. eexists. split; [done|]. split_and!; [apply wf_empty | done..].
  - unfold ArrayPtr.GetSize. simpl.
    erewrite fill_Ok; [|done|rewrite length_replicate; simpl; lia].
    simpl. eexists. split; [done|].
    rewrite drop_ge, app_nil_r by (rewrite length_replicate; lia).
    split_and!; [| |done..].
    + unfold wf, block. simpl. rewrite length_replicate. lia.
    + rewrite elements_mk. apply take_ge. rewrite length_replicate. lia.
Qed.

Lemma fill_constructor_gives_copies_witness :
  (3 ≤ Block.max_len)%N
  ∧ ∃ this : SimpleVector.t Z,
      SimpleVector.ctor_fill true 3 7%Z = Ok this
      ∧ wf (SimpleVector.array_ this)
      ∧ SimpleVector.elements this = replicate (N.to_nat 3) 7%Z
      ∧ SimpleVector.GetSize this = 3%N
      ∧ SimpleVector.GetCapacity this = 3%N.
Proof.
  assert (3 ≤ Block.max_len)%N as Hn by (unfold Block.max_len; lia).
  split; [exact Hn|].
  exact (fill_constructor_gives_copies 3 7%Z Hn).
Defined.

(** X3. [SimpleVector(std::initializer_list)], its allocation honoured, holds
    the elements of the list in order, with size and capacity the length of
    the list. *)
Theorem list_constructor_holds_the_list
    {T : Type} `{!ElemType T} (init : list T) :
  (N.of_nat (length init) ≤ Block.max_len)%N →
  ∃ this,
    SimpleVector.ctor_list true init = Ok this
    ∧ wf (SimpleVector.array_ this)
    ∧ SimpleVector.elements this = init
    ∧ SimpleVector.GetSize this = N.of_nat (length init)
    ∧ SimpleVector.GetCapacity this = N.of_nat (length init).
Proof.
  intros Hn. unfold SimpleVector.ctor_list. rewrite ctor_size_Ok by done.
  simpl. destruct (N.eqb_spec (N.of_nat (length init)) 0) as [Hz|Hnz].
  - destruct init; [|simpl in Hz; lia]. simpl.
    eexists. split; [done|]. split_and!; [apply wf_empty | done..].
  - erewrite assign_from_Ok; [|done|rewrite length_replicate; simpl; lia].
    simpl. eexists. split; [done|].
    rewrite drop_ge, app_nil_r by (rewrite length_replicate; lia).
    split_and!; [| |done..].
    + unfold wf, block. simpl. lia.
    + rewrite elements_mk. apply take_ge. lia.
Qed.

Lemma list_constructor_holds_the_list_witness :
  (N.of_nat (length [1; 2; 3]%Z) ≤ Block.max_len)%N
  ∧ ∃ this : SimpleVector.t Z,
      SimpleVector.ctor_list true [1; 2; 3]%Z = Ok this
      ∧ wf (SimpleVector.array_ this)
      ∧ SimpleVector.elements this = [1; 2; 3]%Z
      ∧ SimpleVector.GetSize this = N.of_nat (length [1; 2; 3]%Z)
      ∧ SimpleVector.GetCapacity this = N.of_nat (length [1; 2; 3]%Z).
Proof.
  assert (N.of_nat (length [1; 2; 3]%Z) ≤ Block.max_len)%N as Hn
    by (unfold Block.max_len; simpl; lia).
  split; [exact Hn|].
  exact (list_constructor_holds_the_list [1; 2; 3]%Z Hn).
Defined.

(** X4. [SimpleVector(Reserve(n))], its allocation honoured, is an empty
    well-formed vector of capacity [n]; pushing up to [n] items onto it then
    never changes the capacity, and the items are its elements in order. *)
Theorem reserving_constructor_avoids_reallocation
    {T : Type} `{!ElemType T} (n : N) (items : list T) :
  (n ≤ Block.max_len)%N →
  (N.of_nat (length items) ≤ n)%N →
  ∃ this this',
    ctor_proxy true (Reserve n) = Ok this
    ∧ wf (SimpleVector.array_ this)
    ∧ SimpleVector.GetSize this = 0%N
    ∧ SimpleVector.IsEmpty this = true
    ∧ SimpleVector.GetCapacity this = n
    ∧ push_all items this = Ok this'
    ∧ SimpleVector.elements this' = items
    ∧ SimpleVector.GetCapacity this' = n.
Proof.
  intros Hn Hlen.
  unfold ctor_proxy, Reserve, capacity, SimpleVector.ctor_reserve,
    ArrayPtr.ctor_size_capacity. simpl.
  destruct (Resize_wf true n ArrayPtr.empty wf_empty) as (a & Hr & Hwf & Hsz);
    [done|].
  rewrite Hr. simpl.
  assert (ArrayPtr.capacity_ a = n) as Hcap.
  { destruct (N.eq_dec n 0%N) as [->|Hnz].
    - rewrite Resize_shrink in Hr by (apply wf_empty || simpl; lia).
      by injection Hr as <-.
    - rewrite Resize_grow in Hr by (apply wf_empty || done || simpl; lia).
      by injection Hr as <-. }
  set (this := SimpleVector.mk (ArrayPtr.SetSize 0%N a)).
  assert (wf (SimpleVector.array_ this)) as Hwf0
    by (apply SetSize_wf; [done | lia]).
  destruct (push_all_room items this Hwf0) as (this' & Hp & _ & Hel & _ & Hc).
  { unfold SimpleVector.GetSize, SimpleVector.GetCapacity. simpl. lia. }
  exists this, this'. split_and!; try done.
  - rewrite Hel. unfold SimpleVector.elements. simpl.
    by destruct (ArrayPtr.memory_ a).
  - by rewrite Hc.
Qed.

Lemma reserving_constructor_avoids_reallocation_witness :
  (4 ≤ Block.max_len)%N
  ∧ (N.of_nat (length [1; 2; 3]%Z) ≤ 4)%N
  ∧ ∃ this this' : SimpleVector.t Z,
      ctor_proxy true (Reserve 4) = Ok this
      ∧ wf (SimpleVector.array_ this)
      ∧ SimpleVector.GetSize this = 0%N
      ∧ SimpleVector.IsEmpty this = true
      ∧ SimpleVector.GetCapacity this = 4%N
      ∧ push_all [1; 2; 3]%Z this = Ok this'
      ∧ SimpleVector.elements this' = [1; 2; 3]%Z
      ∧ SimpleVector.GetCapacity this' = 4%N.
Proof.
  assert (4 ≤ Block.max_len)%N as Hn by (unfold Block.max_len; lia).
  assert (N.of_nat (length [1; 2; 3]%Z) ≤ 4)%N as Hlen by (simpl; lia).
  split_and!; [exact Hn | exact Hlen |].
  exact (reserving_constructor_avoids_reallocation 4 [1; 2; 3]%Z Hn Hlen).
Defined.

(** X5. [Reserve(new_capacity)] on a well-formed vector, its allocation
    honoured, leaves a well-formed vector with the same size and elements
    and with capacity [max capacity new_capacity]: it never lowers the
    capacity and raises it to exactly the request. *)
Theorem Reserve_keeps_elements
    {T : Type} `{!ElemType T} (new_capacity : N) (this : SimpleVector.t T) :
  wf (SimpleVector.array_ this) →
  (new_capacity ≤ Block.max_len)%N →
  ∃ this',
    SimpleVector.Reserve true new_capacity this = Ok this'
    ∧ wf (SimpleVector.array_ this')
    ∧ SimpleVector.GetCapacity this'
      = (SimpleVector.GetCapacity this `max` new_capacity)%N
    ∧ SimpleVector.GetSize this' = SimpleVector.GetSize this
    ∧ SimpleVector.elements this' = SimpleVector.elements this.
Proof.
  intros Hwf Hmax. pose proof Hwf as (Hlen & Hsz & _).
  unfold SimpleVector.Reserve, SimpleVector.GetCapacity, SimpleVector.GetSize,
    ArrayPtr.GetCapacity, ArrayPtr.GetSize.
  destruct (N.le_gt_cases new_capacity
              (ArrayPtr.capacity_ (SimpleVector.array_ this))) as [Hin|Hout].
  - rewrite Reserve_enough by done. simpl. eexists. split; [done|].
    split_and!; [done | simpl; lia | done |]. by destruct this.
  - rewrite Reserve_grow by done. simpl. eexists. split; [done|].
    split_and!; [| simpl; lia | done |].
    + unfold wf, block in *. simpl.
      rewrite length_app, length_take, length_replicate. split_and!; lia.
    + rewrite elements_mk, (elements_block this).
      unfold SimpleVector.GetSize, ArrayPtr.GetSize.
      rewrite take_app_le by (rewrite length_take; lia).
      rewrite take_take. by rewrite Nat.min_id.
Qed.

Lemma Reserve_keeps_elements_witness :
  wf (SimpleVector.array_ v123)
  ∧ (10 ≤ Block.max_len)%N
  ∧ ∃ this',
      SimpleVector.Reserve true 10 v123 = Ok this'
      ∧ wf (SimpleVector.array_ this')
      ∧ SimpleVector.GetCapacity this'
        = (SimpleVector.GetCapacity v123 `max` 10)%N
      ∧ SimpleVector.GetSize this' = SimpleVector.GetSize v123
      ∧ SimpleVector.elements this' = SimpleVector.elements v123.
Proof.
  assert (wf (SimpleVector.array_ v123)) as Hwf
    by (unfold wf, block, v123, Block.max_len; simpl; lia).
  assert (10 ≤ Block.max_len)%N as Hmax by (unfold Block.max_len; lia).
  split_and!; [exact Hwf | exact Hmax |].
  exact (Reserve_keeps_elements 10 v123 Hwf Hmax).
Defined.

(** X6. [PopBack] on an empty vector changes nothing; on a non-empty
    well-formed vector it drops the last element and leaves the block and
    the capacity as they were. *)
Theorem PopBack_drops_last_element
    {T : Type} `{!ElemType T} (this : SimpleVector.t T) :
  wf (SimpleVector.array_ this) →
  (SimpleVector.IsEmpty this = true → SimpleVector.PopBack this = this)
  ∧ (SimpleVector.IsEmpty this = false →
     wf (SimpleVector.array_ (SimpleVector.PopBack this))
     ∧ (SimpleVector.GetSize (SimpleVector.PopBack this)
        = SimpleVector.GetSize this - 1)%N
     ∧ (∃ x, SimpleVector.elements this
             = SimpleVector.elements (SimpleVector.PopBack this) ++ [x])
     ∧ ArrayPtr.memory_ (SimpleVector.array_ (SimpleVector.PopBack this))
       = ArrayPtr.memory_ (SimpleVector.array_ this)
     ∧ SimpleVector.GetCapacity (SimpleVector.PopBack this)
       = SimpleVector.GetCapacity this).
Proof.
  intros Hwf. split.
  - intros He. unfold SimpleVector.PopBack. by rewrite He.
  - by apply PopBack_nonempty.
Qed.

Lemma PopBack_drops_last_element_witness :
  wf (SimpleVector.array_ v123)
  ∧ SimpleVector.IsEmpty v123 = false
  ∧ wf (SimpleVector.array_ (SimpleVector.PopBack v123))
  ∧ (SimpleVector.GetSize (SimpleVector.PopBack v123)
     = SimpleVector.GetSize v123 - 1)%N
  ∧ (∃ x, SimpleVector.elements v123
          = SimpleVector.elements (SimpleVector.PopBack v123) ++ [x])
  ∧ ArrayPtr.memory_ (SimpleVector.array_ (SimpleVector.PopBack v123))
    = ArrayPtr.memory_ (SimpleVector.array_ v123)
  ∧ SimpleVector.GetCapacity (SimpleVector.PopBack v123)
    = SimpleVector.GetCapacity v123.
Proof.
  assert (wf (SimpleVector.array_ v123)) as Hwf
    by (unfold wf, block, v123, Block.max_len; simpl; lia).
  assert (SimpleVector.IsEmpty v123 = false) as He by reflexivity.
  split_and!; [exact Hwf | exact He | ..];
    apply (proj2 (PopBack_drops_last_element v123 Hwf) He).
Defined.

(** X7. [PushBack(x); PopBack()] on a well-formed vector (the growth
    allocation honoured when the vector is full) gives back the elements and
    the size; the capacity is the one [PushBack] left. *)
Theorem PopBack_undoes_PushBack
    {T : Type} `{!ElemType T} (heap_ok : bool) (x : T)
    (this : SimpleVector.t T) :
  wf (SimpleVector.array_ this) →
  (SimpleVector.GetSize this = SimpleVector.GetCapacity this →
   heap_ok = true
   ∧ (2 * SimpleVector.GetCapacity this ≤ Block.max_len)%N) →
  ∃ this',
    SimpleVector.PopBack <$> SimpleVector.PushBack heap_ok x this = Ok this'
    ∧ SimpleVector.elements this' = SimpleVector.elements this
    ∧ SimpleVector.GetSize this' = SimpleVector.GetSize this
    ∧ SimpleVector.GetCapacity this' = grown this.
Proof.
  intros Hwf Hheap.
  destruct (PushBack_spec heap_ok x this Hwf Hheap)
    as (this1 & Hp & Hwf1 & Hel1 & Hsz1 & Hcap1).
  rewrite Hp. simpl. eexists. split; [done|].
  assert (SimpleVector.IsEmpty this1 = false) as He1.
  { unfold SimpleVector.IsEmpty, SimpleVector.GetSize in *.
    apply N.eqb_neq. lia. }
  destruct (PopBack_nonempty this1 Hwf1 He1)
    as (_ & Hsz' & (y & Hel') & _ & Hcap').
  split_and!; [| lia | congruence].
  rewrite Hel1 in Hel'. by apply app_inj_tail in Hel' as [? _].
Qed.

Lemma PopBack_undoes_PushBack_witness :
  wf (SimpleVector.array_ v123)
  ∧ (SimpleVector.GetSize v123 = SimpleVector.GetCapacity v123 →
     true = true ∧ (2 * SimpleVector.GetCapacity v123 ≤ Block.max_len)%N)
  ∧ ∃ this',
      SimpleVector.PopBack <$> SimpleVector.PushBack true 4%Z v123 = Ok this'
      ∧ SimpleVector.elements this' = SimpleVector.elements v123
      ∧ SimpleVector.GetSize this' = SimpleVector.GetSize v123
      ∧ SimpleVector.GetCapacity this' = grown v123.
Proof.
  assert (wf (SimpleVector.array_ v123)) as Hwf
    by (unfold wf, block, v123, Block.max_len; simpl; lia).
  assert (SimpleVector.GetSize v123 = SimpleVector.GetCapacity v123 →
          true = true
          ∧ (2 * SimpleVector.GetCapacity v123 ≤ Block.max_len)%N) as Hheap
    by (intros _; unfold SimpleVector.GetCapacity, ArrayPtr.GetCapacity,
          Block.max_len, v123; simpl; lia).
  split_and!; [exact Hwf | exact Hheap |].
  exact (PopBack_undoes_PushBack true 4%Z v123 Hwf Hheap).
Defined.

(** X8. [Clear] empties a well-formed vector and keeps its block and its
    capacity; when that capacity is positive the next [PushBack] allocates
    nothing: it returns, whatever the heap answers, with the one element
    and the same capacity. *)
Theorem Clear_keeps_the_storage
    {T : Type} `{!ElemType T} (heap_ok : bool) (x : T)
    (this : SimpleVector.t T) :
  wf (SimpleVector.array_ this) →
  (0 < SimpleVector.GetCapacity this)%N →
  SimpleVector.elements (SimpleVector.Clear this) = []
  ∧ SimpleVector.GetSize (SimpleVector.Clear this) = 0%N
  ∧ SimpleVector.GetCapacity (SimpleVector.Clear this)
    = SimpleVector.GetCapacity this
  ∧ ArrayPtr.memory_ (SimpleVector.array_ (SimpleVector.Clear this))
    = ArrayPtr.memory_ (SimpleVector.array_ this)
  ∧ ∃ this',
      SimpleVector.PushBack heap_ok x (SimpleVector.Clear this) = Ok this'
      ∧ SimpleVector.elements this' = [x]
      ∧ SimpleVector.GetCapacity this' = SimpleVector.GetCapacity this.
Proof.
  intros Hwf Hpos.
  assert (wf (SimpleVector.array_ (SimpleVector.Clear this))) as Hwf0
    by (apply SetSize_wf; [done | lia]).
  assert (SimpleVector.elements (SimpleVector.Clear this) = []) as Hel0.
  { unfold SimpleVector.elements, SimpleVector.Clear. simpl.
    by destruct (ArrayPtr.memory_ _). }
  split_and!; [done..|].
  destruct (PushBack_spec heap_ok x (SimpleVector.Clear this) Hwf0)
    as (this' & Hp & _ & Hel & _ & Hcap).
  { unfold SimpleVector.GetSize, SimpleVector.GetCapacity,
      ArrayPtr.GetSize, ArrayPtr.GetCapacity in *. simpl. lia. }
  exists this'. split_and!; [done | by rewrite Hel, Hel0 |].
  rewrite Hcap. unfold grown.
  unfold SimpleVector.GetSize, SimpleVector.GetCapacity,
    ArrayPtr.GetSize, ArrayPtr.GetCapacity in *. simpl.
  by rewrite (proj2 (N.ltb_lt _ _)).
Qed.

Lemma Clear_keeps_the_storage_witness :
  wf (SimpleVector.array_ v123)
  ∧ (0 < SimpleVector.GetCapacity v123)%N
  ∧ ∃ this',
      SimpleVector.PushBack false 7%Z (SimpleVector.Clear v123) = Ok this'
      ∧ SimpleVector.elements this' = [7%Z]
      ∧ SimpleVector.GetCapacity this' = SimpleVector.GetCapacity v123.
Proof.
  assert (wf (SimpleVector.array_ v123)) as Hwf
    by (unfold wf, block, v123, Block.max_len; simpl; lia).
  assert (0 < SimpleVector.GetCapacity v123)%N as Hpos by reflexivity.
  split_and!; [exact Hwf | exact Hpos |].
  apply (Clear_keeps_the_storage false 7%Z v123 Hwf Hpos).
Defined.

(** X9. [Resize(new_size)] with [size < new_size <= capacity] allocates
    nothing and keeps the capacity.  For an arithmetic [Type] the new
    elements are zero; for any other [Type] nothing is written and the new
    elements are whatever the block held in those slots: after [PopBack],
    [Resize] brings the popped element back (shown for a class that holds a
    text). *)
Theorem Resize_within_capacity
    {T : Type} `{!ElemType T} (heap_ok : bool) (new_size : N)
    (this : SimpleVector.t T) :
  wf (SimpleVector.array_ this) →
  (SimpleVector.GetSize this < new_size)%N →
  (new_size ≤ SimpleVector.GetCapacity this)%N →
  ∃ this',
    SimpleVector.Resize heap_ok new_size this = Ok this'
    ∧ SimpleVector.GetSize this' = new_size
    ∧ SimpleVector.GetCapacity this' = SimpleVector.GetCapacity this
    ∧ SimpleVector.elements this'
      = SimpleVector.elements this
        ++ (if is_arithmetic
            then replicate (N.to_nat (new_size - SimpleVector.GetSize this))
                   from_zero
            else take (N.to_nat (new_size - SimpleVector.GetSize this))
                   (drop (N.to_nat (SimpleVector.GetSize this))
                      (block (SimpleVector.array_ this)))).
Proof.
  intros Hwf Hlt Hle. pose proof Hwf as (Hlen & Hsz & _).
  unfold SimpleVector.Resize, SimpleVector.GetSize, SimpleVector.GetCapacity,
    ArrayPtr.GetSize, ArrayPtr.GetCapacity in *.
  rewrite Resize_within by done. simpl. eexists. split; [done|].
  split_and!; [done..|].
  rewrite elements_mk, (elements_block this).
  unfold SimpleVector.GetSize, ArrayPtr.GetSize.
  set (b := block (SimpleVector.array_ this)) in *.
  set (n := ArrayPtr.size_ (SimpleVector.array_ this)) in *.
  destruct is_arithmetic.
  - rewrite (assoc_L (++)).
    rewrite take_app_le
      by (rewrite length_app, length_take, length_replicate; lia).
    apply take_ge. rewrite length_app, length_take, length_replicate. lia.
  - rewrite take_take_drop. f_equal. lia.
Qed.

Lemma Resize_within_capacity_witness :
  let v := SimpleVector.PopBack
             (SimpleVector.mk (ArrayPtr.mk (Some ["a"; "b"]%string) 2 2)) in
  wf (SimpleVector.array_ v)
  ∧ (SimpleVector.GetSize v < 2)%N
  ∧ (2 ≤ SimpleVector.GetCapacity v)%N
  ∧ SimpleVector.elements v = ["a"]%string
  ∧ ∃ this',
      SimpleVector.Resize false 2 v = Ok this'
      ∧ SimpleVector.GetSize this' = 2%N
      ∧ SimpleVector.GetCapacity this' = SimpleVector.GetCapacity v
      ∧ SimpleVector.elements this'
        = SimpleVector.elements v
          ++ (if is_arithmetic (T:=string)
              then replicate (N.to_nat (2 - SimpleVector.GetSize v)) from_zero
              else take (N.to_nat (2 - SimpleVector.GetSize v))
                     (drop (N.to_nat (SimpleVector.GetSize v))
                        (block (SimpleVector.array_ v)))).
Proof.
  intros v.
  assert (wf (SimpleVector.array_ v)) as Hwf
    by (unfold wf, block; split_and!; by vm_compute).
  assert (SimpleVector.GetSize v < 2)%N as Hlt by reflexivity.
  assert (2 ≤ SimpleVector.GetCapacity v)%N as Hle by (by vm_compute).
  split_and!; [exact Hwf | exact Hlt | exact Hle | reflexivity |].
  exact (Resize_within_capacity false 2 v Hwf Hlt Hle).
Defined.

(** X10. [PushBack] on a full well-formed vector whose growth allocation
    the heap refuses does not report the failure: [Reserve] swallows it and
    the code goes on to write slot [capacity], outside the block (or through
    the null pointer of a vector that owns no block). *)
Theorem PushBack_after_refused_growth_is_undefined
    {T : Type} `{!ElemType T} (x : T) (this : SimpleVector.t T) :
  wf (SimpleVector.array_ this) →
  SimpleVector.GetSize this = SimpleVector.GetCapacity this →
  SimpleVector.PushBack false x this
  = Fault (match ArrayPtr.memory_ (SimpleVector.array_ this) with
           | None => null_deref
           | Some _ => oob_write (SimpleVector.GetCapacity this)
           end).
Proof.
  intros Hwf Hfull. pose proof max_len_lt.
  destruct this as [[m s c]].
  unfold wf, block, SimpleVector.GetSize, SimpleVector.GetCapacity,
    ArrayPtr.GetSize, ArrayPtr.GetCapacity in *.
  simpl in *. subst s. destruct Hwf as (Hlen & _ & Hmax).
  unfold SimpleVector.PushBack, SimpleVector.GrowIfNeed, SimpleVector.Resize,
    ArrayPtr.Resize, SimpleVector.GetSize, SimpleVector.GetCapacity,
    ArrayPtr.GetSize, ArrayPtr.GetCapacity.
  simpl.
  assert (∀ n, ArrayPtr.Reserve false n (ArrayPtr.mk m c c)
               = Ok (ArrayPtr.mk m c c)) as Hres
    by (intros n; by apply Reserve_refused).
  destruct (N.eqb_spec c 0) as [Hz|Hnz].
  - rewrite Hres. simpl. rewrite Hz in *.
    destruct m as [b|]; simpl in *.
    + assert (b = []) as -> by (destruct b; [done | simpl in Hlen; lia]).
      by destruct is_arithmetic.
    + by destruct is_arithmetic.
  - rewrite (proj2 (N.leb_le c c)) by lia.
    rewrite Hres. simpl.
    rewrite size_mul_small by (unfold Block.max_len in Hmax; lia).
    destruct m as [b|]; simpl in *; [|lia].
    destruct is_arithmetic; simpl.
    + replace (N.to_nat (c * 2 - c)) with (S (N.to_nat c - 1)) by lia.
      simpl. unfold ArrayPtr.set. simpl.
      rewrite write_oob by lia. simpl. do 2 f_equal. lia.
    + unfold ArrayPtr.set. simpl.
      rewrite write_oob by lia. simpl. do 2 f_equal. lia.
Qed.

Lemma PushBack_after_refused_growth_is_undefined_witness :
  wf (SimpleVector.array_ v123)
  ∧ SimpleVector.GetSize v123 = SimpleVector.GetCapacity v123
  ∧ SimpleVector.PushBack false 4%Z v123
    = Fault (match ArrayPtr.memory_ (SimpleVector.array_ v123) with
             | None => null_deref
             | Some _ => oob_write (SimpleVector.GetCapacity v123)
             end).
Proof.
  assert (wf (SimpleVector.array_ v123)) as Hwf
    by (unfold wf, block, v123, Block.max_len; simpl; lia).
  assert (SimpleVector.GetSize v123 = SimpleVector.GetCapacity v123) as Hfull
    by reflexivity.
  split_and!; [exact Hwf | exact Hfull |].
  exact (PushBack_after_refused_growth_is_undefined 4%Z v123 Hwf Hfull).
Defined.

(** X11. In any state and whatever the heap answers, a call of [PushBack],
    of either [Insert], of [Erase], [PopBack], [Clear], [Resize] or
    [Reserve] that returns does not lower the capacity.  (The assignment
    operators and [swap] replace the buffer and are not among them.) *)
Theorem capacity_never_shrinks
    {T : Type} `{!ElemType T} (this this' : SimpleVector.t T) :
  (∃ heap_ok x, SimpleVector.PushBack heap_ok x this = Ok this')
  ∨ (∃ move heap_ok pos value it,
       SimpleVector.Insert_gen move heap_ok pos value this = Ok (it, this'))
  ∨ (∃ pos it, SimpleVector.Erase pos this = Ok (it, this'))
  ∨ this' = SimpleVector.PopBack this
  ∨ this' = SimpleVector.Clear this
  ∨ (∃ heap_ok n, SimpleVector.Resize heap_ok n this = Ok this')
  ∨ (∃ heap_ok n, SimpleVector.Reserve heap_ok n this = Ok this') →
  (SimpleVector.GetCapacity this ≤ SimpleVector.GetCapacity this')%N.
Proof.
  intros Hcall.
  cut (evolves (SimpleVector.array_ this) (SimpleVector.array_ this'));
    [by intros [? _]|].
  destruct Hcall as [(? & ? & H) | [(? & ? & ? & ? & ? & H) | [(? & ? & H)
    | [-> | [-> | [(? & ? & H) | (? & ? & H)]]]]]].
  - by eapply PushBack_evolves.
  - by eapply Insert_gen_evolves.
  - by eapply Erase_evolves.
  - apply PopBack_evolves.
  - apply SetSize_evolves.
  - unfold SimpleVector.Resize in H. apply bind_Ok in H as (a & H & [= <-]).
    by eapply Resize_evolves.
  - unfold SimpleVector.Reserve in H. apply bind_Ok in H as (a & H & [= <-]).
    by eapply Reserve_evolves.
Qed.

Lemma capacity_never_shrinks_witness :
  SimpleVector.Erase (Slot 1) v123
  = Ok (Slot 1, SimpleVector.mk (ArrayPtr.mk (Some [1; 3; 3]%Z) 2 3))
  ∧ (SimpleVector.GetCapacity v123
     ≤ SimpleVector.GetCapacity
         (SimpleVector.mk (ArrayPtr.mk (Some [1; 3; 3]%Z) 2 3)))%N.
Proof.
  assert (SimpleVector.Erase (Slot 1) v123
          = Ok (Slot 1, SimpleVector.mk (ArrayPtr.mk (Some [1; 3; 3]%Z) 2 3)))
    as He by reflexivity.
  split; [exact He|].
  apply (capacity_never_shrinks v123).
  right. right. left. exists (Slot 1), (Slot 1). exact He.
Defined.

(** X12. [Erase] at a position [j < size] of a well-formed vector, for every
    element type: the element at [j] is removed and the later ones move one
    slot down, the size drops by one, the capacity stays, and the returned
    iterator is at position [j] of the result ([end()] when the last element
    was erased, [nullptr] when the vector became empty). *)
Theorem Erase_removes_the_element
    {T : Type} `{!ElemType T} (j : N) (this : SimpleVector.t T) :
  wf (SimpleVector.array_ this) →
  (j < SimpleVector.GetSize this)%N →
  ∃ it this',
    SimpleVector.Erase (position j this) this = Ok (it, this')
    ∧ wf (SimpleVector.array_ this')
    ∧ SimpleVector.elements this'
      = take (N.to_nat j) (SimpleVector.elements this)
        ++ drop (S (N.to_nat j)) (SimpleVector.elements this)
    ∧ (SimpleVector.GetSize this' = SimpleVector.GetSize this - 1)%N
    ∧ SimpleVector.GetCapacity this' = SimpleVector.GetCapacity this
    ∧ it = position j this'
    ∧ ((j = SimpleVector.GetSize this')%N →
       SimpleVector.end_ this' = Ok it).
Proof.
  intros Hwf Hj.
  destruct (Erase_spec j this Hwf Hj)
    as (it & this' & He & Hwf' & Hsz & Hcap & Hel & Hit).
  exists it, this'.
  assert (position j this = Slot (Z.of_N j)) as ->.
  { unfold position, SimpleVector.IsEmpty, SimpleVector.GetSize in *.
    by rewrite (proj2 (N.eqb_neq _ _)) by lia. }
  split_and!; try done.
  intros ->. destruct (begin_end_wf this' Hwf') as [_ ->]. by rewrite Hit.
Qed.

Lemma Erase_removes_the_element_witness :
  wf (SimpleVector.array_ v123)
  ∧ (1 < SimpleVector.GetSize v123)%N
  ∧ ∃ it this',
      SimpleVector.Erase (position 1 v123) v123 = Ok (it, this')
      ∧ wf (SimpleVector.array_ this')
      ∧ SimpleVector.elements this'
        = take (N.to_nat 1) (SimpleVector.elements v123)
          ++ drop (S (N.to_nat 1)) (SimpleVector.elements v123)
      ∧ (SimpleVector.GetSize this' = SimpleVector.GetSize v123 - 1)%N
      ∧ SimpleVector.GetCapacity this' = SimpleVector.GetCapacity v123
      ∧ it = position 1 this'
      ∧ ((1 = SimpleVector.GetSize this')%N →
         SimpleVector.end_ this' = Ok it).
Proof.
  assert (wf (SimpleVector.array_ v123)) as Hwf
    by (unfold wf, block, v123, Block.max_len; simpl; lia).
  assert (1 < SimpleVector.GetSize v123)%N as Hj by reflexivity.
  split_and!; [exact Hwf | exact Hj |].
  exact (Erase_removes_the_element 1 v123 Hwf Hj).
Defined.

(** X13. [Erase(end())] has undefined behaviour on every well-formed
    vector, an empty one included (where [end()] is [begin()]): the range
    handed to [std::copy] starts after its end, or is formed from null
    pointers. *)
Theorem Erase_at_end_is_undefined
    {T : Type} `{!ElemType T} (this : SimpleVector.t T) :
  wf (SimpleVector.array_ this) →
  ∃ u, SimpleVector.Erase (position (SimpleVector.GetSize this) this) this
       = Fault u.
Proof.
  intros Hwf. pose proof Hwf as (Hlen & Hsz & Hmax). pose proof max_len_lt.
  destruct (SimpleVector.IsEmpty this) eqn:He.
  - destruct (SimpleVector.Erase _ this) as [r| |u] eqn:Her.
    + by apply Erase_empty in Her.
    + exfalso. revert Her.
      unfold SimpleVector.Erase, SimpleVector.cbegin, SimpleVector.end_,
        SimpleVector.begin, position. rewrite He. simpl.
      unfold SimpleVector.addr_of.
      destruct (ArrayPtr.memory_ (SimpleVector.array_ this)); simpl; done.
    + by exists u.
  - exists reversed_range.
    unfold SimpleVector.Erase, SimpleVector.cbegin, SimpleVector.end_,
      SimpleVector.begin, position. rewrite He.
    unfold SimpleVector.IsEmpty, SimpleVector.GetSize, SimpleVector.addr_of,
      ArrayPtr.GetSize in *.
    apply N.eqb_neq in He.
    assert (ArrayPtr.memory_ (SimpleVector.array_ this)
            = Some (block (SimpleVector.array_ this))) as ->
      by (apply wf_memory; [done | lia]).
    simpl.
    unfold SimpleVector.std_copy.
    rewrite decide_True; [done|].
    unfold Block.max_len in *. rewrite size_of_Z_small by lia. lia.
Qed.

Lemma Erase_at_end_is_undefined_witness :
  wf (SimpleVector.array_ v123)
  ∧ ∃ u, SimpleVector.Erase (position (SimpleVector.GetSize v123) v123) v123
         = Fault u.
Proof.
  assert (wf (SimpleVector.array_ v123)) as Hwf
    by (unfold wf, block, v123, Block.max_len; simpl; lia).
  split; [exact Hwf|].
  exact (Erase_at_end_is_undefined v123 Hwf).
Defined.

(** [v.Insert(v.begin(), v[1])] on [{1,2}] held in the block [1,2,3,4]:
    the shift has put the 1 into slot 1 when the reference is read, and the
    vector becomes [{1,1,2}]; with a 2 that is no element of the vector it
    becomes [{2,1,2}].  On the full vector [{1,2,3}],
    [v.Insert(v.begin() + 1, v[0])] reads the reference after [GrowIfNeed]
    has deleted the block it points into. *)
Lemma Insert_scenario_element :
  let v := SimpleVector.mk (ArrayPtr.mk (Some [1; 2; 3; 4]%Z) 2 4) in
  SimpleVector.get 1 v = Ok 2%Z
  ∧ (SimpleVector.elements ∘ snd)
      <$> SimpleVector.Insert true (Slot 0) (SimpleVector.Element 1) v
    = Ok [1; 1; 2]%Z
  ∧ (SimpleVector.elements ∘ snd)
      <$> SimpleVector.Insert true (Slot 0) (SimpleVector.Outside 2%Z) v
    = Ok [2; 1; 2]%Z
  ∧ SimpleVector.Insert true (Slot 1) (SimpleVector.Element 0) v123
    = Fault dangling_reference.
Proof. split_and!; reflexivity. Qed.

(** X14. [Insert], either overload, at a position [i <= size] of a
    well-formed vector of a trivially copyable [Type], when the capacity
    after growth is at least [size + 2] and the argument stays valid (it is
    no element of the vector, or the vector has spare capacity): what is
    inserted before position [i] is the value the argument holds after the
    shift, that is the value of an object outside the vector, element [k]
    for a reference to element [k <= i], but element [k - 1] for a
    reference to element [k > i].  The other elements keep their order, the
    size grows by one, the capacity is the one [GrowIfNeed] gives, and the
    returned iterator is at the inserted slot. *)
Theorem Insert_with_room_inserts
    {T : Type} `{!ElemType T} (move heap_ok : bool) (i : N)
    (value : SimpleVector.arg T) (this : SimpleVector.t T) :
  trivially_copyable = true →
  wf (SimpleVector.array_ this) →
  (i ≤ SimpleVector.GetSize this)%N →
  (SimpleVector.GetSize this = SimpleVector.GetCapacity this →
   heap_ok = true
   ∧ (2 * SimpleVector.GetCapacity this ≤ Block.max_len)%N) →
  (SimpleVector.GetSize this + 2 ≤ grown this)%N →
  stays_valid value this →
  ∃ x it this',
    value_after_shift value i this = Some x
    ∧ SimpleVector.Insert_gen move heap_ok (position i this) value this
      = Ok (it, this')
    ∧ wf (SimpleVector.array_ this')
    ∧ SimpleVector.elements this'
      = take (N.to_nat i) (SimpleVector.elements this)
        ++ x :: drop (N.to_nat i) (SimpleVector.elements this)
    ∧ (SimpleVector.GetSize this' = SimpleVector.GetSize this + 1)%N
    ∧ SimpleVector.GetCapacity this' = grown this
    ∧ it = position i this'
    ∧ SimpleVector.deref it this' = Ok x.
Proof.
  intros Htc Hwf Hi Hheap Hroom Hvalid.
  destruct (Insert_gen_room move heap_ok i value this
              Htc Hwf Hi Hheap Hroom Hvalid)
    as (x & this' & Hx & Hins & Hwf' & Hsz & Hcap & Hel & Hd).
  exists x, (Slot (Z.of_N i)), this'. split_and!; try done.
  unfold position, SimpleVector.IsEmpty, SimpleVector.GetSize in *.
  by rewrite (proj2 (N.eqb_neq _ _)) by lia.
Qed.

Lemma Insert_with_room_inserts_witness :
  let v := SimpleVector.mk (ArrayPtr.mk (Some [1; 2; 3; 4]%Z) 2 4) in
  trivially_copyable (T:=Z) = true
  ∧ wf (SimpleVector.array_ v)
  ∧ (0 ≤ SimpleVector.GetSize v)%N
  ∧ (SimpleVector.GetSize v = SimpleVector.GetCapacity v →
     true = true ∧ (2 * SimpleVector.GetCapacity v ≤ Block.max_len)%N)
  ∧ (SimpleVector.GetSize v + 2 ≤ grown v)%N
  ∧ stays_valid (SimpleVector.Element 1) v
  ∧ value_after_shift (SimpleVector.Element 1) 0 v = Some 1%Z
  ∧ ∃ x it this',
      value_after_shift (SimpleVector.Element 1) 0 v = Some x
      ∧ SimpleVector.Insert_gen false true (position 0 v)
          (SimpleVector.Element 1) v
        = Ok (it, this')
      ∧ wf (SimpleVector.array_ this')
      ∧ SimpleVector.elements this'
        = take (N.to_nat 0) (SimpleVector.elements v)
          ++ x :: drop (N.to_nat 0) (SimpleVector.elements v)
      ∧ (SimpleVector.GetSize this' = SimpleVector.GetSize v + 1)%N
      ∧ SimpleVector.GetCapacity this' = grown v
      ∧ it = position 0 this'
      ∧ SimpleVector.deref it this' = Ok x.
Proof.
  intros v.
  assert (trivially_copyable (T:=Z) = true) as Htc by reflexivity.
  assert (wf (SimpleVector.array_ v)) as Hwf
    by (unfold wf, block, v, Block.max_len; simpl; lia).
  assert (0 ≤ SimpleVector.GetSize v)%N as Hi
    by (unfold SimpleVector.GetSize, v; simpl; lia).
  assert (SimpleVector.GetSize v = SimpleVector.GetCapacity v →
          true = true
          ∧ (2 * SimpleVector.GetCapacity v ≤ Block.max_len)%N) as Hheap
    by (intros _; unfold SimpleVector.GetCapacity, ArrayPtr.GetCapacity,
          Block.max_len, v; simpl; lia).
  assert (SimpleVector.GetSize v + 2 ≤ grown v)%N as Hroom
    by (unfold grown, SimpleVector.GetSize, SimpleVector.GetCapacity, v;
        simpl; lia).
  assert (stays_valid (SimpleVector.Element 1) v) as Hvalid
    by (unfold stays_valid, SimpleVector.GetSize, SimpleVector.GetCapacity, v;
        simpl; lia).
  split_and!; [exact Htc | exact Hwf | exact Hi | exact Hheap | exact Hroom
              | exact Hvalid | reflexivity |].
  exact (Insert_with_room_inserts false true 0 (SimpleVector.Element 1) v
           Htc Hwf Hi Hheap Hroom Hvalid).
Defined.

(** X15. Under the conditions of X14, [Erase] of the iterator [Insert]
    returned gives back the elements and the size, whatever was inserted,
    and returns the position the insertion was made at. *)
Theorem Erase_undoes_Insert_with_room
    {T : Type} `{!ElemType T} (move heap_ok : bool) (i : N)
    (value : SimpleVector.arg T) (this : SimpleVector.t T) :
  trivially_copyable = true →
  wf (SimpleVector.array_ this) →
  (i ≤ SimpleVector.GetSize this)%N →
  (SimpleVector.GetSize this = SimpleVector.GetCapacity this →
   heap_ok = true
   ∧ (2 * SimpleVector.GetCapacity this ≤ Block.max_len)%N) →
  (SimpleVector.GetSize this + 2 ≤ grown this)%N →
  stays_valid value this →
  ∃ it this',
    insert_then_erase move heap_ok (position i this) value this
    = Ok (it, this')
    ∧ SimpleVector.elements this' = SimpleVector.elements this
    ∧ SimpleVector.GetSize this' = SimpleVector.GetSize this
    ∧ SimpleVector.GetCapacity this' = grown this
    ∧ it = position i this'.
Proof.
  intros Htc Hwf Hi Hheap Hroom Hvalid.
  destruct (Insert_gen_room move heap_ok i value this
              Htc Hwf Hi Hheap Hroom Hvalid)
    as (x & this1 & _ & Hins & Hwf1 & Hsz1 & Hcap1 & _).
  destruct (Erase_Insert_room move heap_ok i value this
              Htc Hwf Hi Hheap Hroom Hvalid)
    as (it & this' & Hround & Hel & Hsz & Hit).
  exists it, this'. split_and!; try done.
  unfold insert_then_erase in Hround. rewrite Hins in Hround. simpl in Hround.
  destruct (Erase_spec i this1 Hwf1) as (it2 & this2 & He & _ & _ & Hc2 & _);
    [lia|].
  rewrite He in Hround. injection Hround as _ <-. congruence.
Qed.

Lemma Erase_undoes_Insert_with_room_witness :
  trivially_copyable (T:=Z) = true
  ∧ wf (SimpleVector.array_ v123)
  ∧ (1 ≤ SimpleVector.GetSize v123)%N
  ∧ (SimpleVector.GetSize v123 = SimpleVector.GetCapacity v123 →
     true = true ∧ (2 * SimpleVector.GetCapacity v123 ≤ Block.max_len)%N)
  ∧ (SimpleVector.GetSize v123 + 2 ≤ grown v123)%N
  ∧ stays_valid (SimpleVector.Outside 99%Z) v123
  ∧ ∃ it this',
      insert_then_erase false true (position 1 v123)
        (SimpleVector.Outside 99%Z) v123
      = Ok (it, this')
      ∧ SimpleVector.elements this' = SimpleVector.elements v123
      ∧ SimpleVector.GetSize this' = SimpleVector.GetSize v123
      ∧ SimpleVector.GetCapacity this' = grown v123
      ∧ it = position 1 this'.
Proof.
  assert (trivially_copyable (T:=Z) = true) as Htc by reflexivity.
  assert (wf (SimpleVector.array_ v123)) as Hwf
    by (unfold wf, block, v123, Block.max_len; simpl; lia).
  assert (1 ≤ SimpleVector.GetSize v123)%N as Hi
    by (unfold SimpleVector.GetSize, v123; simpl; lia).
  assert (SimpleVector.GetSize v123 = SimpleVector.GetCapacity v123 →
          true = true
          ∧ (2 * SimpleVector.GetCapacity v123 ≤ Block.max_len)%N) as Hheap
    by (intros _; unfold SimpleVector.GetCapacity, ArrayPtr.GetCapacity,
          Block.max_len, v123; simpl; lia).
  assert (SimpleVector.GetSize v123 + 2 ≤ grown v123)%N as Hroom
    by (unfold grown, SimpleVector.GetSize, SimpleVector.GetCapacity, v123;
        simpl; lia).
  assert (stays_valid (SimpleVector.Outside 99%Z) v123) as Hvalid by exact I.
  split_and!; [exact Htc | exact Hwf | exact Hi | exact Hheap | exact Hroom
              | exact Hvalid |].
  exact (Erase_undoes_Insert_with_room false true 1
           (SimpleVector.Outside 99%Z) v123 Htc Hwf Hi Hheap Hroom Hvalid).
Defined.

(** X16. For a [Type] whose [==] is equality, [operator==] of two
    well-formed vectors returns [true] exactly when they hold the same
    elements in the same order, whatever their capacities and the slots
    past the size hold; [operator!=] returns the opposite. *)
Theorem equality_compares_the_elements
    {T : Type} `{!ElemType T} `{!ElemCompare T} `{!ElemOrder T}
    (lhs rhs : SimpleVector.t T) :
  wf (SimpleVector.array_ lhs) →
  wf (SimpleVector.array_ rhs) →
  ∃ b : bool,
    Compare.operator_eq lhs rhs = Ok b
    ∧ Compare.operator_ne lhs rhs = Ok (negb b)
    ∧ (b = true ↔ SimpleVector.elements lhs = SimpleVector.elements rhs).
Proof.
  intros Hwf1 Hwf2.
  exists (pairwise_eq (SimpleVector.elements lhs) (SimpleVector.elements rhs)).
  unfold Compare.operator_ne. rewrite operator_eq_wf by done.
  split_and!; [done | done | apply pairwise_eq_eq].
Qed.

Lemma equality_compares_the_elements_witness :
  wf (SimpleVector.array_ v123)
  ∧ wf (SimpleVector.array_ (SimpleVector.PopBack v129))
  ∧ ∃ b : bool,
      Compare.operator_eq v123 (SimpleVector.PopBack v129) = Ok b
      ∧ Compare.operator_ne v123 (SimpleVector.PopBack v129) = Ok (negb b)
      ∧ (b = true
         ↔ SimpleVector.elements v123
           = SimpleVector.elements (SimpleVector.PopBack v129)).
Proof.
  assert (wf (SimpleVector.array_ v123)) as Hwf1
    by (unfold wf, block, v123, Block.max_len; simpl; lia).
  assert (wf (SimpleVector.array_ (SimpleVector.PopBack v129))) as Hwf2
    by (unfold wf, block; split_and!; by vm_compute).
  split_and!; [exact Hwf1 | exact Hwf2 |].
  exact (equality_compares_the_elements v123 (SimpleVector.PopBack v129)
           Hwf1 Hwf2).
Defined.

(** X17. For a [Type] whose [<] is a strict total order, [operator<] of two
    well-formed vectors is the lexicographic order of their elements: it
    returns [true] exactly when the left elements are a proper prefix of the
    right ones, or the first slot in which the two differ holds the lesser
    element on the left. *)
Theorem less_is_lexicographic
    {T : Type} `{!ElemType T} `{!ElemCompare T} `{!ElemOrder T}
    (lhs rhs : SimpleVector.t T) :
  wf (SimpleVector.array_ lhs) →
  wf (SimpleVector.array_ rhs) →
  ∃ b : bool,
    Compare.operator_lt lhs rhs = Ok b
    ∧ (b = true
       ↔ (∃ y t,
            SimpleVector.elements rhs = SimpleVector.elements lhs ++ y :: t)
         ∨ (∃ p x y t1 t2,
              SimpleVector.elements lhs = p ++ x :: t1
              ∧ SimpleVector.elements rhs = p ++ y :: t2
              ∧ elem_lt x y = true)).
Proof.
  intros Hwf1 Hwf2.
  exists (lex_lt (SimpleVector.elements lhs) (SimpleVector.elements rhs)).
  split; [by apply operator_lt_wf | apply lex_lt_spec].
Qed.

Lemma less_is_lexicographic_witness :
  wf (SimpleVector.array_ v129)
  ∧ wf (SimpleVector.array_ v13)
  ∧ ∃ b : bool,
      Compare.operator_lt v129 v13 = Ok b
      ∧ (b = true
         ↔ (∃ y t,
              SimpleVector.elements v13 = SimpleVector.elements v129 ++ y :: t)
           ∨ (∃ p x y t1 t2,
                SimpleVector.elements v129 = p ++ x :: t1
                ∧ SimpleVector.elements v13 = p ++ y :: t2
                ∧ elem_lt x y = true)).
Proof.
  assert (wf (SimpleVector.array_ v129)) as Hwf1
    by (unfold wf, block, v129, Block.max_len; simpl; lia).
  assert (wf (SimpleVector.array_ v13)) as Hwf2
    by (unfold wf, block, v13, Block.max_len; simpl; lia).
  split_and!; [exact Hwf1 | exact Hwf2 |].
  exact (less_is_lexicographic v129 v13 Hwf1 Hwf2).
Defined.

(** X18. On well-formed vectors whose element comparison is a strict total
    order, the four ordering operators agree with [operator<]:
    [lhs > rhs] is [rhs < lhs], [lhs <= rhs] is its negation, [lhs >= rhs]
    is the negation of [lhs < rhs], and exactly one of [lhs < rhs],
    [lhs == rhs], [lhs > rhs] holds. *)
Theorem ordering_operators_agree
    {T : Type} `{!ElemType T} `{!ElemCompare T} `{!ElemOrder T}
    (lhs rhs : SimpleVector.t T) :
  wf (SimpleVector.array_ lhs) →
  wf (SimpleVector.array_ rhs) →
  ∃ less equal greater : bool,
    Compare.operator_lt lhs rhs = Ok less
    ∧ Compare.operator_eq lhs rhs = Ok equal
    ∧ Compare.operator_lt rhs lhs = Ok greater
    ∧ Compare.operator_gt lhs rhs = Ok greater
    ∧ Compare.operator_le lhs rhs = Ok (negb greater)
    ∧ Compare.operator_ge lhs rhs = Ok (negb less)
    ∧ (less, equal, greater)
      ∈ [(true, false, false); (false, true, false); (false, false, true)].
Proof.
  intros Hwf1 Hwf2.
  set (l1 := SimpleVector.elements lhs). set (l2 := SimpleVector.elements rhs).
  exists (lex_lt l1 l2), (pairwise_eq l1 l2), (lex_lt l2 l1).
  pose proof (lex_lt_or_eq l1 l2) as Hle.
  pose proof (lex_lt_or_eq l2 l1) as Hge.
  unfold Compare.operator_gt, Compare.operator_le, Compare.operator_ge.
  rewrite (operator_lt_wf lhs rhs), (operator_lt_wf rhs lhs),
    (operator_eq_wf lhs rhs) by done.
  fold l1 l2. simpl.
  assert (pairwise_eq l2 l1 = pairwise_eq l1 l2) as Hsym.
  { destruct (pairwise_eq l1 l2) eqn:H12.
    - apply pairwise_eq_eq in H12. apply pairwise_eq_eq. done.
    - destruct (pairwise_eq l2 l1) eqn:H21; [|done].
      apply pairwise_eq_eq in H21. symmetry in H21.
      apply pairwise_eq_eq in H21. congruence. }
  rewrite Hsym in Hge.
  assert (lex_lt l1 l2 = true → pairwise_eq l1 l2 = false) as Hirr.
  { intros Hlt. destruct (pairwise_eq l1 l2) eqn:He; [|done].
    apply pairwise_eq_eq in He. rewrite He, lex_lt_irrefl in Hlt. done. }
  split_and!; try done.
  - destruct (lex_lt l1 l2), (pairwise_eq l1 l2), (lex_lt l2 l1);
      simpl in *; congruence.
  - destruct (lex_lt l1 l2), (pairwise_eq l1 l2), (lex_lt l2 l1);
      simpl in *; congruence.
  - destruct (lex_lt l1 l2), (pairwise_eq l1 l2), (lex_lt l2 l1);
      simpl in *; try done; set_solver.
Qed.

Lemma ordering_operators_agree_witness :
  wf (SimpleVector.array_ v13)
  ∧ wf (SimpleVector.array_ v129)
  ∧ ∃ less equal greater : bool,
      Compare.operator_lt v13 v129 = Ok less
      ∧ Compare.operator_eq v13 v129 = Ok equal
      ∧ Compare.operator_lt v129 v13 = Ok greater
      ∧ Compare.operator_gt v13 v129 = Ok greater
      ∧ Compare.operator_le v13 v129 = Ok (negb greater)
      ∧ Compare.operator_ge v13 v129 = Ok (negb less)
      ∧ (less, equal, greater)
        ∈ [(true, false, false); (false, true, false); (false, false, true)].
Proof.
  assert (wf (SimpleVector.array_ v13)) as Hwf1
    by (unfold wf, block, v13, Block.max_len; simpl; lia).
  assert (wf (SimpleVector.array_ v129)) as Hwf2
    by (unfold wf, block, v129, Block.max_len; simpl; lia).
  split_and!; [exact Hwf1 | exact Hwf2 |].
  exact (ordering_operators_agree v13 v129 Hwf1 Hwf2).
Defined.

(** X19. The iterators of a well-formed vector span its elements: [end()]
    is [size] steps after [begin()], and stepping [i < size] times from
    [begin()] reaches the element [operator[]] and [At] give for [i].  Both
    are [nullptr] when the vector is empty, also when it owns a block. *)
Theorem iterators_span_the_elements
    {T : Type} `{!ElemType T} (this : SimpleVector.t T) :
  wf (SimpleVector.array_ this) →
  ∃ b e,
    SimpleVector.begin this = Ok b
    ∧ SimpleVector.end_ this = Ok e
    ∧ SimpleVector.cbegin this = Ok b
    ∧ SimpleVector.cend this = Ok e
    ∧ std_distance b e = Ok (Z.of_N (SimpleVector.GetSize this))
    ∧ (SimpleVector.IsEmpty this = true → b = Null ∧ e = Null)
    ∧ ∀ i : N, (i < SimpleVector.GetSize this)%N →
        ∃ x,
          SimpleVector.elements this !! N.to_nat i = Some x
          ∧ (std_next b (Z.of_N i) ≫= λ it, SimpleVector.deref it this) = Ok x
          ∧ SimpleVector.get i this = Ok x
          ∧ SimpleVector.At i this = Ok x.
Proof.
  intros Hwf. pose proof Hwf as (Hlen & Hsz & Hmax).
  destruct (begin_end_wf this Hwf) as [Hb He].
  exists (position 0 this), (position (SimpleVector.GetSize this) this).
  split_and!; try done.
  - unfold position.
    destruct (SimpleVector.IsEmpty this) eqn:Hempty; simpl; [|f_equal; lia].
    unfold SimpleVector.IsEmpty in Hempty. apply N.eqb_eq in Hempty.
    unfold SimpleVector.GetSize. by rewrite Hempty.
  - unfold position. by intros ->.
  - intros i Hi.
    unfold position, SimpleVector.IsEmpty.
    unfold SimpleVector.GetSize, ArrayPtr.GetSize in *.
    rewrite (proj2 (N.eqb_neq _ _)) by lia. simpl.
    pose proof (wf_memory _ Hwf ltac:(lia)) as Hm.
    destruct (lookup_lt_is_Some_2 (block (SimpleVector.array_ this))
                (N.to_nat i)) as [x Hx]; [lia|].
    exists x.
    assert (SimpleVector.elements this !! N.to_nat i = Some x) as Hel.
    { unfold SimpleVector.elements, SimpleVector.GetSize, ArrayPtr.GetSize.
      rewrite Hm. rewrite lookup_take_lt by lia. done. }
    split_and!; [done | | |].
    + replace (Z.of_N i) with (Z.of_nat (N.to_nat i)) by lia.
      by apply (deref_Slot this _ _ x Hm).
    + unfold SimpleVector.get, ArrayPtr.get. rewrite Hm. by apply read_Ok.
    + unfold SimpleVector.At, ArrayPtr.At.
      rewrite (proj2 (N.leb_gt _ _)) by done. unfold ArrayPtr.get.
      rewrite Hm. by apply read_Ok.
Qed.

Lemma iterators_span_the_elements_witness :
  wf (SimpleVector.array_ v123)
  ∧ ∃ b e,
      SimpleVector.begin v123 = Ok b
      ∧ SimpleVector.end_ v123 = Ok e
      ∧ SimpleVector.cbegin v123 = Ok b
      ∧ SimpleVector.cend v123 = Ok e
      ∧ std_distance b e = Ok (Z.of_N (SimpleVector.GetSize v123))
      ∧ (SimpleVector.IsEmpty v123 = true → b = Null ∧ e = Null)
      ∧ ∀ i : N, (i < SimpleVector.GetSize v123)%N →
          ∃ x,
            SimpleVector.elements v123 !! N.to_nat i = Some x
            ∧ (std_next b (Z.of_N i) ≫= λ it, SimpleVector.deref it v123)
              = Ok x
            ∧ SimpleVector.get i v123 = Ok x
            ∧ SimpleVector.At i v123 = Ok x.
Proof.
  assert (wf (SimpleVector.array_ v123)) as Hwf
    by (unfold wf, block, v123, Block.max_len; simpl; lia).
  split; [exact Hwf|].
  exact (iterators_span_the_elements v123 Hwf).
Defined.

(** X20. Copy construction from a well-formed vector, the heap honouring
    the allocation: the new vector holds the same elements and has the same
    size and capacity, it owns a block of its own (also when the capacity is
    0), and the source and every other object are as they were.  When the
    heap refuses, [std::bad_alloc] leaves the constructor. *)
Theorem copy_construction_copies_the_elements
    {T : Type} `{!ElemType T} (heap_ok : bool) (v other : nat)
    (o : ArrayPtr.t T) (σ : gmap nat (ArrayPtr.t T)) :
  σ !! v = None →
  σ !! other = Some o →
  wf o →
  ∃ a,
    Program.exec heap_ok (Program.NewCopy v other) σ
    = (if heap_ok then Ok (<[v := a]> σ) else Throw bad_alloc)
    ∧ wf a
    ∧ SimpleVector.elements (SimpleVector.mk a)
      = SimpleVector.elements (SimpleVector.mk o)
    ∧ ArrayPtr.size_ a = ArrayPtr.size_ o
    ∧ ArrayPtr.capacity_ a = ArrayPtr.capacity_ o
    ∧ ArrayPtr.memory_ a ≠ None
    ∧ <[v := a]> σ !! other = Some o.
Proof.
  intros Hv Ho Hwf.
  destruct (copy_ctor_Ok o Hwf) as (a & Hc & Hrest).
  exists a. simpl. unfold Program.copy_construct. rewrite Hv, Ho.
  split_and!; try apply Hrest.
  - destruct heap_ok; [by rewrite Hc | done].
  - rewrite lookup_insert_ne; [done|]. intros ->. congruence.
Qed.

Lemma copy_construction_copies_the_elements_witness :
  let σ : gmap nat (ArrayPtr.t Z) := {[ 0%nat := SimpleVector.array_ v123 ]} in
  σ !! 1%nat = None
  ∧ σ !! 0%nat = Some (SimpleVector.array_ v123)
  ∧ wf (SimpleVector.array_ v123)
  ∧ ∃ a,
      Program.exec true (Program.NewCopy 1 0) σ
      = (if true then Ok (<[1%nat := a]> σ) else Throw bad_alloc)
      ∧ wf a
      ∧ SimpleVector.elements (SimpleVector.mk a)
        = SimpleVector.elements v123
      ∧ ArrayPtr.size_ a = ArrayPtr.size_ (SimpleVector.array_ v123)
      ∧ ArrayPtr.capacity_ a = ArrayPtr.capacity_ (SimpleVector.array_ v123)
      ∧ ArrayPtr.memory_ a ≠ None
      ∧ <[1%nat := a]> σ !! 0%nat = Some (SimpleVector.array_ v123).
Proof.
  intros σ.
  assert (σ !! 1%nat = None) as Hv by reflexivity.
  assert (σ !! 0%nat = Some (SimpleVector.array_ v123)) as Ho by reflexivity.
  assert (wf (SimpleVector.array_ v123)) as Hwf
    by (unfold wf, block, v123, Block.max_len; simpl; lia).
  split_and!; [exact Hv | exact Ho | exact Hwf |].
  exact (copy_construction_copies_the_elements true 1 0
           (SimpleVector.array_ v123) σ Hv Ho Hwf).
Defined.

(** X21. Copy assignment from a well-formed vector: assigning a vector to
    itself changes nothing and asks the heap for nothing; otherwise, the
    heap honouring the allocation, the target becomes a copy with the same
    elements, size and capacity, whatever it held, and the source and every
    other object are as they were; when the heap refuses, [std::bad_alloc]
    leaves the operator before the target is touched. *)
Theorem copy_assignment_copies_the_elements
    {T : Type} `{!ElemType T} (heap_ok : bool) (v rhs : nat)
    (old o : ArrayPtr.t T) (σ : gmap nat (ArrayPtr.t T)) :
  σ !! v = Some old →
  σ !! rhs = Some o →
  wf o →
  ∃ a,
    Program.exec heap_ok (Program.AssignCopy v rhs) σ
    = (if decide (rhs = v) then Ok σ
       else if heap_ok then Ok (<[v := a]> σ) else Throw bad_alloc)
    ∧ wf a
    ∧ SimpleVector.elements (SimpleVector.mk a)
      = SimpleVector.elements (SimpleVector.mk o)
    ∧ ArrayPtr.size_ a = ArrayPtr.size_ o
    ∧ ArrayPtr.capacity_ a = ArrayPtr.capacity_ o
    ∧ (rhs ≠ v → <[v := a]> σ !! rhs = Some o).
Proof.
  intros Hv Ho Hwf.
  destruct (copy_ctor_Ok o Hwf) as (a & Hc & Hwfa & Hel & Hsz & Hcap & _).
  exists a. simpl. unfold Program.copy_assign. rewrite Hv, Ho.
  split_and!; try done.
  - destruct (decide (rhs = v)); [done|].
    unfold ArrayPtr.copy_assign.
    destruct heap_ok; [|done]. rewrite Hc. simpl. by destruct a.
  - intros Hne. by rewrite lookup_insert_ne.
Qed.

Lemma copy_assignment_copies_the_elements_witness :
  let σ : gmap nat (ArrayPtr.t Z) :=
    {[ 0%nat := SimpleVector.array_ v123; 1%nat := SimpleVector.array_ v12 ]} in
  σ !! 1%nat = Some (SimpleVector.array_ v12)
  ∧ σ !! 0%nat = Some (SimpleVector.array_ v123)
  ∧ wf (SimpleVector.array_ v123)
  ∧ ∃ a,
      Program.exec true (Program.AssignCopy 1 0) σ
      = (if decide (0%nat = 1%nat) then Ok σ
         else if true then Ok (<[1%nat := a]> σ) else Throw bad_alloc)
      ∧ wf a
      ∧ SimpleVector.elements (SimpleVector.mk a)
        = SimpleVector.elements v123
      ∧ ArrayPtr.size_ a = ArrayPtr.size_ (SimpleVector.array_ v123)
      ∧ ArrayPtr.capacity_ a = ArrayPtr.capacity_ (SimpleVector.array_ v123)
      ∧ (0%nat ≠ 1%nat →
         <[1%nat := a]> σ !! 0%nat = Some (SimpleVector.array_ v123)).
Proof.
  intros σ.
  assert (σ !! 1%nat = Some (SimpleVector.array_ v12)) as Hv by reflexivity.
  assert (σ !! 0%nat = Some (SimpleVector.array_ v123)) as Ho by reflexivity.
  assert (wf (SimpleVector.array_ v123)) as Hwf
    by (unfold wf, block, v123, Block.max_len; simpl; lia).
  split_and!; [exact Hv | exact Ho | exact Hwf |].
  exact (copy_assignment_copies_the_elements true 1 0
           (SimpleVector.array_ v12) (SimpleVector.array_ v123) σ Hv Ho Hwf).
Defined.

(** X22. [swap] of two live vectors exchanges their blocks, sizes and
    capacities and touches no other object; it asks the heap for nothing and
    cannot fail.  Swapping a vector with itself and swapping twice both give
    the store back. *)
Theorem swap_exchanges_the_vectors
    {T : Type} `{!ElemType T} (heap_ok heap_ok' : bool) (v w : nat)
    (a b : ArrayPtr.t T) (σ : gmap nat (ArrayPtr.t T)) :
  σ !! v = Some a →
  σ !! w = Some b →
  Program.exec heap_ok (Program.Swap v w) σ
  = Ok (<[v := b]> (<[w := a]> σ))
  ∧ (v = w → Program.exec heap_ok (Program.Swap v w) σ = Ok σ)
  ∧ Program.run [(heap_ok, Program.Swap v w); (heap_ok', Program.Swap v w)] σ
    = Ok σ.
Proof.
  intros Hv Hw.
  assert (<[v := b]> (<[w := a]> σ) !! v = Some b) as Hv'
    by apply lookup_insert_eq.
  assert (<[v := b]> (<[w := a]> σ) !! w = Some a) as Hw'.
  { destruct (decide (w = v)) as [->|Hne].
    - rewrite lookup_insert_eq. congruence.
    - rewrite lookup_insert_ne by done. apply lookup_insert_eq. }
  assert (<[v := a]> (<[w := b]> (<[v := b]> (<[w := a]> σ))) = σ) as Hback.
  { apply map_eq. intros k.
    destruct (decide (k = v)) as [->|]; [by simplify_map_eq|].
    destruct (decide (k = w)) as [->|]; by simplify_map_eq. }
  split_and!.
  - by apply swap_Ok.
  - intros ->. simpl. rewrite (swap_Ok w w a b σ Hv Hw). f_equal.
    rewrite insert_insert_eq. apply insert_id. congruence.
  - simpl. rewrite (swap_Ok v w a b σ Hv Hw).
    rewrite (swap_Ok v w b a _ Hv' Hw'). by rewrite Hback.
Qed.

Lemma swap_exchanges_the_vectors_witness :
  let σ : gmap nat (ArrayPtr.t Z) :=
    {[ 0%nat := SimpleVector.array_ v123; 1%nat := SimpleVector.array_ v12 ]} in
  σ !! 0%nat = Some (SimpleVector.array_ v123)
  ∧ σ !! 1%nat = Some (SimpleVector.array_ v12)
  ∧ Program.exec true (Program.Swap 0 1) σ
    = Ok (<[0%nat := SimpleVector.array_ v12]>
            (<[1%nat := SimpleVector.array_ v123]> σ))
  ∧ (0%nat = 1%nat → Program.exec true (Program.Swap 0 1) σ = Ok σ)
  ∧ Program.run [(true, Program.Swap 0 1); (false, Program.Swap 0 1)] σ
    = Ok σ.
Proof.
  intros σ.
  assert (σ !! 0%nat = Some (SimpleVector.array_ v123)) as Hv by reflexivity.
  assert (σ !! 1%nat = Some (SimpleVector.array_ v12)) as Hw by reflexivity.
  split_and!; [exact Hv | exact Hw | ..];
    apply (swap_exchanges_the_vectors true false 0 1
             (SimpleVector.array_ v123) (SimpleVector.array_ v12) σ Hv Hw).
Defined.

(** X23. While the heap honours every request, every vector of every store
    a run of calls of the public interface returns is well formed: its
    capacity is the length of the block it owns, its size is at most its
    capacity, it holds exactly [size] elements, and it has a null pointer
    only with capacity 0. *)
Theorem honoured_runs_keep_vectors_well_formed
    {T : Type} `{!ElemType T} (p : list (bool * Program.call T))
    (σ : gmap nat (ArrayPtr.t T)) (v : nat) (a : ArrayPtr.t T) :
  run_honoured p ∅ →
  Program.run p ∅ = Ok σ →
  σ !! v = Some a →
  N.of_nat (length (block a)) = ArrayPtr.capacity_ a
  ∧ (ArrayPtr.size_ a ≤ ArrayPtr.capacity_ a)%N
  ∧ (length (SimpleVector.elements (SimpleVector.mk a))
     = N.to_nat (ArrayPtr.size_ a))
  ∧ null_only_if_no_capacity a.
Proof.
  intros Hh Hrun Hv.
  assert (wf a) as Hwf
    by (eapply (run_wf p ∅ σ); [apply map_Forall_empty | done..]).
  pose proof Hwf as (Hlen & Hsz & _).
  split_and!; [done | done | |].
  - rewrite (elements_block (SimpleVector.mk a)), length_take.
    unfold SimpleVector.GetSize, ArrayPtr.GetSize. simpl. lia.
  - intros Hnull. unfold block in Hlen. rewrite Hnull in Hlen. simpl in Hlen.
    lia.
Qed.

Lemma honoured_runs_keep_vectors_well_formed_witness :
  let p : list (bool * Program.call Z) :=
    [(true, Program.NewList 0 [1; 2; 3]%Z); (true, Program.PushBack 0 4%Z);
     (true, Program.NewCopy 1 0); (true, Program.PopBack 1);
     (true, Program.Swap 0 1)] in
  let a := ArrayPtr.mk (Some [1; 2; 3; 4; 0; 0]%Z) 3 6 in
  let b := ArrayPtr.mk (Some [1; 2; 3; 4; 0; 0]%Z) 4 6 in
  let σ : gmap nat (ArrayPtr.t Z) := {[ 0%nat := a; 1%nat := b ]} in
  run_honoured p ∅
  ∧ Program.run p ∅ = Ok σ
  ∧ σ !! 0%nat = Some a
  ∧ N.of_nat (length (block a)) = ArrayPtr.capacity_ a
  ∧ (ArrayPtr.size_ a ≤ ArrayPtr.capacity_ a)%N
  ∧ (length (SimpleVector.elements (SimpleVector.mk a))
     = N.to_nat (ArrayPtr.size_ a))
  ∧ null_only_if_no_capacity a.
Proof.
  intros p a b σ.
  assert (run_honoured p ∅) as Hh
    by (unfold p; simpl; unfold honoured; simpl;
        repeat split; by vm_compute).
  assert (Program.run p ∅ = Ok σ) as Hrun by reflexivity.
  assert (σ !! 0%nat = Some a) as Hv by reflexivity.
  split_and!; [exact Hh | exact Hrun | exact Hv | ..];
    apply (honoured_runs_keep_vectors_well_formed p σ 0 a Hh Hrun Hv).
Defined.

(** X24. [operator[]] makes no check against the size: on a well-formed
    vector it returns what slot [index] of the block holds for every
    [index < capacity], the slots at and after [size] included, and for
    [index >= capacity] it reads outside the block (or through the null
    pointer); it never throws.  [At] differs exactly on
    [size <= index]. *)
Theorem subscript_is_unchecked
    {T : Type} `{!ElemType T} (index : N) (this : SimpleVector.t T) :
  wf (SimpleVector.array_ this) →
  match SimpleVector.get index this with
  | Ok x =>
      (index < SimpleVector.GetCapacity this)%N
      ∧ block (SimpleVector.array_ this) !! N.to_nat index = Some x
      ∧ SimpleVector.At index this
        = (if (index <? SimpleVector.GetSize this)%N then Ok x
           else Throw out_of_range)
  | Throw _ => False
  | Fault u =>
      (SimpleVector.GetCapacity this ≤ index)%N
      ∧ u = (if (SimpleVector.GetCapacity this =? 0)%N
                && bool_decide
                     (ArrayPtr.memory_ (SimpleVector.array_ this) = None)
             then null_deref else oob_read index)
      ∧ SimpleVector.At index this = Throw out_of_range
  end.
Proof.
  intros (Hlen & Hsz & Hmax).
  unfold SimpleVector.At, ArrayPtr.At, SimpleVector.get, ArrayPtr.get,
    SimpleVector.GetCapacity, SimpleVector.GetSize, ArrayPtr.GetCapacity,
    ArrayPtr.GetSize, block in *.
  set (s := ArrayPtr.size_ (SimpleVector.array_ this)) in *.
  set (c := ArrayPtr.capacity_ (SimpleVector.array_ this)) in *.
  destruct (ArrayPtr.memory_ (SimpleVector.array_ this)) as [b|]; simpl in *.
  - unfold Block.read.
    destruct (b !! N.to_nat index) as [x|] eqn:Hx.
    + apply lookup_lt_Some in Hx as Hlt. split_and!; [lia | done |].
      destruct (N.ltb_spec index s), (N.leb_spec s index); (done || lia).
    + apply lookup_ge_None in Hx. split_and!; [lia | |].
      * rewrite andb_false_r. f_equal. lia.
      * by rewrite (proj2 (N.leb_le _ _)) by lia.
  - split_and!; [lia | |].
    + rewrite andb_true_r. by rewrite (proj2 (N.eqb_eq _ _)) by lia.
    + by rewrite (proj2 (N.leb_le _ _)) by lia.
Qed.

Lemma subscript_is_unchecked_witness :
  let v := SimpleVector.PopBack v123 in
  wf (SimpleVector.array_ v)
  ∧ match SimpleVector.get 2 v with
    | Ok x =>
        (2 < SimpleVector.GetCapacity v)%N
        ∧ block (SimpleVector.array_ v) !! N.to_nat 2 = Some x
        ∧ SimpleVector.At 2 v
          = (if (2 <? SimpleVector.GetSize v)%N then Ok x
             else Throw out_of_range)
    | Throw _ => False
    | Fault u =>
        (SimpleVector.GetCapacity v ≤ 2)%N
        ∧ u = (if (SimpleVector.GetCapacity v =? 0)%N
                  && bool_decide
                       (ArrayPtr.memory_ (SimpleVector.array_ v) = None)
               then null_deref else oob_read 2)
        ∧ SimpleVector.At 2 v = Throw out_of_range
    end.
Proof.
  intros v.
  assert (wf (SimpleVector.array_ v)) as Hwf
    by (unfold wf, block; split_and!; by vm_compute).
  split; [exact Hwf|].
  exact (subscript_is_unchecked 2 v Hwf).
Defined.
